(** * node-storinfo: the placement logic of [lib/client.js]

    A shallow embedding of the storage-node selection code of the Storinfo
    client ([lower_bound], [storageZoneComparator], [sortAndStoreDcs], the
    [StorinfoClient] constructor and [choose] with its closures [host] and
    [set]) together with the properties of the placement algorithm.

    Conventions of the embedding:
    - a JavaScript number that the code uses as a count, an index or a size
      is an integer of [Z]; [undefined]/[null] is [None];
    - an object used as a dictionary is a [gmap] keyed by strings, and
      [Object.keys] is the list of its keys; where the code reads a name
      that the data of a poll supplies, a name the object does not own
      falls through to [Object.prototype] ([push_at]);
    - an array is a [list]; reading past its end gives [undefined] ([None]);
    - [Math.floor(Math.random() * n)] draws from an entropy oracle
      [rnd : nat -> nat], the k-th call of [Math.random] using [rnd k];
    - a computation can return, throw, or exhaust the fuel of a loop. *)

From stdpp Require Import gmap strings list sorting pretty.
From Stdlib Require Import ZArith Lia Ascii.

Local Open Scope Z_scope.

(** ** Outcomes of a JavaScript computation *)

Inductive exn : Type :=
| TypeError        (* property access on undefined or null *)
| AssertionError.  (* a failed assert-plus check *)

Inductive res (A : Type) : Type :=
| Ret (a : A)
| Throw (e : exn)
| Diverge.         (* the fuel of a loop ran out *)

Arguments Ret {A} a.
Arguments Throw {A} e.
Arguments Diverge {A}.

Definition res_bind {A B} (m : res A) (f : A -> res B) : res B :=
  match m with
  | Ret a => f a
  | Throw e => Throw e
  | Diverge => Diverge
  end.

(** [arr[i]] for a numeric index. *)
Definition js_get {A} (arr : list A) (i : Z) : option A :=
  if decide (0 <= i) then arr !! Z.to_nat i else None.

(** [x || d] for an optional number: [undefined] and [0] are falsy. *)
Definition js_or (x : option Z) (d : Z) : Z :=
  match x with
  | Some v => if decide (v = 0) then d else v
  | None => d
  end.

(** ** Storage nodes *)

Record shark : Type := mkShark {
  manta_storage_id : string;
  datacenter : string;
  availableMB : Z
}.

(** The object [host] returns for a chosen shark. *)
Record replica : Type := mkReplica {
  r_datacenter : string;
  r_manta_storage_id : string
}.

Global Instance shark_eq_dec : EqDecision shark.
Proof. solve_decision. Defined.

Global Instance replica_eq_dec : EqDecision replica.
Proof. solve_decision. Defined.

Definition DEF_NUM_COPIES : Z := 2.
Definition DEF_MAX_STREAMING_SIZE_MB : Z := 5120.
Definition DEF_MAX_PERCENT_UTIL : Z := 90.
Definition DEF_MAX_OPERATOR_PERCENT_UTIL : Z := 92.

(** ** [lower_bound] *)

(** The [while (low < high)] loop.  Every iteration shrinks [high - low], so
    [S (Z.to_nat (high - low))] units of fuel always suffice. *)
Fixpoint lower_bound_loop (fuel : nat) (set : list shark) (size low high : Z)
  : res Z :=
  match fuel with
  | O => Diverge
  | S fuel' =>
      if decide (low < high) then
        let mid := low + (high - low) / 2 in
        match js_get set mid with
        | None => Throw TypeError
        | Some x =>
            if decide (availableMB x >= size)
            then lower_bound_loop fuel' set size low mid
            else lower_bound_loop fuel' set size (mid + 1) high
        end
      else Ret low
  end.

Definition lower_bound (set : option (list shark)) (size : option Z)
    (low high : option Z) : res Z :=
  match set with
  | None => Throw AssertionError
  | Some set =>
      match size with
      | None => Throw AssertionError
      | Some size =>
          let low := js_or low 0 in
          let high := js_or high (Z.of_nat (length set)) in
          res_bind
            (lower_bound_loop (S (Z.to_nat (high - low))) set size low high)
            (fun low =>
               match js_get set low with
               | None => Ret (-1)
               | Some x =>
                   if decide (availableMB x < size) then Ret (-1) else Ret low
               end)
      end
  end.

(** ** Sorting a topology *)

Definition storageZoneComparator (a b : shark) : Z :=
  if decide (availableMB a < availableMB b) then -1
  else if decide (availableMB a > availableMB b) then 1
  else 0.

(** The order a comparator induces: [a] may stand before [b]. *)
Definition cmp_le (cmp : shark -> shark -> Z) (a b : shark) : Prop :=
  cmp a b <= 0.

Global Instance cmp_le_dec cmp a b : Decision (cmp_le cmp a b).
Proof. unfold cmp_le. apply _. Defined.

(** [Array.prototype.sort(cmp)] belongs to the host, not to this repository;
    it is taken to be a merge sort driven by the comparator. *)
Definition array_sort (cmp : shark -> shark -> Z) (arr : list shark)
  : list shark :=
  merge_sort (cmp_le cmp) arr.

(** Ascending by [availableMB]. *)
Definition capacity_le (a b : shark) : Prop := availableMB a <= availableMB b.

Definition sorted_by_capacity (l : list shark) : Prop :=
  Sorted capacity_le l.

(** ** The client object *)

Record client_opts : Type := mkClientOpts {
  o_pollInterval : option Z;
  o_multiDC : option bool;
  o_defaultMaxStreamingSizeMB : option Z;
  o_maxUtilizationPct : option Z;
  o_standalone : bool
}.

Record client : Type := mkClient {
  standalone : bool;
  dcSharkMap : option (gmap string (list shark));
  operatorDcSharkMap : option (gmap string (list shark));
  dcIndex : Z;
  multiDC : bool;
  datacenters : option (list string);
  operatorDatacenters : option (list string);
  pollInterval : option Z;
  defMaxSizeMB : option Z;
  utilization : option Z
}.

(** The constructor.  The polling fields, [defMaxSizeMB] among them, are
    assigned only inside [if (opts.pollInterval !== undefined &&
    !opts.standalone)]; [operatorDatacenters] is not assigned at all. *)
Definition StorinfoClient (opts : client_opts) : client :=
  let polling :=
    match o_pollInterval opts with
    | Some _ => negb (o_standalone opts)
    | None => false
    end in
  {| standalone := o_standalone opts;
     dcSharkMap := None;
     operatorDcSharkMap := None;
     dcIndex := -1;
     multiDC := match o_multiDC opts with Some b => b | None => true end;
     datacenters := None;
     operatorDatacenters := None;
     pollInterval :=
       if polling then (fun p => p * 1000) <$> o_pollInterval opts else None;
     defMaxSizeMB :=
       if polling
       then Some (js_or (o_defaultMaxStreamingSizeMB opts)
                    DEF_MAX_STREAMING_SIZE_MB)
       else None;
     utilization :=
       if polling
       then Some (js_or (o_maxUtilizationPct opts) DEF_MAX_PERCENT_UTIL)
       else None |}.

Definition object_keys {V} (obj : gmap string V) : list string :=
  (map_to_list obj).*1.

(** [sortAndStoreDcs.call(self, dcObj, opDcObj)]: every list is sorted in
    place, the key arrays and the two maps are stored. *)
Definition sortAndStoreDcs (self : client)
    (dcObj opDcObj : gmap string (list shark)) : client :=
  let dcs := object_keys dcObj in
  let operatorDcs := object_keys opDcObj in
  let dcObj' := array_sort storageZoneComparator <$> dcObj in
  let opDcObj' := array_sort storageZoneComparator <$> opDcObj in
  let dcCount := Z.of_nat (length dcs) in
  let operatorDcCount := Z.of_nat (length operatorDcs) in
  {| standalone := standalone self;
     dcSharkMap := Some dcObj';
     operatorDcSharkMap := Some opDcObj';
     dcIndex := dcIndex self;
     multiDC := multiDC self;
     datacenters := Some (if decide (dcCount > 0) then dcs else []);
     operatorDatacenters :=
       Some (if decide (operatorDcCount > 0) then operatorDcs else []);
     pollInterval := pollInterval self;
     defMaxSizeMB := defMaxSizeMB self;
     utilization := utilization self |}.

(** ** The mutable state of one [choose] call

    [self.dcIndex] (which outlives the call), the [seen] array of the call,
    and the number of [Math.random()] calls made so far. *)

Record sel_state : Type := mkSel {
  st_dcIndex : Z;
  st_seen : list string;
  st_draws : nat
}.

Definition M (A : Type) : Type := sel_state -> res A * sel_state.

Definition ret {A} (a : A) : M A := fun st => (Ret a, st).
Definition throw {A} (e : exn) : M A := fun st => (Throw e, st).
Definition diverge {A} : M A := fun st => (Diverge, st).

Definition bind {A B} (m : M A) (f : A -> M B) : M B :=
  fun st =>
    match m st with
    | (Ret a, st') => f a st'
    | (Throw e, st') => (Throw e, st')
    | (Diverge, st') => (Diverge, st')
    end.

Notation "'let*' x ':=' m 'in' k" := (bind m (fun x => k))
  (at level 10, x name, m at level 100, k at level 200, only parsing).

Definition lift {A} (r : res A) : M A := fun st => (r, st).

Definition get_seen : M (list string) := fun st => (Ret (st_seen st), st).

(** [seen.push(id)] *)
Definition push_seen (id : string) : M unit :=
  fun st =>
    (Ret tt, {| st_dcIndex := st_dcIndex st;
                st_seen := st_seen st ++ [id];
                st_draws := st_draws st |}).

(** [if (++self.dcIndex >= dcs.length) self.dcIndex = 0; ndx = self.dcIndex] *)
Definition next_dcIndex (ndcs : Z) : M Z :=
  fun st =>
    let i := st_dcIndex st + 1 in
    let i := if decide (i >= ndcs) then 0 else i in
    (Ret i, {| st_dcIndex := i;
               st_seen := st_seen st;
               st_draws := st_draws st |}).

(** ** Entropy *)

(** [Math.floor(Math.random() * n)]: an integer between [0] and [n - 1] for a
    positive [n], [0] for [n = 0], between [n] and [0] for a negative [n]. *)
Definition math_random_floor (rnd : nat -> nat) (n : Z) : M Z :=
  fun st =>
    let d := Z.of_nat (rnd (st_draws st)) in
    let v := if decide (0 < n) then d mod n
             else if decide (n < 0) then - (d mod (1 - n))
             else 0 in
    (Ret v, {| st_dcIndex := st_dcIndex st;
               st_seen := st_seen st;
               st_draws := S (st_draws st) |}).

(** [random(min, max, skip)].  [choose] never passes [skip]. *)
Definition random (rnd : nat -> nat) (min max : Z) (skip : option Z) : M Z :=
  let* f := math_random_floor rnd (max - min + 1) in
  let num := f + min in
  if decide (skip = Some num) then ret (Z.rem (num + 1) max) else ret num.

(** The Fisher-Yates [shuffle]: [m] counts down from [array.length]; the
    draw uses [m] before the decrement, the swap uses it after. *)
Fixpoint shuffle_loop {A} (rnd : nat -> nat) (m : nat) (array : list A)
  : M (list A) :=
  match m with
  | O => ret array
  | S m' =>
      let* i := math_random_floor rnd (Z.of_nat m) in
      match array !! m', js_get array i with
      | Some t, Some ai =>
          shuffle_loop rnd m' (<[Z.to_nat i := t]> (<[m' := ai]> array))
      | _, _ => shuffle_loop rnd m' array (* not reached: both are in range *)
      end
  end.

Definition shuffle {A} (rnd : nat -> nat) (array : list A) : M (list A) :=
  shuffle_loop rnd (length array) array.

(** ** Errors and results *)

Inductive error : Type :=
| NotEnoughSpaceError (size : option Z) (cause : string)
| StandaloneModeError.

(** What the callback of [choose] receives: [cb(err, null)] or
    [cb(null, sharks)]. *)
Inductive cb_result : Type :=
| CbErr (err : error)
| CbOk (sharks : list (list replica)).

Record choose_opts : Type := mkChooseOpts {
  opt_replicas : option Z;
  opt_size : option Z;
  opt_isOperator : option bool
}.

(** [Math.ceil(a / b)] on integers, [b] positive. *)
Definition ceil_div (a b : Z) : Z := - ((- a) / b).

(** [opts.replicas || DEF_NUM_COPIES] *)
Definition choose_replicas (opts : choose_opts) : Z :=
  js_or (opt_replicas opts) DEF_NUM_COPIES.

(** [Math.ceil((opts.size || 0) / 1048576) || this.defMaxSizeMB] *)
Definition choose_size (self : client) (opts : choose_opts) : option Z :=
  let mb := ceil_div (js_or (opt_size opts) 0) 1048576 in
  if decide (mb = 0) then defMaxSizeMB self else Some mb.

Definition choose_isOperator (opts : choose_opts) : bool :=
  match opt_isOperator opts with Some b => b | None => false end.

Definition choose_sharkMap (self : client) (opts : choose_opts)
  : option (gmap string (list shark)) :=
  if choose_isOperator opts then operatorDcSharkMap self else dcSharkMap self.

Definition choose_datacenters (self : client) (opts : choose_opts)
  : option (list string) :=
  if choose_isOperator opts then operatorDatacenters self
  else datacenters self.

(** [filterDatacenters(sharkMap, dc)], with the arrays [dcs] and [offsets]
    it pushes to passed along. *)
Definition filterDatacenters (sharkMap : option (gmap string (list shark)))
    (size : option Z) (acc : list string * list Z) (dc : string)
  : res (list string * list Z) :=
  match sharkMap with
  | None => Throw TypeError
  | Some m =>
      res_bind (lower_bound (m !! dc) size None None)
        (fun l =>
           if decide (l <> -1)
           then Ret (acc.1 ++ [dc], acc.2 ++ [l])
           else Ret acc)
  end.

Fixpoint forEach_filter (sharkMap : option (gmap string (list shark)))
    (size : option Z) (names : list string) (acc : list string * list Z)
  : res (list string * list Z) :=
  match names with
  | [] => Ret acc
  | dc :: names' =>
      res_bind (filterDatacenters sharkMap size acc dc)
        (forEach_filter sharkMap size names')
  end.

Definition cause_no_dc : string := "no DC with sufficient space".

Definition cause_too_few (replicas ndcs : Z) : string :=
  pretty replicas +:+ " copies requested, but only " +:+ pretty ndcs
    +:+ " DC(s) have sufficient space".

Definition cause_exceeds : string :=
  "copies requested exceeds number of available storage nodes".

Definition cause_spread : string := "insufficient number of DCs selected".

(** The [enoughDCs] test: [None] when it passes, the cause otherwise. *)
Definition not_enough_dcs (multi : bool) (replicas : Z) (dcs : list string)
  : option string :=
  let n := Z.of_nat (length dcs) in
  if decide (n = 0) then Some cause_no_dc
  else if decide (replicas > 1 /\ multi = true /\ n < 2)
       then Some (cause_too_few replicas n)
       else None.

Definition mapFun (s : replica) : string := r_datacenter s.

Definition reduceFun (last : list string) (now : string) : list string :=
  if decide (now ∈ last) then last else last ++ [now].

(** ** The closures of [choose] *)

(** The [do ... while] scan of [host]: [Ret None] is the [return (null)] of
    an exhausted datacenter, [Ret (Some s)] the index the loop stops at. *)
Fixpoint host_scan (fuel : nat) (dc : list shark) (offset start s : Z)
    (seen : list string) : res (option Z) :=
  match fuel with
  | O => Diverge
  | S fuel' =>
      let s := if decide (s + 1 = Z.of_nat (length dc)) then offset
               else s + 1 in
      if decide (s = start) then Ret None
      else
        match js_get dc s with
        | None => Throw TypeError
        | Some x =>
            if decide (manta_storage_id x ∈ seen)
            then host_scan fuel' dc offset start s seen
            else Ret (Some s)
        end
  end.

(** The part of [host] that works on one datacenter [dc] with its offset:
    a random start, then the scan over the sharks already seen. *)
Definition host_pick (rnd : nat -> nat) (dc : list shark) (offset : Z)
  : M (option replica) :=
  let* s := random rnd offset (Z.of_nat (length dc) - 1) None in
  match js_get dc s with
  | None => throw TypeError
  | Some x =>
      let* seen := get_seen in
      let* found :=
        (if decide (manta_storage_id x ∈ seen)
         then lift (host_scan (length dc) dc offset s s seen)
         else ret (Some s)) in
      match found with
      | None => ret None
      | Some s' =>
          match js_get dc s' with
          | None => throw TypeError
          | Some y =>
              let* _ := push_seen (manta_storage_id y) in
              ret (Some {| r_datacenter := datacenter y;
                           r_manta_storage_id := manta_storage_id y |})
          end
      end
  end.

Section closures.
Variable rnd : nat -> nat.
Variable sharkMap : option (gmap string (list shark)).
Variable dcs : list string.
Variable offsets : list Z.
Variable replicas : Z.
Variable size : option Z.
Variable multi : bool.

Definition host : M (option replica) :=
  let* ndx := next_dcIndex (Z.of_nat (length dcs)) in
  match sharkMap, js_get dcs ndx, js_get offsets ndx with
  | Some m, Some name, Some offset =>
      match m !! name with
      | Some dc => host_pick rnd dc offset
      | None => throw TypeError
      end
  | _, _, _ => throw TypeError
  end.

(** [for (j = 0; j < replicas; j++)], [n] iterations to go. *)
Fixpoint set_loop (n : nat) (s : list replica) : M (option (list replica)) :=
  match n with
  | O => ret (Some s)
  | S n' =>
      let* _s := host in
      match _s with
      | None => ret None
      | Some r => set_loop n' (s ++ [r])
      end
  end.

Definition set : M (option (list replica)) :=
  set_loop (Z.to_nat replicas) [].

(** [tuple.map(mapFun).reduce(reduceFun, [])] *)
Definition tuple_dcs (tuple : list replica) : list string :=
  foldl reduceFun [] (mapFun <$> tuple).

(** What one turn of [for (i = 0; i < 3; i++)] does with the tuple it
    built: fail the call, or go on with the new [sharks]. *)
Definition place_tuple (sharks : list (list replica))
    (tuple : option (list replica)) : error + list (list replica) :=
  let short :=
    match tuple with
    | None => true
    | Some t => bool_decide (Z.of_nat (length t) < replicas)
    end in
  if bool_decide (length sharks = 0%nat) && short
  then inl (NotEnoughSpaceError size cause_exceeds)
  else
    match tuple with
    | Some t =>
        if multi && bool_decide (replicas > 1)
                 && bool_decide (Z.of_nat (length (tuple_dcs t)) < 2)
        then inl (NotEnoughSpaceError size cause_spread)
        else inr (sharks ++ [t])
    | None => inr sharks
    end.

Fixpoint choose_loop (n : nat) (sharks : list (list replica)) : M cb_result :=
  match n with
  | O => ret (CbOk sharks)
  | S n' =>
      let* tuple := set in
      match place_tuple sharks tuple with
      | inl err => ret (CbErr err)
      | inr sharks' => choose_loop n' sharks'
      end
  end.
End closures.

(** The state a call starts its selection with: the cursor of the client,
    nothing seen. *)
Definition initial_state (self : client) : sel_state :=
  {| st_dcIndex := dcIndex self; st_seen := []; st_draws := 0 |}.

Definition store_dcIndex (self : client) (st : sel_state) : client :=
  {| standalone := standalone self;
     dcSharkMap := dcSharkMap self;
     operatorDcSharkMap := operatorDcSharkMap self;
     dcIndex := st_dcIndex st;
     multiDC := multiDC self;
     datacenters := datacenters self;
     operatorDatacenters := operatorDatacenters self;
     pollInterval := pollInterval self;
     defMaxSizeMB := defMaxSizeMB self;
     utilization := utilization self |}.

(** [dcs = shuffle(dcs)] followed by the three turns of the loop; [offsets]
    is left in the order [filterDatacenters] produced. *)
Definition choose_select (rnd : nat -> nat) (self : client)
    (opts : choose_opts) (dcs : list string) (offsets : list Z) : M cb_result :=
  let* dcs' := shuffle rnd dcs in
  choose_loop rnd (choose_sharkMap self opts) dcs' offsets
    (choose_replicas opts) (choose_size self opts) (multiDC self) 3 [].

(** [StorinfoClient.prototype.choose]: the result handed to the callback (or
    the exception), and the client with its cursor updated. *)
Definition choose (self : client) (opts : choose_opts) (rnd : nat -> nat)
  : res cb_result * client :=
  let replicas := choose_replicas opts in
  let size := choose_size self opts in
  match choose_datacenters self opts with
  | None => (Throw TypeError, self)
  | Some names =>
      match forEach_filter (choose_sharkMap self opts) size names ([], []) with
      | Throw e => (Throw e, self)
      | Diverge => (Diverge, self)
      | Ret (dcs, offsets) =>
          match not_enough_dcs (multiDC self) replicas dcs with
          | Some cause => (Ret (CbErr (NotEnoughSpaceError size cause)), self)
          | None =>
              let '(r, st) :=
                choose_select rnd self opts dcs offsets (initial_state self) in
              (r, store_dcIndex self st)
          end
      end
  end.

(** ** Vocabulary of the statements *)

(** [choose] from the state [st] on: the result with the cursor stored. *)
Definition finish (self : client) (run : res cb_result * sel_state)
  : res cb_result * client :=
  (run.1, store_dcIndex self run.2).

(** The node identifiers of a tuple, and of all tuples of a result. *)
Definition ids (tuple : list replica) : list string :=
  r_manta_storage_id <$> tuple.

(** A replica is the projection of a shark. *)
Definition replica_of (x : shark) : replica :=
  {| r_datacenter := datacenter x; r_manta_storage_id := manta_storage_id x |}.

(** A tuple spans two datacenters. *)
Definition spans_two (tuple : list replica) : Prop :=
  exists r1 r2, r1 ∈ tuple /\ r2 ∈ tuple /\ r_datacenter r1 <> r_datacenter r2.

(** One view of a topology as [sortAndStoreDcs] leaves it: the names are the
    keys of the map and every list is sorted. *)
Definition snapshot_ok (m : gmap string (list shark)) (names : list string)
  : Prop :=
  NoDup names /\
  (forall dc, dc ∈ names <-> is_Some (m !! dc)) /\
  (forall dc l, m !! dc = Some l -> sorted_by_capacity l).

(** A client with a topology installed, in both views. *)
Definition installed (self : client) : Prop :=
  exists m om ds ods,
    dcSharkMap self = Some m /\ operatorDcSharkMap self = Some om /\
    datacenters self = Some ds /\ operatorDatacenters self = Some ods /\
    snapshot_ok m ds /\ snapshot_ok om ods.

(** The datacenter [dc] of [m] has a shark with room for [sz] MB. *)
Definition qualifies (m : gmap string (list shark)) (sz : Z) (dc : string)
  : Prop :=
  match m !! dc with
  | Some l => Exists (fun x => availableMB x >= sz) l
  | None => False
  end.

Global Instance qualifies_dec m sz dc : Decision (qualifies m sz dc).
Proof. unfold qualifies. destruct (m !! dc); apply _. Defined.

(** The datacenters of the view [choose] selects that qualify. *)
Definition candidates (self : client) (opts : choose_opts) (sz : Z)
  : list string :=
  match choose_sharkMap self opts, choose_datacenters self opts with
  | Some m, Some names => filter (qualifies m sz) names
  | _, _ => []
  end.

(** Every datacenter of [dcs] stands at the index of its own offset. *)
Definition aligned (m : gmap string (list shark)) (sz : Z)
    (dcs : list string) (offsets : list Z) : Prop :=
  Forall2 (fun dc off => lower_bound (m !! dc) (Some sz) None None = Ret off)
    dcs offsets.

(** [choose] passed the [enoughDCs] test with the arrays [dcs0] and
    [offsets], and shuffled [dcs0] into [dcs], reaching the state [st0]. *)
Definition prepared (rnd : nat -> nat) (self : client) (opts : choose_opts)
    (dcs0 dcs : list string) (offsets : list Z) (st0 : sel_state) : Prop :=
  exists names,
    choose_datacenters self opts = Some names /\
    forEach_filter (choose_sharkMap self opts) (choose_size self opts) names
      ([], []) = Ret (dcs0, offsets) /\
    not_enough_dcs (multiDC self) (choose_replicas opts) dcs0 = None /\
    shuffle rnd dcs0 (initial_state self) = (Ret dcs, st0).

(** The closures as [choose self opts] instantiates them. *)
Definition set_of (rnd : nat -> nat) (self : client) (opts : choose_opts)
    (dcs : list string) (offsets : list Z) : M (option (list replica)) :=
  set rnd (choose_sharkMap self opts) dcs offsets (choose_replicas opts).

Definition place_of (self : client) (opts : choose_opts)
    (sharks : list (list replica)) (tuple : option (list replica))
  : error + list (list replica) :=
  place_tuple (choose_replicas opts) (choose_size self opts) (multiDC self)
    sharks tuple.

Definition loop_of (rnd : nat -> nat) (self : client) (opts : choose_opts)
    (dcs : list string) (offsets : list Z) (n : nat)
    (sharks : list (list replica)) : M cb_result :=
  choose_loop rnd (choose_sharkMap self opts) dcs offsets
    (choose_replicas opts) (choose_size self opts) (multiDC self) n sharks.

(** The states the [for] loop of a call goes through: [loop_at ... n sharks
    st] says the loop has [n] turns to go, has collected [sharks], and is in
    state [st]. *)
Inductive loop_at (rnd : nat -> nat) (self : client) (opts : choose_opts)
    (dcs : list string) (offsets : list Z)
  : nat -> list (list replica) -> sel_state -> Prop :=
| loop_start dcs0 st0 :
    prepared rnd self opts dcs0 dcs offsets st0 ->
    loop_at rnd self opts dcs offsets 3 [] st0
| loop_next n sharks st tuple st' sharks' :
    loop_at rnd self opts dcs offsets (S n) sharks st ->
    set_of rnd self opts dcs offsets st = (Ret tuple, st') ->
    place_of self opts sharks tuple = inr sharks' ->
    loop_at rnd self opts dcs offsets n sharks' st'.

(** Below [r] no shark has room, from [r] on every shark has. *)
Definition splits (set : list shark) (size r : Z) : Prop :=
  (forall j y, js_get set j = Some y -> j < r -> availableMB y < size) /\
  (forall j y, js_get set j = Some y -> r <= j -> availableMB y >= size).

(** The state after one call of [Math.random()]. *)
Definition after_draw (st : sel_state) : sel_state :=
  {| st_dcIndex := st_dcIndex st; st_seen := st_seen st;
     st_draws := S (st_draws st) |}.

(** The indices the scan has been through when it stands at [s], having
    started at [start]: from [start] up to [s], around the end of the list
    when [s] is below [start]. *)
Definition scanned (start s i : Z) : Prop :=
  (start <= s /\ start <= i <= s) \/ (s < start /\ (start <= i \/ i <= s)).

(** A replica that stands for a shark of the map [m] with room for [sz]. *)
Definition from_snapshot (m : gmap string (list shark)) (sz : Z)
    (h : replica) : Prop :=
  exists dc l x,
    m !! dc = Some l /\ x ∈ l /\ h = replica_of x /\ availableMB x >= sz.

(** ** Fixtures *)

(** The options of the client of [test/storinfo.test.js]. *)
Definition standalone_opts : client_opts :=
  {| o_pollInterval := None; o_multiDC := None;
     o_defaultMaxStreamingSizeMB := Some 5120;
     o_maxUtilizationPct := Some 90; o_standalone := true |}.

(** A client that polls, with the defaults. *)
Definition polling_opts : client_opts :=
  {| o_pollInterval := Some 30; o_multiDC := None;
     o_defaultMaxStreamingSizeMB := None;
     o_maxUtilizationPct := None; o_standalone := false |}.

Definition shark_a : shark := mkShark "a" "dc1" 10.
Definition shark_b : shark := mkShark "b" "dc2" 10.
Definition shark_c : shark := mkShark "c" "dc1" 3.
Definition shark_d : shark := mkShark "d" "dc2" 20.
Definition shark_e : shark := mkShark "e" "dc2" 30.

(** [{dc1: [a], dc2: [b]}] *)
Definition two_dcs : gmap string (list shark) :=
  <["dc1" := [shark_a]]> (<["dc2" := [shark_b]]> ∅).

(** [{dc1: [a]}] *)
Definition one_dc : gmap string (list shark) := <["dc1" := [shark_a]]> ∅.

Definition two_dc_client : client :=
  sortAndStoreDcs (StorinfoClient polling_opts) two_dcs two_dcs.

Definition one_dc_client : client :=
  sortAndStoreDcs (StorinfoClient polling_opts) one_dc one_dc.

(** [n] megabytes in bytes, the unit of [opts.size]. *)
Definition mb (n : Z) : Z := n * 1048576.

Definition request (replicas size_mb : Z) : choose_opts :=
  {| opt_replicas := Some replicas; opt_size := Some (mb size_mb);
     opt_isOperator := None |}.

Definition no_opts : choose_opts :=
  {| opt_replicas := None; opt_size := None; opt_isOperator := None |}.

(** An entropy source: every draw is 0. *)
Definition zeros : nat -> nat := fun _ => 0%nat.

Definition shark_x1 : shark := mkShark "x1" "dc1" 50.
Definition shark_x2 : shark := mkShark "x2" "dc1" 60.
Definition shark_x3 : shark := mkShark "x3" "dc1" 70.
Definition shark_y1 : shark := mkShark "y1" "dc2" 5.
Definition shark_y2 : shark := mkShark "y2" "dc2" 8.
Definition shark_y3 : shark := mkShark "y3" "dc2" 30.

(** [{dc1: [x1, x2, x3], dc2: [y1, y2, y3]}]: for 20 MB the offset of dc1 is
    0 and the offset of dc2 is 2. *)
Definition skewed_dcs : gmap string (list shark) :=
  <["dc1" := [shark_x1; shark_x2; shark_x3]]>
    (<["dc2" := [shark_y1; shark_y2; shark_y3]]> ∅).

(** The same with dc1 one shark shorter. *)
Definition short_dcs : gmap string (list shark) :=
  <["dc1" := [shark_x1; shark_x2]]>
    (<["dc2" := [shark_y1; shark_y2; shark_y3]]> ∅).

Definition skewed_client : client :=
  sortAndStoreDcs (StorinfoClient polling_opts) skewed_dcs skewed_dcs.

Definition short_client : client :=
  sortAndStoreDcs (StorinfoClient polling_opts) short_dcs short_dcs.

(** Another one: every draw is 1, which leaves two datacenters in place. *)
Definition ones : nat -> nat := fun _ => 1%nat.

(** ** Polling: the views built from the records of a poll *)

(** A record of the [/poll] answer: the fields of a shark and its
    utilization. *)
Record storage_row : Type := mkRow {
  row_shark : shark;
  percentUsed : Z
}.

(** The names a plain object inherits from [Object.prototype].  For an
    object without such a property of its own, [obj[k]] is a function under
    each of them, and the prototype itself under [__proto__]: a truthy value
    that has no [push]. *)
Definition object_prototype_names : list string :=
  ["constructor"; "__defineGetter__"; "__defineSetter__"; "hasOwnProperty";
   "__lookupGetter__"; "__lookupSetter__"; "isPrototypeOf";
   "propertyIsEnumerable"; "toString"; "valueOf"; "__proto__";
   "toLocaleString"].

(** [if (!obj[k]) obj[k] = []; obj[k].push(v)] on a plain object.  A list
    of the object's own is pushed to.  Without one, an inherited name is
    found in its place: the initialisation is skipped and the call of
    [push] throws; any other name gets a fresh list. *)
Definition push_at (obj : gmap string (list shark)) (k : string) (v : shark)
  : res (gmap string (list shark)) :=
  match obj !! k with
  | Some l => Ret (<[k := l ++ [v]]> obj)
  | None =>
      if decide (k ∈ object_prototype_names) then Throw TypeError
      else Ret (<[k := [v]]> obj)
  end.

(** [v.percentUsed <= maxUtilization]; the comparison with [undefined] is
    false. *)
Definition within_utilization (maxUtilization : option Z) (v : storage_row)
  : bool :=
  match maxUtilization with
  | Some u => bool_decide (percentUsed v <= u)
  | None => false
  end.

(** [sortByDatacenter(maxUtilization, v)], on the pair [(dcObj, opDcObj)] of
    the enclosing callback: the operator's object first, then the normal
    one. *)
Definition sortByDatacenter (maxUtilization : option Z)
    (acc : gmap string (list shark) * gmap string (list shark))
    (v : storage_row)
  : res (gmap string (list shark) * gmap string (list shark)) :=
  res_bind (push_at acc.2 (datacenter (row_shark v)) (row_shark v))
    (fun opDcObj =>
       if within_utilization maxUtilization v
       then res_bind (push_at acc.1 (datacenter (row_shark v)) (row_shark v))
              (fun dcObj => Ret (dcObj, opDcObj))
       else Ret (acc.1, opDcObj)).

(** [res.forEach(sortByDatacenter.bind(self, self.utilization))]: an
    exception ends the loop. *)
Fixpoint forEach_sortByDatacenter (maxUtilization : option Z)
    (rows : list storage_row)
    (acc : gmap string (list shark) * gmap string (list shark))
  : res (gmap string (list shark) * gmap string (list shark)) :=
  match rows with
  | [] => Ret acc
  | v :: rows' =>
      res_bind (sortByDatacenter maxUtilization acc v)
        (forEach_sortByDatacenter maxUtilization rows')
  end.

(** The two objects after the loop, from two empty ones. *)
Definition poll_views (maxUtilization : option Z) (rows : list storage_row)
  : res (gmap string (list shark) * gmap string (list shark)) :=
  forEach_sortByDatacenter maxUtilization rows (∅, ∅).

(** The successful branch of the callback of [doPoll]: the views are built
    and handed to [sortAndStoreDcs]; when building them throws, nothing is
    installed. *)
Definition doPoll_install (self : client) (rows : list storage_row)
  : res client :=
  res_bind (poll_views (utilization self) rows)
    (fun views => Ret (sortAndStoreDcs self views.1 views.2)).

(** The sharks of a poll that carry [dc] as their datacenter, in the order
    of the answer; and those of them within the utilization limit. *)
Definition rows_of (dc : string) (res : list storage_row) : list shark :=
  row_shark <$> filter (fun v => datacenter (row_shark v) = dc) res.

Definition rows_within (maxUtilization : option Z) (dc : string)
    (res : list storage_row) : list shark :=
  row_shark <$>
    filter (fun v => datacenter (row_shark v) = dc /\
                     within_utilization maxUtilization v = true) res.

(** Every shark of the map is filed under its own datacenter. *)
Definition keyed (m : gmap string (list shark)) : Prop :=
  forall dc l x, m !! dc = Some l -> x ∈ l -> datacenter x = dc.

(** The clients the code can produce: a new one, one with a topology
    installed, one after a call of [choose]. *)
Inductive reachable : client -> Prop :=
| reach_new copts : reachable (StorinfoClient copts)
| reach_install self dcObj opDcObj :
    reachable self -> reachable (sortAndStoreDcs self dcObj opDcObj)
| reach_choose self opts rnd :
    reachable self -> reachable (choose self opts rnd).2.

(** The client with another [multiDC] flag. *)
Definition with_multiDC (self : client) (b : bool) : client :=
  {| standalone := standalone self;
     dcSharkMap := dcSharkMap self;
     operatorDcSharkMap := operatorDcSharkMap self;
     dcIndex := dcIndex self;
     multiDC := b;
     datacenters := datacenters self;
     operatorDatacenters := operatorDatacenters self;
     pollInterval := pollInterval self;
     defMaxSizeMB := defMaxSizeMB self;
     utilization := utilization self |}.

(** ** Polling: the [after_id] of a link header *)

(** [s.split(sep)] for a separator of one character. *)
Fixpoint js_split (sep : Ascii.ascii) (s : string) : list string :=
  match s with
  | EmptyString => [EmptyString]
  | String c s' =>
      if decide (c = sep) then EmptyString :: js_split sep s'
      else
        match js_split sep s' with
        | p :: ps => String c p :: ps
        | [] => [String c EmptyString] (* not reached: a split is not empty *)
        end
  end.

(** [link.split('=')[1].split('&')[0]] *)
Definition after_id_of_link (link : string) : res string :=
  match js_split "="%char link with
  | _ :: p :: _ =>
      match js_split "&"%char p with
      | q :: _ => Ret q
      | [] => Throw TypeError (* not reached *)
      end
  | _ => Throw TypeError
  end.

(** The character [c] occurs in [s]. *)
Fixpoint occurs (c : Ascii.ascii) (s : string) : Prop :=
  match s with
  | EmptyString => False
  | String c' s' => c' = c \/ occurs c s'
  end.

(** The cursor stays where it is or becomes an index below [len]. *)
Definition moved (len i i' : Z) : Prop := i' = i \/ 0 <= i' < len.

(** A replica that stands for a shark filed under a name of [dcs]. *)
Definition drawn_from (m : gmap string (list shark)) (dcs : list string)
    (h : replica) : Prop :=
  exists dc l x, dc ∈ dcs /\ m !! dc = Some l /\ x ∈ l /\ h = replica_of x.

(** The array [l] holds at least [k] sharks with room for [sz] whose ids are
    pairwise distinct. *)
Definition roomy (l : list shark) (sz : Z) (k : nat) : Prop :=
  exists ids : list string,
    NoDup ids /\ length ids = k /\
    forall id, id ∈ ids ->
      exists x, x ∈ l /\ manta_storage_id x = id /\ availableMB x >= sz.

(** A wider one: six sharks with room for 20 MB in each of two datacenters,
    and one without in the second. *)
Definition wide_dc1 : list shark :=
  [mkShark "w1" "dc1" 40; mkShark "w2" "dc1" 50; mkShark "w3" "dc1" 60;
   mkShark "w4" "dc1" 70; mkShark "w5" "dc1" 80; mkShark "w6" "dc1" 90].

Definition wide_dc2 : list shark :=
  [mkShark "v0" "dc2" 10; mkShark "v1" "dc2" 25; mkShark "v2" "dc2" 35;
   mkShark "v3" "dc2" 45; mkShark "v4" "dc2" 55; mkShark "v5" "dc2" 65;
   mkShark "v6" "dc2" 75].

Definition wide_dcs : gmap string (list shark) :=
  <["dc1" := wide_dc1]> (<["dc2" := wide_dc2]> ∅).

Definition wide_client : client :=
  sortAndStoreDcs (StorinfoClient polling_opts) wide_dcs wide_dcs.

(** The answer of a poll: two sharks per datacenter, one of each beyond the
    default utilization limit of 90 percent. *)
Definition poll_rows : list storage_row :=
  [mkRow (mkShark "p1" "dc1" 100) 10; mkRow (mkShark "p2" "dc1" 900) 95;
   mkRow (mkShark "q1" "dc2" 200) 20; mkRow (mkShark "q2" "dc2" 800) 99].

(** ** Polling the service *)

(** An error handed to the callback of [poll]: one of this module, or the
    [err] of the HTTP client. *)
Inductive poll_error : Type :=
| ClientError (e : error)
| HttpError (message : string).

(** What the handler passed to [http.get] receives: [err]; the [link] header
    of [res], [None] when [res] has no [headers] to read; and [obj] when it
    is an array. *)
Record http_answer : Type := mkAnswer {
  ans_err : option string;
  ans_headers : option (option string);
  ans_obj : option (list storage_row)
}.

Record uri_params : Type := mkParams {
  after_id : option string;
  limit : option Z
}.

(** The [args] object of [poll], shared by the calls of one poll. *)
Record poll_args : Type := mkArgs {
  uriParams : option uri_params;
  args_res : option (list storage_row)
}.

(** One call [callback(res, err)] of the caller's callback. *)
Record poll_call : Type := mkCall {
  call_res : option (list storage_row);
  call_err : option poll_error
}.

(** A callback, by the calls of the caller's callback it leads to; it may
    read [args] as it is when called. *)
Definition poll_callback : Type :=
  option (list storage_row) -> option poll_error -> poll_args ->
  list poll_call.

(** The callback of the caller. *)
Definition report : poll_callback := fun r e _ => [mkCall r e].

(** [function (r, e) { callback(args.res, e); }] *)
Definition relay (callback : poll_callback) : poll_callback :=
  fun _ e args => callback (args_res args) e args.

(** [if (args.res === undefined) args.res = []] *)
Definition init_res (args : poll_args) : poll_args :=
  match args_res args with
  | Some _ => args
  | None => {| uriParams := uriParams args; args_res := Some [] |}
  end.

(** [Array.prototype.push.apply(args.res, obj)] *)
Definition push_rows (args : poll_args) (obj : option (list storage_row))
  : poll_args :=
  {| uriParams := uriParams args;
     args_res := Some (default [] (args_res args) ++ default [] obj) |}.

(** [args.uriParams.after_id = id] *)
Definition set_after_id (p : uri_params) (args : poll_args) (id : string)
  : poll_args :=
  {| uriParams := Some {| after_id := Some id; limit := limit p |};
     args_res := args_res args |}.

Section polling.
(** [uri.buildQuery] of urijs, and the service: the answer to the request
    number [k] of a poll for a path. *)
Variable buildQuery : option uri_params -> string.
Variable http_get : nat -> string -> http_answer.

(** [StorinfoClient.prototype.poll]: the calls of the caller's callback in
    order, and the [args] at the end.  The fuel bounds the number of
    requests. *)
Fixpoint poll (fuel : nat) (self : client) (k : nat) (args : poll_args)
    (callback : poll_callback) : list poll_call * res poll_args :=
  match fuel with
  | O => ([], Diverge)
  | S fuel' =>
      if standalone self then
        (* [callback(null, standErr)], then [this.http] is undefined *)
        (callback None (Some (ClientError StandaloneModeError)) args,
         Throw TypeError)
      else
        let query := buildQuery (uriParams args) in
        let args1 := init_res args in
        let a := http_get k ("/poll?" +:+ query) in
        let early :=
          match ans_err a with
          | Some e => callback None (Some (HttpError e)) args1
          | None => []
          end in
        let args2 := push_rows args1 (ans_obj a) in
        match ans_headers a with
        | None => (early, Throw TypeError)
        | Some (Some link) =>
            match uriParams args2, after_id_of_link link with
            | Some p, Ret id =>
                let run :=
                  poll fuel' self (S k) (set_after_id p args2 id)
                    (relay callback) in
                (early ++ run.1, run.2)
            | _, _ => (early, Throw TypeError)
            end
        | Some None =>
            (early ++ callback (args_res args2) (HttpError <$> ans_err a)
                        args2,
             Ret args2)
        end
  end.
End polling.

(** The [args] of [doPoll]: [{}]. *)
Definition doPoll_args : poll_args :=
  {| uriParams := None; args_res := None |}.

(** The rows of the pages [0 .. n]. *)
Definition pages_upto (pages : nat -> list storage_row) (n : nat)
  : list storage_row :=
  concat (pages <$> seq 0 (S n)).

(** A service with two pages, the first of which links to the second. *)
Definition two_pages (k : nat) (path : string) : http_answer :=
  match k with
  | O => {| ans_err := None;
            ans_headers := Some (Some "</poll?after_id=p2&limit=2>; rel=next");
            ans_obj := Some (take 2 poll_rows) |}
  | _ => {| ans_err := None; ans_headers := Some None;
            ans_obj := Some (drop 2 poll_rows) |}
  end.

(** A callback that hands on what it is given in one call of the caller's
    callback, and hands on [args.res] as it is. *)
Definition relays (callback : poll_callback) : Prop :=
  forall r e args,
    exists r', callback r e args = [mkCall r' e] /\
               (r = args_res args -> r' = r).

(** A pair of objects that hold no list under an inherited name. *)
Definition own_clean
    (acc : gmap string (list shark) * gmap string (list shark)) : Prop :=
  forall k, k ∈ object_prototype_names ->
            acc.1 !! k = None /\ acc.2 !! k = None.

(** A service whose first page links to a second request, which fails. *)
Definition page_then_error (k : nat) (path : string) : http_answer :=
  match k with
  | O => {| ans_err := None;
            ans_headers := Some (Some "</poll?after_id=p2&limit=2>; rel=next");
            ans_obj := Some (take 2 poll_rows) |}
  | _ => {| ans_err := Some "InternalError"; ans_headers := Some None;
            ans_obj := None |}
  end.

(** * Properties *)

(** ** Array reads *)

Lemma js_get_Some {A} (arr : list A) (i : Z) (x : A) :
  js_get arr i = Some x <-> 0 <= i /\ arr !! Z.to_nat i = Some x.
Proof.
  unfold js_get. case_decide; [tauto|]. split; [done|]. intros [? _]; lia.
Qed.

Lemma js_get_nat {A} (arr : list A) (i : nat) :
  js_get arr (Z.of_nat i) = arr !! i.
Proof. unfold js_get. case_decide; [|lia]. by rewrite Nat2Z.id. Qed.

Lemma js_get_in_range {A} (arr : list A) (i : Z) :
  0 <= i < Z.of_nat (length arr) -> exists x, js_get arr i = Some x.
Proof.
  intros Hi. destruct (lookup_lt_is_Some_2 arr (Z.to_nat i)) as [x Hx]; [lia|].
  exists x. apply js_get_Some. split; [lia|done].
Qed.

Lemma js_get_bound {A} (arr : list A) (i : Z) (x : A) :
  js_get arr i = Some x -> 0 <= i < Z.of_nat (length arr).
Proof.
  intros [? Hx]%js_get_Some. apply lookup_lt_Some in Hx. lia.
Qed.

Lemma js_get_elem_of {A} (arr : list A) (i : Z) (x : A) :
  js_get arr i = Some x -> x ∈ arr.
Proof. intros [_ Hx]%js_get_Some. by eapply list_elem_of_lookup_2. Qed.

Lemma js_get_past_end {A} (arr : list A) :
  js_get arr (Z.of_nat (length arr)) = None.
Proof. rewrite js_get_nat. by apply lookup_ge_None. Qed.

(** ** Sorted lists *)

Global Instance capacity_le_trans : Transitive capacity_le.
Proof. intros a b c. unfold capacity_le. lia. Qed.

Lemma sorted_lookup_le (l : list shark) :
  sorted_by_capacity l ->
  forall (i j : nat) x y,
    (i <= j)%nat -> l !! i = Some x -> l !! j = Some y ->
    availableMB x <= availableMB y.
Proof.
  intros Hs%Sorted_StronglySorted; [|apply _].
  induction Hs as [|a l Hl IH Ha]; intros i j x y Hij Hi Hj; [done|].
  destruct i as [|i], j as [|j]; simplify_eq/=; try lia.
  - rewrite Forall_forall in Ha. apply (Ha y). by eapply list_elem_of_lookup_2.
  - eapply IH; [|done..]. lia.
Qed.

Lemma sorted_js_get_le (l : list shark) (i j : Z) x y :
  sorted_by_capacity l -> i <= j ->
  js_get l i = Some x -> js_get l j = Some y ->
  availableMB x <= availableMB y.
Proof.
  intros Hs Hij [? Hx]%js_get_Some [? Hy]%js_get_Some.
  eapply (sorted_lookup_le l Hs (Z.to_nat i) (Z.to_nat j)); [lia|done..].
Qed.

(** ** [lower_bound] *)

(** The fuel [lower_bound] gives its loop is enough on any list, sorted or
    not: the loop returns or throws. *)
Lemma lower_bound_loop_fuel (fuel : nat) (set : list shark) (size low high : Z) :
  (Z.to_nat (high - low) < fuel)%nat ->
  lower_bound_loop fuel set size low high <> Diverge.
Proof.
  revert low high. induction fuel as [|fuel IH]; intros low high Hfuel; [lia|].
  simpl. case_decide as Hlt; [|done].
  assert (Hmid : low <= low + (high - low) / 2 < high).
  { pose proof (Z.div_pos (high - low) 2).
    pose proof (Z.div_lt_upper_bound (high - low) 2 (high - low)). lia. }
  destruct (js_get set (low + (high - low) / 2)) as [x|]; [|done].
  case_decide; apply IH; lia.
Qed.

Lemma lower_bound_loop_splits (fuel : nat) (set : list shark) (size low high : Z) :
  sorted_by_capacity set ->
  0 <= low <= high -> high <= Z.of_nat (length set) ->
  (Z.to_nat (high - low) < fuel)%nat ->
  (forall j y, js_get set j = Some y -> j < low -> availableMB y < size) ->
  (forall j y, js_get set j = Some y -> high <= j -> availableMB y >= size) ->
  exists r, lower_bound_loop fuel set size low high = Ret r /\
            low <= r <= high /\ splits set size r.
Proof.
  intros Hs. revert low high.
  induction fuel as [|fuel IH]; intros low high Hlo Hhi Hfuel Hbelow Habove; [lia|].
  simpl. case_decide as Hlt.
  - assert (Hmid : low <= low + (high - low) / 2 < high).
    { pose proof (Z.div_pos (high - low) 2).
      pose proof (Z.div_lt_upper_bound (high - low) 2 (high - low)). lia. }
    set (mid := low + (high - low) / 2) in *.
    destruct (js_get_in_range set mid) as [x Hx]; [lia|]. rewrite Hx.
    case_decide as Hge.
    + destruct (IH low mid) as (r & Hr & Hrange & Hsplit); try lia; [done| |].
      * intros j y Hy Hj.
        pose proof (sorted_js_get_le set mid j x y Hs Hj Hx Hy). lia.
      * exists r. split; [done|]. split; [lia|done].
    + destruct (IH (mid + 1) high) as (r & Hr & Hrange & Hsplit); try lia; [|done|].
      * intros j y Hy Hj.
        assert (j <= mid) as Hjm by lia.
        pose proof (sorted_js_get_le set j mid y x Hs Hjm Hy Hx). lia.
      * exists r. split; [done|]. split; [lia|done].
  - exists low. split; [done|]. split; [lia|]. split; [done|].
    intros j y Hy Hj. apply (Habove j y Hy). lia.
Qed.

(** The call [lower_bound(set, size)] of [choose]. *)
Lemma lower_bound_call (set : list shark) (size : Z) :
  sorted_by_capacity set ->
  exists r, lower_bound (Some set) (Some size) None None = Ret r /\
    ((r = -1 /\ Forall (fun y => availableMB y < size) set) \/
     (0 <= r < Z.of_nat (length set) /\ splits set size r)).
Proof.
  intros Hs. unfold lower_bound. cbn [js_or].
  destruct (lower_bound_loop_splits
              (S (Z.to_nat (Z.of_nat (length set) - 0))) set size 0
              (Z.of_nat (length set)) Hs) as (r & Hr & Hrange & Hbelow & Habove).
  - lia.
  - lia.
  - lia.
  - intros j y Hy%js_get_bound ?. lia.
  - intros j y Hy%js_get_bound ?. lia.
  - rewrite Hr. cbn [res_bind].
    destruct (js_get set r) as [x|] eqn:Hx.
    + pose proof (js_get_bound _ _ _ Hx).
      pose proof (Habove r x Hx). case_decide; [lia|].
      exists r. split; [done|]. right. split; [lia|]. split; done.
    + exists (-1). split; [done|]. left. split; [done|].
      apply Forall_forall. intros y [j Hj]%list_elem_of_lookup_1.
      apply (Hbelow (Z.of_nat j) y); [by rewrite js_get_nat|].
      apply lookup_lt_Some in Hj.
      destruct (decide (r < Z.of_nat (length set))); [|lia].
      destruct (js_get_in_range set r) as [? ?]; [lia|congruence].
Qed.

Ltac solve_sorted :=
  unfold sorted_by_capacity;
  repeat (constructor; unfold capacity_le; simpl; try lia).

(** C4.  On a list sorted ascending by capacity [lower_bound(set, size)]
    returns the smallest index whose shark has [availableMB >= size], and
    [-1] when there is none.  In particular the empty list gives [-1], a
    single shark of exactly the requested size gives [0], a size above every
    shark gives [-1], and a list whose sharks all qualify gives [0]. *)
Theorem lower_bound_smallest_qualifying (set : list shark) (size : Z) :
  sorted_by_capacity set ->
  (exists r, lower_bound (Some set) (Some size) None None = Ret r /\
     ((r = -1 /\ forall y, y ∈ set -> availableMB y < size) \/
      (exists x, js_get set r = Some x /\ availableMB x >= size /\
         forall j y, js_get set j = Some y -> j < r -> availableMB y < size)))
  /\ lower_bound (Some []) (Some size) None None = Ret (-1)
  /\ (forall x, availableMB x = size ->
        lower_bound (Some [x]) (Some size) None None = Ret 0)
  /\ ((forall y, y ∈ set -> availableMB y < size) ->
        lower_bound (Some set) (Some size) None None = Ret (-1))
  /\ (set <> [] -> (forall y, y ∈ set -> availableMB y >= size) ->
        lower_bound (Some set) (Some size) None None = Ret 0).
Proof.
  intros Hs.
  destruct (lower_bound_call set size Hs) as (r & Hr & Hcases).
  split; [|split; [|split; [|split]]].
  - exists r. split; [done|].
    destruct Hcases as [[-> Hall]|[Hrange [Hbelow Habove]]].
    + left. split; [done|]. by apply Forall_forall.
    + right. destruct (js_get_in_range set r Hrange) as [x Hx].
      exists x. split; [done|]. split; [|done]. apply (Habove r x Hx). lia.
  - done.
  - intros x Hx. unfold lower_bound, js_get. simpl.
    repeat (case_decide; simpl; try lia); try done.
  - intros Hall. rewrite Hr. f_equal.
    destruct Hcases as [[-> _]|[Hrange [_ Habove]]]; [done|].
    destruct (js_get_in_range set r Hrange) as [x Hx].
    pose proof (Habove r x Hx ltac:(lia)).
    pose proof (Hall x (js_get_elem_of _ _ _ Hx)). lia.
  - intros Hne Hall. rewrite Hr. f_equal.
    destruct Hcases as [[-> Hnone]|[Hrange [Hbelow _]]].
    + destruct set as [|x set']; [done|].
      apply Forall_cons in Hnone as [Hx _].
      pose proof (Hall x ltac:(left)). lia.
    + destruct (decide (r = 0)) as [|Hr0]; [done|].
      destruct (js_get_in_range set 0) as [x Hx]; [lia|].
      pose proof (Hbelow 0 x Hx ltac:(lia)).
      pose proof (Hall x (js_get_elem_of _ _ _ Hx)). lia.
Qed.

Lemma lower_bound_smallest_qualifying_witness :
  sorted_by_capacity [shark_c; shark_a; shark_d] /\
  exists r, lower_bound (Some [shark_c; shark_a; shark_d]) (Some 10) None None
            = Ret r.
Proof.
  assert (Hs : sorted_by_capacity [shark_c; shark_a; shark_d]) by solve_sorted.
  split; [exact Hs|].
  destruct (lower_bound_smallest_qualifying _ 10 Hs) as [(r & Hr & _) _].
  by exists r.
Defined.

(** ** Installing a topology *)

Lemma storageZoneComparator_le (a b : shark) :
  cmp_le storageZoneComparator a b <-> capacity_le a b.
Proof.
  unfold cmp_le, storageZoneComparator, capacity_le.
  repeat case_decide; lia.
Qed.

Global Instance storageZoneComparator_total :
  Total (cmp_le storageZoneComparator).
Proof.
  intros a b. rewrite !storageZoneComparator_le. unfold capacity_le. lia.
Qed.

Lemma array_sort_sorted (arr : list shark) :
  sorted_by_capacity (array_sort storageZoneComparator arr).
Proof.
  unfold sorted_by_capacity, array_sort.
  pose proof (Sorted_merge_sort (cmp_le storageZoneComparator) arr) as Hs.
  induction Hs as [|x l Hl IH Hhd]; constructor; [done|].
  destruct Hhd; constructor. by apply storageZoneComparator_le.
Qed.

Lemma array_sort_perm cmp (arr : list shark) : array_sort cmp arr ≡ₚ arr.
Proof. apply merge_sort_Permutation. Qed.

Lemma object_keys_NoDup {V} (obj : gmap string V) : NoDup (object_keys obj).
Proof. apply NoDup_fst_map_to_list. Qed.

Lemma elem_of_object_keys {V} (obj : gmap string V) (k : string) :
  k ∈ object_keys obj <-> is_Some (obj !! k).
Proof.
  unfold object_keys. rewrite list_elem_of_fmap. split.
  - intros ([k' v] & -> & Hkv%elem_of_map_to_list). by exists v.
  - intros [v Hv]. exists (k, v). split; [done|]. by apply elem_of_map_to_list.
Qed.

Lemma stored_keys (names : list string) :
  (if decide (Z.of_nat (length names) > 0) then names else []) = names.
Proof. destruct names; [done|]. rewrite decide_True; [done|]. simpl. lia. Qed.

Lemma sorted_view_ok (obj : gmap string (list shark)) :
  snapshot_ok (array_sort storageZoneComparator <$> obj) (object_keys obj).
Proof.
  split; [apply object_keys_NoDup|]. split.
  - intros dc. rewrite elem_of_object_keys, lookup_fmap.
    by rewrite fmap_is_Some.
  - intros dc l. rewrite lookup_fmap.
    destruct (obj !! dc) as [l0|]; [|done]. intros [= <-].
    apply array_sort_sorted.
Qed.

Lemma sortAndStoreDcs_installed (self : client)
    (dcObj opDcObj : gmap string (list shark)) :
  installed (sortAndStoreDcs self dcObj opDcObj).
Proof.
  exists (array_sort storageZoneComparator <$> dcObj),
         (array_sort storageZoneComparator <$> opDcObj),
         (object_keys dcObj), (object_keys opDcObj).
  unfold sortAndStoreDcs. cbn. rewrite !stored_keys.
  repeat split; try done; apply sorted_view_ok.
Qed.

(** C10.  After [sortAndStoreDcs] the topology given is the one installed:
    the normal and the operator shark map have the datacenters of the
    objects given, and under each the sharks given for it, sorted ascending
    by [availableMB]; and each stored array of datacenter names lists the
    keys of its map, each once. *)
Theorem sortAndStoreDcs_sorts_and_stores (self : client)
    (dcObj opDcObj : gmap string (list shark)) :
  exists m om ds ods,
    dcSharkMap (sortAndStoreDcs self dcObj opDcObj) = Some m /\
    operatorDcSharkMap (sortAndStoreDcs self dcObj opDcObj) = Some om /\
    datacenters (sortAndStoreDcs self dcObj opDcObj) = Some ds /\
    operatorDatacenters (sortAndStoreDcs self dcObj opDcObj) = Some ods /\
    dom m = dom dcObj /\ dom om = dom opDcObj /\
    (forall dc l0, dcObj !! dc = Some l0 ->
       exists l, m !! dc = Some l /\ l ≡ₚ l0 /\ sorted_by_capacity l) /\
    (forall dc l0, opDcObj !! dc = Some l0 ->
       exists l, om !! dc = Some l /\ l ≡ₚ l0 /\ sorted_by_capacity l) /\
    (forall dc l, m !! dc = Some l ->
       sorted_by_capacity l /\ exists l0, dcObj !! dc = Some l0 /\ l ≡ₚ l0) /\
    (forall dc l, om !! dc = Some l ->
       sorted_by_capacity l /\ exists l0, opDcObj !! dc = Some l0 /\ l ≡ₚ l0) /\
    NoDup ds /\ list_to_set ds =@{gset string} dom m /\
    NoDup ods /\ list_to_set ods =@{gset string} dom om.
Proof.
  exists (array_sort storageZoneComparator <$> dcObj),
         (array_sort storageZoneComparator <$> opDcObj),
         (object_keys dcObj), (object_keys opDcObj).
  unfold sortAndStoreDcs. cbn. rewrite !stored_keys.
  assert (Hgiven : forall (obj : gmap string (list shark)) dc l0,
            obj !! dc = Some l0 ->
            exists l, (array_sort storageZoneComparator <$> obj) !! dc = Some l
                      /\ l ≡ₚ l0 /\ sorted_by_capacity l).
  { intros obj dc l0 Hl0. exists (array_sort storageZoneComparator l0).
    rewrite lookup_fmap, Hl0. split; [done|].
    split; [apply array_sort_perm|apply array_sort_sorted]. }
  assert (Hlists : forall (obj : gmap string (list shark)) dc l,
            (array_sort storageZoneComparator <$> obj) !! dc = Some l ->
            sorted_by_capacity l /\ exists l0, obj !! dc = Some l0 /\ l ≡ₚ l0).
  { intros obj dc l. rewrite lookup_fmap.
    destruct (obj !! dc) as [l0|]; [|done]. intros [= <-].
    split; [apply array_sort_sorted|]. exists l0. split; [done|].
    apply array_sort_perm. }
  assert (Hkeys : forall (obj : gmap string (list shark)),
            list_to_set (object_keys obj)
            =@{gset string} dom (array_sort storageZoneComparator <$> obj)).
  { intros obj. apply set_eq. intros dc.
    rewrite elem_of_list_to_set, elem_of_object_keys, elem_of_dom.
    by rewrite lookup_fmap, fmap_is_Some. }
  split; [done|]. split; [done|]. split; [done|]. split; [done|].
  split; [apply dom_fmap_L|]. split; [apply dom_fmap_L|].
  split; [apply Hgiven|]. split; [apply Hgiven|].
  split; [apply Hlists|]. split; [apply Hlists|].
  auto using object_keys_NoDup.
Qed.

(** ** The entropy source *)

Lemma random_no_skip rnd (min max : Z) (st : sel_state) :
  exists s, random rnd min max None st = (Ret s, after_draw st) /\
            (min <= max -> min <= s <= max).
Proof.
  unfold random, bind, math_random_floor, ret, after_draw. cbn.
  eexists. split; [reflexivity|]. intros Hle.
  rewrite decide_True by lia.
  pose proof (Z.mod_pos_bound (Z.of_nat (rnd (st_draws st))) (max - min + 1)).
  lia.
Qed.

(** ** The scan of [host] *)

Lemma host_scan_Some (fuel : nat) dc offset start s seen i :
  host_scan fuel dc offset start s seen = Ret (Some i) ->
  exists x, js_get dc i = Some x /\ manta_storage_id x ∉ seen.
Proof.
  revert s. induction fuel as [|fuel IH]; intros s; [done|]. simpl.
  set (s' := if decide (s + 1 = Z.of_nat (length dc)) then offset else s + 1).
  case_decide; [done|].
  destruct (js_get dc s') as [x|] eqn:Hx; [|done].
  case_decide; [apply IH|]. intros [= <-]. by exists x.
Qed.

Lemma host_scan_ok (dc : list shark) (offset start : Z) (seen : list string) :
  0 <= offset -> offset <= start < Z.of_nat (length dc) ->
  forall (fuel : nat) (s : Z),
    offset <= s < Z.of_nat (length dc) ->
    (forall i x, js_get dc i = Some x -> offset <= i -> scanned start s i ->
                 manta_storage_id x ∈ seen) ->
    (if decide (s < start) then start - s
     else Z.of_nat (length dc) - s + (start - offset)) <= Z.of_nat fuel ->
    exists r, host_scan fuel dc offset start s seen = Ret r /\
      match r with
      | None => forall i x, js_get dc i = Some x -> offset <= i ->
                            manta_storage_id x ∈ seen
      | Some i => offset <= i < Z.of_nat (length dc) /\
                  exists x, js_get dc i = Some x /\ manta_storage_id x ∉ seen
      end.
Proof.
  intros Hoff Hstart fuel.
  induction fuel as [|fuel IH]; intros s Hs Hvisited Hfuel.
  { exfalso. case_decide; lia. }
  simpl.
  set (s' := if decide (s + 1 = Z.of_nat (length dc)) then offset else s + 1).
  assert (Hs' : offset <= s' < Z.of_nat (length dc)).
  { subst s'. repeat case_decide; lia. }
  destruct (decide (s' = start)) as [Hend|Hend].
  - exists None. split; [done|]. intros i x Hx Hi.
    apply (Hvisited i x Hx Hi). pose proof (js_get_bound _ _ _ Hx).
    unfold scanned. subst s'. repeat case_decide; lia.
  - destruct (js_get_in_range dc s') as [x Hx]; [lia|]. rewrite Hx.
    destruct (decide (manta_storage_id x ∈ seen)) as [Hseen|Hseen].
    + apply IH; [done| |].
      * intros i y Hy Hi Hsc.
        destruct (decide (i = s')) as [->|Hne]; [congruence|].
        apply (Hvisited i y Hy Hi). pose proof (js_get_bound _ _ _ Hy).
        unfold scanned in *. subst s'. repeat case_decide; lia.
      * subst s'. repeat case_decide; lia.
    + exists (Some s'). split; [done|]. split; [done|]. by exists x.
Qed.

(** ** One pick in a datacenter *)

(** Whatever the offset, a pick that returns a shark returns one that was
    not seen and records it; any other outcome leaves [seen] as it was. *)
Lemma host_pick_cases rnd (dc : list shark) (offset : Z) st r st' :
  host_pick rnd dc offset st = (r, st') ->
  st_dcIndex st' = st_dcIndex st /\
  match r with
  | Ret (Some h) =>
      exists i x, js_get dc i = Some x /\ h = replica_of x /\
        (manta_storage_id x ∉ st_seen st) /\
        st_seen st' = st_seen st ++ [manta_storage_id x]
  | _ => st_seen st' = st_seen st
  end.
Proof.
  destruct (random_no_skip rnd offset (Z.of_nat (length dc) - 1) st)
    as (s & Hs & _).
  unfold host_pick, bind. rewrite Hs.
  destruct (js_get dc s) as [x|] eqn:Hx; [|by intros [= <- <-]].
  unfold get_seen. cbn [st_seen after_draw].
  destruct (decide (manta_storage_id x ∈ st_seen st)) as [Hseen|Hseen].
  - unfold lift.
    destruct (host_scan (length dc) dc offset s s (st_seen st))
      as [[i|]| |] eqn:Hscan; try (by intros [= <- <-]).
    destruct (host_scan_Some _ _ _ _ _ _ _ Hscan) as (y & Hy & Hnew).
    rewrite Hy. unfold push_seen, ret. cbn. intros [= <- <-]. cbn.
    split; [done|]. by exists i, y.
  - unfold ret. rewrite Hx. unfold push_seen. cbn. intros [= <- <-]. cbn.
    split; [done|]. by exists s, x.
Qed.

(** The pick, once its start index is known to lie in the qualifying
    sub-range. *)
Lemma host_pick_from rnd (dc : list shark) (offset start : Z)
    (st : sel_state) :
  random rnd offset (Z.of_nat (length dc) - 1) None st
    = (Ret start, after_draw st) ->
  0 <= offset -> offset <= start < Z.of_nat (length dc) ->
  exists r st',
    host_pick rnd dc offset st = (Ret r, st') /\
    match r with
    | Some h =>
        exists i x,
          offset <= i < Z.of_nat (length dc) /\ js_get dc i = Some x /\
          (manta_storage_id x ∉ st_seen st) /\ h = replica_of x /\
          st_seen st' = st_seen st ++ [manta_storage_id x] /\
          (forall x0, js_get dc start = Some x0 ->
                      manta_storage_id x0 ∉ st_seen st -> i = start)
    | None =>
        (forall i x, offset <= i < Z.of_nat (length dc) ->
                     js_get dc i = Some x -> manta_storage_id x ∈ st_seen st) /\
        st_seen st' = st_seen st
    end.
Proof.
  intros Hs Hoff Hrange.
  unfold host_pick, bind. rewrite Hs.
  destruct (js_get_in_range dc start) as [x Hx]; [lia|]. rewrite Hx.
  unfold get_seen. cbn [st_seen after_draw].
  destruct (decide (manta_storage_id x ∈ st_seen st)) as [Hseen|Hseen].
  - unfold lift.
    destruct (host_scan_ok dc offset start (st_seen st) ltac:(lia) ltac:(lia)
                (length dc) start ltac:(lia)) as (r & Hscan & Hr).
    { intros i y Hy Hi Hsc. unfold scanned in Hsc.
      assert (i = start) as -> by lia. congruence. }
    { rewrite decide_False by lia. lia. }
    rewrite Hscan. destruct r as [i|].
    + destruct Hr as (Hi & y & Hy & Hnew). rewrite Hy.
      unfold push_seen, ret. cbn.
      eexists _, _. split; [done|].
      exists i, y. repeat split; try done; try lia.
      intros x0 Hx0 Hx0new. congruence.
    + unfold ret. eexists _, _. split; [done|]. split; [|done].
      intros i y Hi Hy. apply (Hr i y Hy). lia.
  - unfold ret. rewrite Hx. unfold push_seen. cbn.
    eexists _, _. split; [done|].
    exists start, x. repeat split; try done; lia.
Qed.

(** C8.  For a datacenter list, a qualifying offset and any [seen], the pick
    terminates without throwing: the start index is drawn inside the
    qualifying sub-range; the pick returns either a shark that was not seen,
    at an index of the sub-range (the start itself when that one is unseen),
    and records it, or [null] when every shark of the sub-range is seen. *)
Theorem host_pick_terminates rnd (dc : list shark) (offset : Z)
    (st : sel_state) :
  0 <= offset < Z.of_nat (length dc) ->
  exists start r st',
    random rnd offset (Z.of_nat (length dc) - 1) None st
      = (Ret start, after_draw st) /\
    offset <= start < Z.of_nat (length dc) /\
    host_pick rnd dc offset st = (Ret r, st') /\
    match r with
    | Some h =>
        exists i x,
          offset <= i < Z.of_nat (length dc) /\ js_get dc i = Some x /\
          (manta_storage_id x ∉ st_seen st) /\ h = replica_of x /\
          st_seen st' = st_seen st ++ [manta_storage_id x] /\
          (forall x0, js_get dc start = Some x0 ->
                      manta_storage_id x0 ∉ st_seen st -> i = start)
    | None =>
        (forall i x, offset <= i < Z.of_nat (length dc) ->
                     js_get dc i = Some x -> manta_storage_id x ∈ st_seen st) /\
        st_seen st' = st_seen st
    end.
Proof.
  intros Hoff.
  destruct (random_no_skip rnd offset (Z.of_nat (length dc) - 1) st)
    as (start & Hs & Hrange).
  assert (Hstart : offset <= start < Z.of_nat (length dc)).
  { specialize (Hrange ltac:(lia)). lia. }
  destruct (host_pick_from rnd dc offset start st Hs ltac:(lia) Hstart)
    as (r & st' & Hpick & Hr).
  exists start, r, st'. split; [exact Hs|]. split; [exact Hstart|].
  split; [exact Hpick|exact Hr].
Qed.

Lemma host_pick_terminates_witness :
  0 <= 1 < Z.of_nat (length [shark_b; shark_d; shark_e]) /\
  exists r st',
    host_pick zeros [shark_b; shark_d; shark_e] 1 (mkSel 0 ["d"] 0)
    = (Ret r, st').
Proof.
  assert (H : 0 <= 1 < Z.of_nat (length [shark_b; shark_d; shark_e]))
    by (simpl; lia).
  split; [exact H|].
  destruct (host_pick_terminates zeros [shark_b; shark_d; shark_e] 1
              (mkSel 0 ["d"] 0) H) as (start & r & st' & _ & _ & Hpick & _).
  by exists r, st'.
Defined.

(** ** [shuffle] *)

Lemma math_random_floor_ret rnd (n : Z) (st : sel_state) :
  exists v, math_random_floor rnd n st = (Ret v, after_draw st) /\
            (0 < n -> 0 <= v < n).
Proof.
  unfold math_random_floor, after_draw. eexists. split; [reflexivity|].
  intros Hn. rewrite decide_True by lia. by apply Z.mod_pos_bound.
Qed.

Lemma swap_perm {A} (l : list A) (i j : nat) (x y : A) :
  l !! i = Some x -> l !! j = Some y ->
  <[j := x]> (<[i := y]> l) ≡ₚ l.
Proof.
  intros Hi Hj. destruct (decide (i = j)) as [->|Hne].
  - simplify_eq. rewrite list_insert_insert_eq. by rewrite list_insert_id.
  - symmetry. apply Permutation_inj. split.
    { by rewrite !length_insert. }
    exists (fun k => if decide (k = i) then j else if decide (k = j) then i else k).
    split.
    + intros a b. repeat case_decide; congruence.
    + intros k. repeat case_decide; subst.
      * rewrite list_lookup_insert_eq; [done|].
        rewrite length_insert. by eapply lookup_lt_Some.
      * rewrite list_lookup_insert_ne by done.
        rewrite list_lookup_insert_eq; [done|]. by eapply lookup_lt_Some.
      * by rewrite !list_lookup_insert_ne by done.
Qed.

Lemma shuffle_loop_ret {A} rnd (m : nat) (array : list A) (st : sel_state) :
  exists array' st',
    shuffle_loop rnd m array st = (Ret array', st') /\
    array' ≡ₚ array /\
    st_seen st' = st_seen st /\ st_dcIndex st' = st_dcIndex st.
Proof.
  revert array st. induction m as [|m IH]; intros array st.
  { by exists array, st. }
  cbn [shuffle_loop]. unfold bind.
  destruct (math_random_floor_ret rnd (Z.of_nat (S m)) st) as (i & Hi & _).
  rewrite Hi.
  destruct (array !! m) as [t|] eqn:Ht, (js_get array i) as [ai|] eqn:Hai.
  - destruct (IH (<[Z.to_nat i := t]> (<[m := ai]> array)) (after_draw st))
      as (array' & st' & Hrun & Hperm & Hseen & Hidx).
    exists array', st'. split; [done|]. split; [|done].
    rewrite Hperm. apply js_get_Some in Hai as [_ Hai]. by apply swap_perm.
  - destruct (IH array (after_draw st)) as (array' & st' & ? & ? & ? & ?).
    by exists array', st'.
  - destruct (IH array (after_draw st)) as (array' & st' & ? & ? & ? & ?).
    by exists array', st'.
  - destruct (IH array (after_draw st)) as (array' & st' & ? & ? & ? & ?).
    by exists array', st'.
Qed.

Lemma shuffle_ret {A} rnd (array : list A) (st : sel_state) :
  exists array' st',
    shuffle rnd array st = (Ret array', st') /\
    array' ≡ₚ array /\
    st_seen st' = st_seen st /\ st_dcIndex st' = st_dcIndex st.
Proof. apply shuffle_loop_ret. Qed.

(** ** What [host], [set] and the loop do to [seen] *)

Section seen.
Variable rnd : nat -> nat.
Variable sharkMap : option (gmap string (list shark)).
Variable dcs : list string.
Variable offsets : list Z.
Variable replicas : Z.
Variable size : option Z.
Variable multi : bool.

Lemma host_cases st r st' :
  host rnd sharkMap dcs offsets st = (r, st') ->
  match r with
  | Ret (Some h) =>
      (r_manta_storage_id h ∉ st_seen st) /\
      st_seen st' = st_seen st ++ [r_manta_storage_id h]
  | _ => st_seen st' = st_seen st
  end.
Proof.
  unfold host, bind, next_dcIndex, throw.
  destruct sharkMap as [m|]; [|by intros; simplify_eq/=].
  destruct (js_get dcs _) as [name|]; [|by intros; simplify_eq/=].
  destruct (js_get offsets _) as [offset|]; [|by intros; simplify_eq/=].
  destruct (m !! name) as [dc|]; [|by intros; simplify_eq/=].
  intros [_ Hpick]%host_pick_cases.
  destruct r as [[h|]| |]; try done.
  by destruct Hpick as (i & x & _ & -> & ? & ?).
Qed.

Lemma host_seen_NoDup st r st' :
  host rnd sharkMap dcs offsets st = (r, st') ->
  NoDup (st_seen st) -> NoDup (st_seen st').
Proof.
  intros Hhost%host_cases Hnd.
  destruct r as [[h|]| |]; try (by rewrite Hhost).
  destruct Hhost as [Hnew ->]. apply NoDup_app. split; [done|].
  split; [|apply NoDup_singleton].
  intros x Hx ->%list_elem_of_singleton. done.
Qed.

(** [set] appends to [s] exactly the replicas whose ids it adds to
    [seen]; [P] stands for the ids collected before. *)
Lemma set_loop_seen (n : nat) (s : list replica) (P : list string) st r st' :
  set_loop rnd sharkMap dcs offsets n s st = (r, st') ->
  NoDup (st_seen st) -> sublist P (st_seen st) ->
  NoDup (st_seen st') /\
  match r with
  | Ret (Some t) =>
      exists new, t = s ++ new /\ length new = n /\
                  sublist (P ++ ids new) (st_seen st')
  | _ => sublist P (st_seen st')
  end.
Proof.
  revert s P st. induction n as [|n IH]; intros s P st.
  { intros [= <- <-] Hnd Hsub. split; [done|]. exists [].
    by rewrite !app_nil_r. }
  cbn [set_loop]. unfold bind.
  destruct (host rnd sharkMap dcs offsets st) as [rh st1] eqn:Hhost.
  pose proof (host_seen_NoDup _ _ _ Hhost) as Hnd1.
  apply host_cases in Hhost.
  destruct rh as [[h|]| |].
  - destruct Hhost as [Hnew Hseen]. intros Hrun Hnd Hsub.
    destruct (IH (s ++ [h]) (P ++ [r_manta_storage_id h]) st1 Hrun
                (Hnd1 Hnd)) as [Hnd' Hr].
    { rewrite Hseen. by apply sublist_app. }
    split; [done|]. destruct r as [[t|]| |].
    + destruct Hr as (new & -> & Hlen & Hsub').
      exists (h :: new). rewrite <- !app_assoc in *. cbn in *.
      split; [done|]. split; [by rewrite Hlen|done].
    + etrans; [|exact Hr]. by apply sublist_inserts_r.
    + etrans; [|exact Hr]. by apply sublist_inserts_r.
    + etrans; [|exact Hr]. by apply sublist_inserts_r.
  - intros [= <- <-] Hnd Hsub. split; [auto|]. by rewrite Hhost.
  - intros [= <- <-] Hnd Hsub. split; [auto|]. by rewrite Hhost.
  - intros [= <- <-] Hnd Hsub. split; [auto|]. by rewrite Hhost.
Qed.

Lemma place_tuple_inr sharks tuple sharks' :
  place_tuple replicas size multi sharks tuple = inr sharks' ->
  (tuple = None /\ sharks' = sharks /\ sharks <> []) \/
  (exists t, tuple = Some t /\ sharks' = sharks ++ [t] /\
     (sharks = [] -> replicas <= Z.of_nat (length t)) /\
     (multi = true -> replicas > 1 -> (2 <= length (tuple_dcs t))%nat)).
Proof.
  unfold place_tuple. destruct tuple as [t|].
  - destruct (bool_decide (length sharks = 0%nat)
              && bool_decide (Z.of_nat (length t) < replicas)) eqn:Hshort;
      [done|].
    destruct (multi && bool_decide (replicas > 1)
              && bool_decide (Z.of_nat (length (tuple_dcs t)) < 2)) eqn:Hsp;
      [done|].
    intros [= <-]. right. exists t. split; [done|]. split; [done|]. split.
    + intros ->. rewrite bool_decide_true in Hshort by done.
      cbn in Hshort. apply bool_decide_eq_false in Hshort. lia.
    + intros -> Hrep. rewrite bool_decide_true in Hsp by done.
      cbn in Hsp. apply bool_decide_eq_false in Hsp. lia.
  - destruct (bool_decide (length sharks = 0%nat)) eqn:Hempty; [done|].
    cbn. intros [= <-]. left. split; [done|]. split; [done|].
    apply bool_decide_eq_false in Hempty. by destruct sharks.
Qed.

Lemma place_tuple_inl sharks tuple err :
  place_tuple replicas size multi sharks tuple = inl err ->
  (sharks = [] /\ err = NotEnoughSpaceError size cause_exceeds /\
     match tuple with
     | None => True
     | Some t => Z.of_nat (length t) < replicas
     end) \/
  (exists t, tuple = Some t /\ multi = true /\ replicas > 1 /\
     (length (tuple_dcs t) < 2)%nat /\
     err = NotEnoughSpaceError size cause_spread).
Proof.
  unfold place_tuple.
  destruct (bool_decide (length sharks = 0%nat)) eqn:Hempty.
  - apply bool_decide_eq_true in Hempty.
    assert (sharks = []) as -> by by destruct sharks.
    destruct tuple as [t|]; cbn [andb].
    + destruct (bool_decide (Z.of_nat (length t) < replicas)) eqn:Hshort.
      * intros [= <-]. left. apply bool_decide_eq_true in Hshort. done.
      * destruct (multi && bool_decide (replicas > 1)
                  && bool_decide (Z.of_nat (length (tuple_dcs t)) < 2))
          eqn:Hsp; [|done].
        intros [= <-]. right. exists t.
        apply andb_true_iff in Hsp as [[-> Hrep]%andb_true_iff Hlt].
        apply bool_decide_eq_true in Hrep, Hlt. repeat split; try done; lia.
    + intros [= <-]. by left.
  - cbn [andb]. destruct tuple as [t|]; [|done].
    destruct (multi && bool_decide (replicas > 1)
              && bool_decide (Z.of_nat (length (tuple_dcs t)) < 2))
      eqn:Hsp; [|done].
    intros [= <-]. right. exists t.
    apply andb_true_iff in Hsp as [[-> Hrep]%andb_true_iff Hlt].
    apply bool_decide_eq_true in Hrep, Hlt. repeat split; try done; lia.
Qed.

Lemma ids_concat_snoc (sharks : list (list replica)) (t : list replica) :
  ids (concat (sharks ++ [t])) = ids (concat sharks) ++ ids t.
Proof.
  unfold ids. rewrite concat_app, fmap_app. cbn. by rewrite app_nil_r.
Qed.

Lemma choose_loop_NoDup (n : nat) sharks st out st' :
  choose_loop rnd sharkMap dcs offsets replicas size multi n sharks st
    = (Ret (CbOk out), st') ->
  NoDup (st_seen st) -> sublist (ids (concat sharks)) (st_seen st) ->
  NoDup (ids (concat out)).
Proof.
  revert sharks st. induction n as [|n IH]; intros sharks st.
  { intros [= <- <-] Hnd Hsub. by eapply sublist_NoDup. }
  cbn [choose_loop]. unfold bind.
  destruct (set rnd sharkMap dcs offsets replicas st) as [rt st1] eqn:Hset.
  intros Hrun Hnd Hsub.
  destruct (set_loop_seen _ _ _ _ _ _ Hset Hnd Hsub) as [Hnd1 Hr].
  destruct rt as [tuple| |]; try done.
  destruct (place_tuple replicas size multi sharks tuple)
    as [err|sharks'] eqn:Hplace; [done|].
  apply place_tuple_inr in Hplace
      as [(-> & -> & _)|(t & -> & -> & _)].
  - by apply (IH sharks st1).
  - destruct Hr as (new & -> & _ & Hsub1). apply (IH _ st1 Hrun Hnd1).
    by rewrite ids_concat_snoc.
Qed.
End seen.

(** ** The shape of a [choose] call *)

Lemma prepared_state rnd self opts dcs0 dcs offsets st0 :
  prepared rnd self opts dcs0 dcs offsets st0 ->
  st_seen st0 = [] /\ st_dcIndex st0 = dcIndex self /\ dcs ≡ₚ dcs0.
Proof.
  intros (names & _ & _ & _ & Hsh).
  destruct (shuffle_ret rnd dcs0 (initial_state self))
    as (dcs' & st' & Hsh' & Hperm & Hseen & Hidx).
  rewrite Hsh in Hsh'. by simplify_eq.
Qed.

(** Once prepared, the call is the three turns of the loop. *)
Lemma choose_prepared rnd self opts dcs0 dcs offsets st0 :
  prepared rnd self opts dcs0 dcs offsets st0 ->
  choose self opts rnd = finish self (loop_of rnd self opts dcs offsets 3 [] st0).
Proof.
  intros (names & Hnames & Hfilter & Hchk & Hsh).
  unfold choose. rewrite Hnames, Hfilter, Hchk.
  unfold choose_select, bind. rewrite Hsh. unfold finish, loop_of.
  by destruct (choose_loop _ _ _ _ _ _ _ _ _ _).
Qed.

(** The four ways a call can go. *)
Lemma choose_inv self opts rnd r self' :
  choose self opts rnd = (r, self') ->
  (self' = self /\
     ((choose_datacenters self opts = None /\ r = Throw TypeError) \/
      (exists names, choose_datacenters self opts = Some names /\
         match forEach_filter (choose_sharkMap self opts)
                 (choose_size self opts) names ([], []) with
         | Ret (dcs0, _) =>
             exists cause,
               not_enough_dcs (multiDC self) (choose_replicas opts) dcs0
                 = Some cause /\
               r = Ret (CbErr (NotEnoughSpaceError (choose_size self opts)
                                 cause))
         | Throw e => r = Throw e
         | Diverge => r = Diverge
         end))) \/
  (exists dcs0 dcs offsets st0,
     prepared rnd self opts dcs0 dcs offsets st0 /\
     (r, self') = finish self (loop_of rnd self opts dcs offsets 3 [] st0)).
Proof.
  intros Hrun.
  destruct (choose_datacenters self opts) as [names|] eqn:Hnames.
  2: { unfold choose in Hrun. rewrite Hnames in Hrun. simplify_eq.
       left. split; [done|]. by left. }
  destruct (forEach_filter (choose_sharkMap self opts) (choose_size self opts)
              names ([], [])) as [[dcs0 offsets]|e|] eqn:Hfilter.
  - destruct (not_enough_dcs (multiDC self) (choose_replicas opts) dcs0)
      as [cause|] eqn:Hchk.
    + unfold choose in Hrun. rewrite Hnames, Hfilter, Hchk in Hrun.
      simplify_eq. left. split; [done|]. right. exists names.
      split; [done|]. rewrite Hfilter. by exists cause.
    + destruct (shuffle_ret rnd dcs0 (initial_state self))
        as (dcs & st0 & Hsh & _).
      assert (Hprep : prepared rnd self opts dcs0 dcs offsets st0)
        by by exists names.
      right. exists dcs0, dcs, offsets, st0. split; [done|].
      by rewrite <- Hrun, (choose_prepared _ _ _ _ _ _ _ Hprep).
  - unfold choose in Hrun. rewrite Hnames, Hfilter in Hrun. simplify_eq.
    left. split; [done|]. right. exists names. split; [done|].
    by rewrite Hfilter.
  - unfold choose in Hrun. rewrite Hnames, Hfilter in Hrun. simplify_eq.
    left. split; [done|]. right. exists names. split; [done|].
    by rewrite Hfilter.
Qed.

(** A successful call went through the loop. *)
Lemma choose_ok_inv self opts rnd sharks self' :
  choose self opts rnd = (Ret (CbOk sharks), self') ->
  exists dcs0 dcs offsets st0 st',
    prepared rnd self opts dcs0 dcs offsets st0 /\
    loop_of rnd self opts dcs offsets 3 [] st0 = (Ret (CbOk sharks), st') /\
    self' = store_dcIndex self st'.
Proof.
  intros [[_ [[_ ?]|(names & _ & Hf)]]|(dcs0 & dcs & offsets & st0 & Hprep & Hfin)]
    %choose_inv; [done| |].
  - destruct (forEach_filter _ _ _ _) as [[? ?]| |]; try done.
    by destruct Hf as (? & _ & ?).
  - exists dcs0, dcs, offsets, st0.
    destruct (loop_of rnd self opts dcs offsets 3 [] st0) as [r st'] eqn:Hloop.
    exists st'. unfold finish in Hfin. cbn in Hfin. by simplify_eq.
Qed.

Lemma elem_of_concat {A} (x : A) (ls : list (list A)) :
  x ∈ concat ls <-> exists l, l ∈ ls /\ x ∈ l.
Proof.
  rewrite list_elem_of_In, in_concat. setoid_rewrite list_elem_of_In. done.
Qed.

Lemma NoDup_concat_parts {A} (ls : list (list A)) :
  NoDup (concat ls) ->
  (forall l, l ∈ ls -> NoDup l) /\
  (forall i j l1 l2 x, ls !! i = Some l1 -> ls !! j = Some l2 ->
                       x ∈ l1 -> x ∈ l2 -> i = j).
Proof.
  induction ls as [|l ls IH]; cbn.
  { intros _. split; [by intros ? ?%elem_of_nil|done]. }
  intros (Hl & Hdisj & Hls)%NoDup_app. destruct (IH Hls) as [IH1 IH2].
  split.
  - intros l' [->|?]%elem_of_cons; auto.
  - intros [|i] [|j] l1 l2 x H1 H2 Hx1 Hx2; simplify_eq/=; try done.
    + exfalso. apply (Hdisj x Hx1). apply elem_of_concat.
      exists l2. split; [|done]. by eapply list_elem_of_lookup_2.
    + exfalso. apply (Hdisj x Hx2). apply elem_of_concat.
      exists l1. split; [|done]. by eapply list_elem_of_lookup_2.
    + f_equal. by eapply IH2.
Qed.

Lemma ids_concat (sharks : list (list replica)) :
  ids (concat sharks) = concat (ids <$> sharks).
Proof.
  unfold ids. induction sharks as [|t ts IH]; [done|]. cbn.
  by rewrite fmap_app, IH.
Qed.

(** C3.  In the result of a successful [choose] no replica set holds a node
    id twice and no node id is in two of the sets: the ids of all returned
    replicas are pairwise distinct.  The [seen] array is the one of the call:
    the next call on the client starts building its sets with nothing
    seen. *)
Theorem choose_ids_distinct self opts rnd sharks self' :
  choose self opts rnd = (Ret (CbOk sharks), self') ->
  NoDup (ids (concat sharks)) /\
  (forall t, t ∈ sharks -> NoDup (ids t)) /\
  (forall i j t1 t2 id, sharks !! i = Some t1 -> sharks !! j = Some t2 ->
     id ∈ ids t1 -> id ∈ ids t2 -> i = j) /\
  (forall rnd2 opts2 dcs0 dcs offsets st0,
     prepared rnd2 self' opts2 dcs0 dcs offsets st0 -> st_seen st0 = []).
Proof.
  intros (dcs0 & dcs & offsets & st0 & st' & Hprep & Hloop & ->)%choose_ok_inv.
  destruct (prepared_state _ _ _ _ _ _ _ Hprep) as (Hseen & _ & _).
  assert (Hnd : NoDup (ids (concat sharks))).
  { eapply choose_loop_NoDup; [exact Hloop| |]; rewrite Hseen.
    - constructor.
    - constructor. }
  split; [done|].
  rewrite ids_concat in Hnd. apply NoDup_concat_parts in Hnd as [Hin Hacross].
  split; [|split].
  - intros t Ht. apply Hin. by apply list_elem_of_fmap_2.
  - intros i j t1 t2 id H1 H2. apply Hacross; by rewrite list_lookup_fmap, ?H1, ?H2.
  - intros rnd2 opts2 dcs1 dcs2 offsets2 st2 Hprep2.
    by destruct (prepared_state _ _ _ _ _ _ _ Hprep2).
Qed.

Lemma choose_ids_distinct_witness :
  exists sharks,
    (choose two_dc_client (request 2 5) zeros).1 = Ret (CbOk sharks) /\
    NoDup (ids (concat sharks)).
Proof.
  destruct (choose two_dc_client (request 2 5) zeros) as [r self'] eqn:Hrun.
  assert (Hr : r = Ret (CbOk [[replica_of shark_b; replica_of shark_a]])).
  { apply (f_equal fst) in Hrun. vm_compute in Hrun. by symmetry. }
  subst r. eexists. split; [reflexivity|].
  exact (proj1 (choose_ids_distinct _ _ _ _ _ Hrun)).
Defined.

(** ** The datacenters of a tuple *)

Lemma foldl_reduceFun (names acc : list string) :
  NoDup acc ->
  NoDup (foldl reduceFun acc names) /\
  forall x, x ∈ foldl reduceFun acc names <-> x ∈ acc \/ x ∈ names.
Proof.
  revert acc. induction names as [|n names IH]; intros acc Hacc; cbn.
  { split; [done|]. intros x. rewrite elem_of_nil. tauto. }
  unfold reduceFun at 2 4. case_decide as Hin.
  - destruct (IH acc Hacc) as [Hnd Hiff]. split; [done|].
    intros x. rewrite Hiff, elem_of_cons.
    split; [tauto|]. intros [?|[->|?]]; auto.
  - destruct (IH (acc ++ [n])) as [Hnd Hiff].
    { apply NoDup_app. split; [done|]. split; [|apply NoDup_singleton].
      intros x Hx ->%list_elem_of_singleton. done. }
    split; [done|]. intros x.
    rewrite Hiff, elem_of_app, list_elem_of_singleton, elem_of_cons. tauto.
Qed.

Lemma tuple_dcs_NoDup (t : list replica) : NoDup (tuple_dcs t).
Proof. apply foldl_reduceFun. constructor. Qed.

Lemma elem_of_tuple_dcs (t : list replica) (dc : string) :
  dc ∈ tuple_dcs t <-> exists r, r ∈ t /\ r_datacenter r = dc.
Proof.
  unfold tuple_dcs.
  destruct (foldl_reduceFun (mapFun <$> t) [] ltac:(constructor)) as [_ ->].
  rewrite elem_of_nil, list_elem_of_fmap. unfold mapFun. split.
  - intros [[]|(r & -> & ?)]. eauto.
  - intros (r & ? & <-). right. eauto.
Qed.

(** The length test of the spread check says what it is meant to say. *)
Lemma spans_two_length (t : list replica) :
  spans_two t <-> (2 <= length (tuple_dcs t))%nat.
Proof.
  pose proof (tuple_dcs_NoDup t) as Hnd. split.
  - intros (r1 & r2 & H1 & H2 & Hne).
    assert (Hd1 : r_datacenter r1 ∈ tuple_dcs t)
      by (apply elem_of_tuple_dcs; eauto).
    assert (Hd2 : r_datacenter r2 ∈ tuple_dcs t)
      by (apply elem_of_tuple_dcs; eauto).
    destruct (tuple_dcs t) as [|a [|b l]]; cbn; [|exfalso|lia].
    + by apply elem_of_nil in Hd1.
    + apply list_elem_of_singleton in Hd1, Hd2. congruence.
  - intros Hlen.
    destruct (tuple_dcs t) as [|a [|b l]] eqn:Hdcs; cbn in Hlen; [lia..|].
    assert (Ha : a ∈ tuple_dcs t) by (rewrite Hdcs; set_solver).
    assert (Hb : b ∈ tuple_dcs t) by (rewrite Hdcs; set_solver).
    apply elem_of_tuple_dcs in Ha as (r1 & H1 & <-).
    apply elem_of_tuple_dcs in Hb as (r2 & H2 & <-).
    exists r1, r2. split; [done|]. split; [done|].
    apply NoDup_cons in Hnd as [Hnotin _]. intros Heq. apply Hnotin.
    rewrite Heq. set_solver.
Qed.

(** ** The loop of [choose] *)

Section loop.
Variable rnd : nat -> nat.
Variable sharkMap : option (gmap string (list shark)).
Variable dcs : list string.
Variable offsets : list Z.
Variable replicas : Z.
Variable size : option Z.
Variable multi : bool.

Lemma set_loop_length (n : nat) (s : list replica) st t st' :
  set_loop rnd sharkMap dcs offsets n s st = (Ret (Some t), st') ->
  length t = (length s + n)%nat.
Proof.
  revert s st. induction n as [|n IH]; intros s st; cbn [set_loop].
  { intros [= <- <-]. lia. }
  unfold bind.
  destruct (host rnd sharkMap dcs offsets st) as [[[h|]| |] st1]; try done.
  intros Hrun%IH. rewrite length_app in Hrun. cbn in Hrun. lia.
Qed.

(** A tuple [set] returns is full. *)
Lemma set_length st t st' :
  set rnd sharkMap dcs offsets replicas st = (Ret (Some t), st') ->
  length t = Z.to_nat replicas.
Proof. intros Hset%set_loop_length. by rewrite Hset. Qed.

Lemma choose_loop_step (n : nat) sharks st :
  choose_loop rnd sharkMap dcs offsets replicas size multi (S n) sharks st =
  match set rnd sharkMap dcs offsets replicas st with
  | (Ret tuple, st1) =>
      match place_tuple replicas size multi sharks tuple with
      | inl err => (Ret (CbErr err), st1)
      | inr sharks' =>
          choose_loop rnd sharkMap dcs offsets replicas size multi n sharks' st1
      end
  | (Throw e, st1) => (Throw e, st1)
  | (Diverge, st1) => (Diverge, st1)
  end.
Proof.
  cbn [choose_loop]. unfold bind.
  destruct (set rnd sharkMap dcs offsets replicas st) as [[tuple| |] st1];
    try done.
  by destruct (place_tuple replicas size multi sharks tuple).
Qed.

(** What the loop adds to [sharks] when the call succeeds. *)
Lemma choose_loop_ok (n : nat) sharks st out st' :
  choose_loop rnd sharkMap dcs offsets replicas size multi n sharks st
    = (Ret (CbOk out), st') ->
  exists new,
    out = sharks ++ new /\ (length new <= n)%nat /\
    ((0 < n)%nat -> out <> []) /\
    Forall (fun t => length t = Z.to_nat replicas /\
                     (multi = true -> replicas > 1 -> spans_two t)) new.
Proof.
  revert sharks st. induction n as [|n IH]; intros sharks st.
  { intros [= <- <-]. exists []. rewrite app_nil_r.
    split; [done|]. split; [done|]. split; [lia|constructor]. }
  rewrite choose_loop_step.
  destruct (set rnd sharkMap dcs offsets replicas st)
    as [[tuple| |] st1] eqn:Hset; try done.
  destruct (place_tuple replicas size multi sharks tuple)
    as [err|sharks'] eqn:Hplace; [done|].
  intros (new & -> & Hlen & _ & Hall)%IH.
  apply place_tuple_inr in Hplace
      as [(-> & -> & Hne)|(t & -> & -> & _ & Hspread)].
  - exists new. split; [done|]. split; [lia|]. split; [|done].
    intros _ Hnil. by apply app_eq_nil in Hnil as [? _].
  - exists (t :: new). rewrite <- app_assoc. split; [done|].
    split; [cbn; lia|]. split.
    + intros _ Hnil. by apply app_eq_nil in Hnil as [_ ?].
    + constructor; [|done]. split; [by eapply set_length|].
      intros Hm Hr. apply spans_two_length. auto.
Qed.

(** The only errors of the loop. *)
Lemma choose_loop_err (n : nat) sharks st err st' :
  choose_loop rnd sharkMap dcs offsets replicas size multi n sharks st
    = (Ret (CbErr err), st') ->
  err = NotEnoughSpaceError size cause_exceeds \/
  err = NotEnoughSpaceError size cause_spread.
Proof.
  revert sharks st. induction n as [|n IH]; intros sharks st; [done|].
  rewrite choose_loop_step.
  destruct (set rnd sharkMap dcs offsets replicas st)
    as [[tuple| |] st1] eqn:Hset; try done.
  destruct (place_tuple replicas size multi sharks tuple)
    as [e|sharks'] eqn:Hplace; [|apply IH].
  intros [= <- <-].
  apply place_tuple_inl in Hplace as [(_ & -> & _)|(t & _ & _ & _ & _ & ->)];
    auto.
Qed.
End loop.

(** Wherever the loop stands, the call ends as the rest of the loop does. *)
Lemma loop_at_choose rnd self opts dcs offsets n sharks st :
  loop_at rnd self opts dcs offsets n sharks st ->
  choose self opts rnd = finish self (loop_of rnd self opts dcs offsets n sharks st).
Proof.
  induction 1 as [dcs0 st0 Hprep|n sharks st tuple st' sharks' _ IH Hset Hplace].
  - by eapply choose_prepared.
  - rewrite IH. f_equal. unfold loop_of. rewrite choose_loop_step.
    unfold set_of in Hset. rewrite Hset.
    unfold place_of in Hplace. by rewrite Hplace.
Qed.

(** C2.  With multi-datacenter mode on and more than one replica, every
    replica set [choose] returns spans at least two distinct datacenters;
    and whenever a turn of the loop builds a set that does not, the whole
    call fails with a [NotEnoughSpaceError] whose cause is "insufficient
    number of DCs selected". *)
Theorem choose_spreads_across_dcs self opts rnd :
  multiDC self = true -> choose_replicas opts > 1 ->
  (forall sharks self',
     choose self opts rnd = (Ret (CbOk sharks), self') ->
     forall t, t ∈ sharks -> spans_two t) /\
  (forall dcs offsets n sharks st t st',
     loop_at rnd self opts dcs offsets (S n) sharks st ->
     set_of rnd self opts dcs offsets st = (Ret (Some t), st') ->
     ~ spans_two t ->
     choose self opts rnd =
       (Ret (CbErr (NotEnoughSpaceError (choose_size self opts)
                      "insufficient number of DCs selected")),
        store_dcIndex self st')).
Proof.
  intros Hmulti Hrep. split.
  - intros sharks self'
      (dcs0 & dcs & offsets & st0 & st' & _ & Hloop & _)%choose_ok_inv t Ht.
    apply choose_loop_ok in Hloop as (new & Hout & _ & _ & Hall).
    cbn in Hout. subst new. rewrite Forall_forall in Hall.
    destruct (Hall t Ht) as [_ Hspan]. by apply Hspan.
  - intros dcs offsets n sharks st t st' Hat Hset Hspan.
    rewrite (loop_at_choose _ _ _ _ _ _ _ _ Hat).
    unfold loop_of. rewrite choose_loop_step.
    unfold set_of in Hset. rewrite Hset.
    assert (Hlen : Z.of_nat (length t) = choose_replicas opts).
    { apply set_length in Hset. lia. }
    assert (Hdcs : (length (tuple_dcs t) < 2)%nat).
    { destruct (decide (2 <= length (tuple_dcs t))%nat) as [Hge|]; [|lia].
      by apply spans_two_length in Hge. }
    unfold place_tuple. rewrite Hmulti.
    rewrite (bool_decide_false (Z.of_nat (length t) < _)) by lia.
    rewrite andb_false_r. cbn [andb].
    rewrite (bool_decide_true (choose_replicas opts > 1)) by done.
    rewrite bool_decide_true by lia. done.
Qed.

Lemma choose_spreads_across_dcs_witness :
  multiDC two_dc_client = true /\ choose_replicas (request 2 5) > 1 /\
  exists sharks,
    (choose two_dc_client (request 2 5) zeros).1 = Ret (CbOk sharks) /\
    forall t, t ∈ sharks -> spans_two t.
Proof.
  assert (Hm : multiDC two_dc_client = true) by reflexivity.
  assert (Hr : choose_replicas (request 2 5) > 1) by (vm_compute; reflexivity).
  split; [exact Hm|]. split; [exact Hr|].
  destruct (choose two_dc_client (request 2 5) zeros) as [r self'] eqn:Hrun.
  assert (Hres : r = Ret (CbOk [[replica_of shark_b; replica_of shark_a]])).
  { apply (f_equal fst) in Hrun. vm_compute in Hrun. by symmetry. }
  subst r. eexists. split; [reflexivity|].
  exact (proj1 (choose_spreads_across_dcs two_dc_client (request 2 5) zeros
                  Hm Hr) _ _ Hrun).
Defined.

(** C6.  A successful [choose] hands over between one and three replica
    sets, each of exactly [replicas] members.  When the first set cannot be
    built the call fails with a [NotEnoughSpaceError]; when a later set cannot
    be built the loop goes on with the sets it has, and the call ends as the
    remaining turns do. *)
Theorem choose_result_shape self opts rnd :
  choose_replicas opts >= 1 ->
  (forall sharks self',
     choose self opts rnd = (Ret (CbOk sharks), self') ->
     (1 <= length sharks <= 3)%nat /\
     forall t, t ∈ sharks -> Z.of_nat (length t) = choose_replicas opts) /\
  (forall dcs offsets n st st',
     loop_at rnd self opts dcs offsets (S n) [] st ->
     set_of rnd self opts dcs offsets st = (Ret None, st') ->
     choose self opts rnd =
       (Ret (CbErr (NotEnoughSpaceError (choose_size self opts)
               "copies requested exceeds number of available storage nodes")),
        store_dcIndex self st')) /\
  (forall dcs offsets n sharks st st',
     loop_at rnd self opts dcs offsets (S n) sharks st ->
     sharks <> [] ->
     set_of rnd self opts dcs offsets st = (Ret None, st') ->
     loop_at rnd self opts dcs offsets n sharks st' /\
     choose self opts rnd =
       finish self (loop_of rnd self opts dcs offsets n sharks st')).
Proof.
  intros Hrep. split; [|split].
  - intros sharks self'
      (dcs0 & dcs & offsets & st0 & st' & _ & Hloop & _)%choose_ok_inv.
    apply choose_loop_ok in Hloop as (new & Hout & Hlen & Hne & Hall).
    cbn in Hout. subst new. split.
    + destruct sharks; [by destruct Hne; [lia|]|]. cbn in *. lia.
    + intros t Ht. rewrite Forall_forall in Hall.
      destruct (Hall t Ht) as [-> _]. lia.
  - intros dcs offsets n st st' Hat Hset.
    rewrite (loop_at_choose _ _ _ _ _ _ _ _ Hat).
    unfold loop_of. rewrite choose_loop_step.
    unfold set_of in Hset. by rewrite Hset.
  - intros dcs offsets n sharks st st' Hat Hne Hset.
    assert (Hplace : place_of self opts sharks None = inr sharks).
    { unfold place_of, place_tuple.
      rewrite bool_decide_false; [done|]. by destruct sharks. }
    assert (Hnext : loop_at rnd self opts dcs offsets n sharks st')
      by (by eapply loop_next).
    split; [done|]. by apply loop_at_choose.
Qed.

Lemma choose_result_shape_witness :
  choose_replicas (request 2 5) >= 1 /\
  exists sharks,
    (choose two_dc_client (request 2 5) zeros).1 = Ret (CbOk sharks) /\
    (1 <= length sharks <= 3)%nat /\
    forall t, t ∈ sharks -> Z.of_nat (length t) = choose_replicas (request 2 5).
Proof.
  assert (Hr : choose_replicas (request 2 5) >= 1)
    by (vm_compute; discriminate).
  split; [exact Hr|].
  destruct (choose two_dc_client (request 2 5) zeros) as [r self'] eqn:Hrun.
  assert (Hres : r = Ret (CbOk [[replica_of shark_b; replica_of shark_a]])).
  { apply (f_equal fst) in Hrun. vm_compute in Hrun. by symmetry. }
  subst r. eexists. split; [reflexivity|].
  exact (proj1 (choose_result_shape two_dc_client (request 2 5) zeros Hr)
           _ _ Hrun).
Defined.

(** ** Filtering the datacenters *)

Lemma installed_view self opts :
  installed self ->
  exists m names,
    choose_sharkMap self opts = Some m /\
    choose_datacenters self opts = Some names /\ snapshot_ok m names.
Proof.
  intros (m & om & ds & ods & Hm & Hom & Hds & Hods & Hok & Hook).
  unfold choose_sharkMap, choose_datacenters.
  destruct (choose_isOperator opts); eauto 10.
Qed.

(** On a sorted list [lower_bound] finds an offset exactly when a shark
    qualifies. *)
Lemma lower_bound_qualifies (m : gmap string (list shark)) sz dc l :
  m !! dc = Some l -> sorted_by_capacity l ->
  exists off, lower_bound (m !! dc) (Some sz) None None = Ret off /\
    (off <> -1 <-> qualifies m sz dc) /\
    (off <> -1 -> 0 <= off < Z.of_nat (length l) /\ splits l sz off).
Proof.
  intros Hl Hs. unfold qualifies. rewrite Hl.
  destruct (lower_bound_call l sz Hs) as (r & Hr & Hcases).
  exists r. split; [done|].
  destruct Hcases as [[-> Hall]|[Hrange Hsplit]].
  - split; [|done]. split; [done|].
    intros Hex. rewrite Exists_exists in Hex. rewrite Forall_forall in Hall.
    destruct Hex as (x & Hx & Hge). specialize (Hall x Hx). lia.
  - split; [|done]. split; [|lia]. intros _.
    destruct (js_get_in_range l r Hrange) as [x Hx].
    apply Exists_exists. exists x. split; [by eapply js_get_elem_of|].
    destruct Hsplit as [_ Habove]. apply (Habove r x Hx). lia.
Qed.

Lemma forEach_filter_ok (m : gmap string (list shark)) sz names acc :
  (forall dc, dc ∈ names ->
     exists l, m !! dc = Some l /\ sorted_by_capacity l) ->
  exists offs,
    forEach_filter (Some m) (Some sz) names acc
      = Ret (acc.1 ++ filter (qualifies m sz) names, acc.2 ++ offs) /\
    aligned m sz (filter (qualifies m sz) names) offs /\
    Forall (fun off => off <> -1) offs.
Proof.
  revert acc. induction names as [|dc names IH]; intros acc Hnames.
  { exists []. cbn. rewrite !app_nil_r. split; [by destruct acc|].
    split; constructor. }
  destruct (Hnames dc ltac:(left)) as (l & Hl & Hs).
  destruct (lower_bound_qualifies m sz dc l Hl Hs) as (off & Hoff & Hq & _).
  cbn [forEach_filter]. unfold filterDatacenters. rewrite Hoff. cbn [res_bind].
  rewrite filter_cons. destruct (decide (off <> -1)) as [Hne|He]; cbn [res_bind].
  - rewrite decide_True by by apply Hq.
    destruct (IH (acc.1 ++ [dc], acc.2 ++ [off])) as (offs & Hrun & Hal & Hall).
    { intros dc' Hdc'. apply Hnames. by right. }
    exists (off :: offs). rewrite Hrun. cbn [fst snd].
    rewrite <- !app_assoc. split; [done|].
    split; constructor; done.
  - rewrite decide_False by (intros ?%Hq; done).
    destruct (IH acc) as (offs & Hrun & Hal & Hall).
    { intros dc' Hdc'. apply Hnames. by right. }
    by exists offs.
Qed.

(** The arrays [choose] has after the [forEach] of an installed client whose
    size is defined. *)
Lemma choose_filter_installed self opts sz :
  installed self -> choose_size self opts = Some sz ->
  exists m names offsets,
    choose_sharkMap self opts = Some m /\
    choose_datacenters self opts = Some names /\ snapshot_ok m names /\
    forEach_filter (choose_sharkMap self opts) (choose_size self opts) names
      ([], []) = Ret (candidates self opts sz, offsets) /\
    aligned m sz (candidates self opts sz) offsets /\
    Forall (fun off => off <> -1) offsets.
Proof.
  intros Hinst Hsz.
  destruct (installed_view self opts Hinst) as (m & names & Hm & Hn & Hok).
  destruct (forEach_filter_ok m sz names ([], [])) as (offs & Hrun & Hal & Hne).
  { intros dc Hdc. destruct Hok as (_ & Hkeys & Hsorted).
    apply Hkeys in Hdc as [l Hl]. exists l. split; [done|]. by eapply Hsorted. }
  exists m, names, offs. unfold candidates. rewrite Hm, Hn, Hsz.
  split; [done|]. split; [done|]. split; [done|]. split; [exact Hrun|].
  by split.
Qed.

Lemma cause_too_few_one (replicas : Z) :
  cause_too_few replicas 1 =
  pretty replicas +:+ " copies requested, but only 1 DC(s) have sufficient space".
Proof. reflexivity. Qed.

Lemma not_enough_dcs_cases (multi : bool) (replicas : Z) (dcs : list string) :
  not_enough_dcs multi replicas dcs =
  match dcs with
  | [] => Some cause_no_dc
  | [_] => if decide (replicas > 1 /\ multi = true)
           then Some (cause_too_few replicas 1) else None
  | _ => None
  end.
Proof.
  unfold not_enough_dcs. destruct dcs as [|a [|b dcs]]; cbn [length].
  - done.
  - rewrite decide_False by lia.
    repeat case_decide; try done; exfalso; intuition lia.
  - rewrite decide_False by lia. rewrite decide_False by lia. done.
Qed.

(** C5, as the code has it.  For an installed topology and a defined size,
    [choose] fails before it builds any set in exactly two cases: no
    datacenter qualifies, and the cause is "no DC with sufficient space"; or
    one datacenter qualifies while more than one replica is asked for in
    multi-datacenter mode, and the cause cites the replica and datacenter
    counts.  In every other case the call shuffles the candidates and builds
    sets, and an error can only come from a set. *)
Theorem choose_fails_early_exactly self opts rnd sz :
  installed self -> choose_size self opts = Some sz ->
  (candidates self opts sz = [] ->
     choose self opts rnd =
       (Ret (CbErr (NotEnoughSpaceError (Some sz)
                      "no DC with sufficient space")), self)) /\
  (forall dc,
     candidates self opts sz = [dc] ->
     choose_replicas opts > 1 -> multiDC self = true ->
     choose self opts rnd =
       (Ret (CbErr (NotEnoughSpaceError (Some sz)
               (pretty (choose_replicas opts) +:+
                " copies requested, but only 1 DC(s) have sufficient space"))),
        self)) /\
  (candidates self opts sz <> [] ->
   (choose_replicas opts > 1 -> multiDC self = true ->
    (2 <= length (candidates self opts sz))%nat) ->
   exists offsets,
     choose self opts rnd =
       finish self (choose_select rnd self opts (candidates self opts sz)
                      offsets (initial_state self)) /\
     forall err self',
       choose self opts rnd = (Ret (CbErr err), self') ->
       err = NotEnoughSpaceError (Some sz)
               "copies requested exceeds number of available storage nodes" \/
       err = NotEnoughSpaceError (Some sz)
               "insufficient number of DCs selected").
Proof.
  intros Hinst Hsz.
  destruct (choose_filter_installed self opts sz Hinst Hsz)
    as (m & names & offsets & Hm & Hn & Hok & Hfilter & _ & _).
  split; [|split].
  - intros Hnone. unfold choose. rewrite Hn, Hfilter, Hnone.
    by rewrite not_enough_dcs_cases, Hsz.
  - intros dc Hone Hrep Hmulti. unfold choose. rewrite Hn, Hfilter, Hone.
    rewrite not_enough_dcs_cases, decide_True by done. by rewrite Hsz.
  - intros Hsome Hmany.
    assert (Hchk : not_enough_dcs (multiDC self) (choose_replicas opts)
                     (candidates self opts sz) = None).
    { rewrite not_enough_dcs_cases.
      destruct (candidates self opts sz) as [|a [|b l]]; [done| |done].
      case_decide as Hc; [|done]. destruct Hc as [? ?].
      cbn in Hmany. specialize (Hmany ltac:(done) ltac:(done)). lia. }
    exists offsets. split.
    + unfold choose. rewrite Hn, Hfilter, Hchk. unfold finish.
      by destruct (choose_select _ _ _ _ _ _).
    + intros err self' Hrun. apply choose_inv in Hrun
        as [[_ [[Hno _]|(names' & Hn' & Hf)]]
           |(dcs0 & dcs & offs & st0 & _ & Hfin)].
      * congruence.
      * rewrite Hn in Hn'. simplify_eq. rewrite Hfilter in Hf.
        destruct Hf as (cause & Hc & _). congruence.
      * unfold finish in Hfin.
        destruct (loop_of rnd self opts dcs offs 3 [] st0)
          as [r st'] eqn:Hloop.
        cbn in Hfin. simplify_eq.
        apply choose_loop_err in Hloop. by rewrite Hsz in Hloop.
Qed.

Lemma one_dc_client_installed : installed one_dc_client.
Proof. apply sortAndStoreDcs_installed. Qed.

Lemma two_dc_client_installed : installed two_dc_client.
Proof. apply sortAndStoreDcs_installed. Qed.

Lemma choose_fails_early_exactly_witness :
  installed one_dc_client /\
  choose_size one_dc_client (request 2 20) = Some 20 /\
  candidates one_dc_client (request 2 20) 20 = [] /\
  choose one_dc_client (request 2 20) zeros =
    (Ret (CbErr (NotEnoughSpaceError (Some 20)
                   "no DC with sufficient space")), one_dc_client).
Proof.
  assert (Hsz : choose_size one_dc_client (request 2 20) = Some 20)
    by (vm_compute; reflexivity).
  assert (Hc : candidates one_dc_client (request 2 20) 20 = [])
    by (vm_compute; reflexivity).
  split; [exact one_dc_client_installed|]. split; [exact Hsz|].
  split; [exact Hc|].
  exact (proj1 (choose_fails_early_exactly one_dc_client (request 2 20) zeros
                  20 one_dc_client_installed Hsz) Hc).
Defined.

(** Against C5 as stated: the cause [choose] reports when no datacenter
    qualifies is not the text "no datacenter with sufficient space". *)
Lemma choose_no_dc_cause_counterexample :
  installed one_dc_client /\
  candidates one_dc_client (request 2 20) 20 = [] /\
  (choose one_dc_client (request 2 20) zeros).1 =
    Ret (CbErr (NotEnoughSpaceError (Some 20) "no DC with sufficient space")) /\
  (choose one_dc_client (request 2 20) zeros).1 <>
    Ret (CbErr (NotEnoughSpaceError (Some 20)
                  "no datacenter with sufficient space")).
Proof.
  split; [exact one_dc_client_installed|].
  split; [vm_compute; reflexivity|].
  assert (Hrun : (choose one_dc_client (request 2 20) zeros).1 =
    Ret (CbErr (NotEnoughSpaceError (Some 20) "no DC with sufficient space")))
    by (vm_compute; reflexivity).
  split; [exact Hrun|]. rewrite Hrun. discriminate.
Qed.

(** ** Before and after the first installation *)

Lemma object_keys_empty {V} : object_keys (∅ : gmap string V) = [].
Proof. unfold object_keys. by rewrite map_to_list_empty. Qed.

(** [choose] has no path to a [StandaloneModeError]. *)
Lemma choose_not_standalone_error self opts rnd self' :
  choose self opts rnd <> (Ret (CbErr StandaloneModeError), self').
Proof.
  intros [[_ [[_ ?]|(names & _ & Hf)]]
         |(dcs0 & dcs & offsets & st0 & _ & Hfin)]%choose_inv; [done| |].
  - destruct (forEach_filter _ _ _ _) as [[? ?]| |]; try done.
    by destruct Hf as (? & _ & ?).
  - unfold finish in Hfin.
    destruct (loop_of rnd self opts dcs offsets 3 [] st0) as [r st'] eqn:Hloop.
    cbn in Hfin. simplify_eq.
    by apply choose_loop_err in Hloop as [?|?].
Qed.

(** C7, as the code has it.  [choose] never reports a [StandaloneModeError],
    in either mode.  It does need an installed topology: the constructor
    leaves the maps and the datacenter arrays null, and a [choose] issued
    right after construction throws a [TypeError] instead of calling back.
    Against an installed topology that is empty, on any client and for any
    request, [choose] calls back, with a [NotEnoughSpaceError] of cause
    "no DC with sufficient space", and leaves the client as it is. *)
Theorem choose_needs_installed_topology (copts : client_opts)
    (opts : choose_opts) (rnd : nat -> nat) :
  (forall self self',
     choose self opts rnd <> (Ret (CbErr StandaloneModeError), self')) /\
  choose (StorinfoClient copts) opts rnd
    = (Throw TypeError, StorinfoClient copts) /\
  (forall self,
     choose (sortAndStoreDcs self ∅ ∅) opts rnd
       = (Ret (CbErr (NotEnoughSpaceError (choose_size self opts)
                        "no DC with sufficient space")),
          sortAndStoreDcs self ∅ ∅)).
Proof.
  split; [|split].
  - intros self self'. apply choose_not_standalone_error.
  - unfold choose, choose_datacenters.
    by destruct (choose_isOperator opts).
  - intros self. unfold choose, choose_datacenters, sortAndStoreDcs.
    cbn [datacenters operatorDatacenters multiDC].
    rewrite !(object_keys_empty (V:=list shark)). cbn [length].
    by destruct (choose_isOperator opts).
Qed.

(** Against C7 as stated: right after construction [choose] throws, in
    either mode; it does not complete by calling back. *)
Lemma choose_after_construction_counterexample :
  (choose (StorinfoClient standalone_opts) no_opts zeros).1 = Throw TypeError /\
  (choose (StorinfoClient polling_opts) (request 1 1) zeros).1
    = Throw TypeError /\
  ~ exists cb,
      (choose (StorinfoClient standalone_opts) no_opts zeros).1 = Ret cb.
Proof.
  split; [reflexivity|]. split; [reflexivity|]. by intros [cb ?].
Qed.

(** ** Defaults *)

Lemma ceil_div_bounds (n : Z) :
  (ceil_div n 1048576 - 1) * 1048576 < n <= ceil_div n 1048576 * 1048576.
Proof.
  unfold ceil_div.
  pose proof (Z.div_mod (- n) 1048576 ltac:(lia)).
  pose proof (Z.mod_pos_bound (- n) 1048576 ltac:(lia)). lia.
Qed.

(** What the code does for sizes and replica counts: a positive byte count
    is rounded up to whole megabytes; without one the size is the client's
    [defMaxSizeMB]; a client that polls has it set, to 5120 by default; the
    replica count defaults to 2. *)
Lemma choose_defaults (self : client) (copts : client_opts) :
  (forall replicas n,
     0 < n ->
     exists k, choose_size self (mkChooseOpts replicas (Some n) None) = Some k /\
               (k - 1) * 1048576 < n <= k * 1048576) /\
  (forall replicas b,
     choose_size self (mkChooseOpts replicas None b) = defMaxSizeMB self) /\
  (forall p, o_pollInterval copts = Some p -> o_standalone copts = false ->
     o_defaultMaxStreamingSizeMB copts = None ->
     defMaxSizeMB (StorinfoClient copts) = Some 5120) /\
  (forall sz b, choose_replicas (mkChooseOpts None sz b) = 2).
Proof.
  split; [|split; [|split]].
  - intros replicas n Hn. unfold choose_size. cbn [opt_size js_or].
    rewrite (decide_False (P := n = 0)) by lia.
    pose proof (ceil_div_bounds n).
    rewrite (decide_False (P := ceil_div n 1048576 = 0)) by lia. eauto.
  - done.
  - intros p Hp Hs Hd. unfold StorinfoClient. cbn. by rewrite Hp, Hs, Hd.
  - done.
Qed.

(** C9 at the failing input.  A standalone client, even one given
    [defaultMaxStreamingSizeMB: 5120] as in the tests, has no [defMaxSizeMB]:
    for a request without a size the effective size is undefined, not 5120,
    and [choose] on an installed topology throws in [lower_bound]. *)
Theorem choose_default_size_standalone :
  o_defaultMaxStreamingSizeMB standalone_opts = Some 5120 /\
  defMaxSizeMB (StorinfoClient standalone_opts) = None /\
  choose_size (sortAndStoreDcs (StorinfoClient standalone_opts) two_dcs two_dcs)
    no_opts = None /\
  (choose (sortAndStoreDcs (StorinfoClient standalone_opts) two_dcs two_dcs)
     no_opts zeros).1 = Throw AssertionError.
Proof.
  split; [reflexivity|]. split; [reflexivity|]. split; [reflexivity|].
  vm_compute. reflexivity.
Qed.

(** ** A call whose datacenters keep their own offsets *)

Section aligned_run.
Variable rnd : nat -> nat.
Variable m : gmap string (list shark).
Variable sz : Z.
Variable dcs : list string.
Variable offsets : list Z.
Variable replicas : Z.
Variable size : option Z.
Variable multi : bool.
Hypothesis dcs_nonempty : dcs <> [].
Hypothesis dcs_aligned : aligned m sz dcs offsets.
Hypothesis offsets_found : Forall (fun off => off <> -1) offsets.
Hypothesis lists_sorted : forall dc l, m !! dc = Some l -> sorted_by_capacity l.

Lemma aligned_lookup (ndx : Z) :
  0 <= ndx < Z.of_nat (length dcs) ->
  exists name off l,
    js_get dcs ndx = Some name /\ js_get offsets ndx = Some off /\
    m !! name = Some l /\
    0 <= off < Z.of_nat (length l) /\ splits l sz off.
Proof.
  intros Hndx. destruct (js_get_in_range dcs ndx Hndx) as [name Hname].
  pose proof Hname as [_ Hname']%js_get_Some.
  destruct (Forall2_lookup_l _ _ _ _ _ dcs_aligned Hname')
    as (off & Hoff & Hlb).
  assert (Hne : off <> -1).
  { rewrite Forall_forall in offsets_found. apply offsets_found.
    by eapply list_elem_of_lookup_2. }
  destruct (m !! name) as [l|] eqn:Hl; [|done].
  destruct (lower_bound_qualifies m sz name l Hl (lists_sorted _ _ Hl))
    as (off' & Hoff' & _ & Hvalid).
  rewrite Hl in Hoff'. rewrite Hlb in Hoff'. simplify_eq.
  exists name, off', l. split; [done|]. split; [|by split; [|apply Hvalid]].
  apply js_get_Some. split; [lia|done].
Qed.

(** [host] returns, and a shark it returns has room; it returns [null] only
    when something has been seen. *)
Lemma host_aligned st :
  -1 <= st_dcIndex st ->
  exists r st',
    host rnd (Some m) dcs offsets st = (Ret r, st') /\
    -1 <= st_dcIndex st' /\
    match r with
    | Some h => from_snapshot m sz h
    | None => st_seen st <> []
    end.
Proof.
  intros Hidx. unfold host, bind, next_dcIndex.
  set (ndx := if decide (st_dcIndex st + 1 >= Z.of_nat (length dcs))
              then 0 else st_dcIndex st + 1).
  assert (Hndx : 0 <= ndx < Z.of_nat (length dcs)).
  { subst ndx. destruct dcs; [done|]. cbn [length]. case_decide; lia. }
  destruct (aligned_lookup ndx Hndx)
    as (name & off & l & Hname & Hoff & Hl & Hrange & [_ Habove]).
  cbn [st_dcIndex]. rewrite Hname, Hoff, Hl.
  set (st1 := {| st_dcIndex := ndx; st_seen := st_seen st;
                 st_draws := st_draws st |}).
  destruct (random_no_skip rnd off (Z.of_nat (length l) - 1) st1)
    as (start & Hs & Hstart).
  specialize (Hstart ltac:(lia)).
  destruct (host_pick_from rnd l off start st1 Hs ltac:(lia) ltac:(lia))
    as (r & st' & Hpick & Hr).
  pose proof (host_pick_cases _ _ _ _ _ _ Hpick) as [Hidx' _].
  exists r, st'. split; [done|]. split; [rewrite Hidx'; cbn; lia|].
  destruct r as [h|].
  - destruct Hr as (i & x & Hi & Hx & _ & -> & _).
    exists name, l, x. split; [done|]. split; [by eapply js_get_elem_of|].
    split; [done|]. apply (Habove i x Hx). lia.
  - destruct Hr as [Hall _]. cbn in Hall.
    destruct (js_get_in_range l off Hrange) as [x Hx].
    specialize (Hall off x ltac:(lia) Hx). intros Hnil. rewrite Hnil in Hall.
    by apply elem_of_nil in Hall.
Qed.

Lemma set_loop_aligned (n : nat) (s : list replica) st :
  -1 <= st_dcIndex st -> Forall (from_snapshot m sz) s ->
  exists r st',
    set_loop rnd (Some m) dcs offsets n s st = (Ret r, st') /\
    -1 <= st_dcIndex st' /\
    match r with
    | Some t => Forall (from_snapshot m sz) t
    | None => st_seen st <> [] \/ (1 < n)%nat
    end.
Proof.
  revert s st. induction n as [|n IH]; intros s st Hidx Hs.
  { by exists (Some s), st. }
  cbn [set_loop]. unfold bind.
  destruct (host_aligned st Hidx) as (rh & st1 & Hhost & Hidx1 & Hrh).
  rewrite Hhost. destruct rh as [h|].
  - destruct (IH (s ++ [h]) st1 Hidx1) as (r & st' & Hrun & Hidx' & Hr).
    { apply Forall_app. split; [done|]. by constructor. }
    exists r, st'. split; [done|]. split; [done|].
    destruct r as [t|]; [done|]. right.
    destruct n as [|n]; [done|lia].
  - exists None, st1. split; [done|]. split; [done|]. by left.
Qed.

Lemma choose_loop_aligned (n : nat) sharks st :
  -1 <= st_dcIndex st -> Forall (Forall (from_snapshot m sz)) sharks ->
  exists r st',
    choose_loop rnd (Some m) dcs offsets replicas size multi n sharks st
      = (Ret r, st') /\
    match r with
    | CbOk out => Forall (Forall (from_snapshot m sz)) out
    | CbErr _ => ~ (replicas = 1 /\ (sharks <> [] \/ st_seen st = []))
    end.
Proof.
  revert sharks st. induction n as [|n IH]; intros sharks st Hidx Hsharks.
  { by exists (CbOk sharks), st. }
  rewrite choose_loop_step. unfold set.
  destruct (set_loop_aligned (Z.to_nat replicas) [] st Hidx ltac:(constructor))
    as (tuple & st1 & Hset & Hidx1 & Htuple).
  rewrite Hset.
  destruct (place_tuple replicas size multi sharks tuple)
    as [err|sharks'] eqn:Hplace.
  - exists (CbErr err), st1. split; [done|]. intros [-> Hfirst].
    apply place_tuple_inl in Hplace
        as [(-> & _ & Hshort)|(t & _ & _ & ? & _)]; [|lia].
    destruct Hfirst as [?|Hseen]; [done|].
    destruct tuple as [t|].
    + apply set_loop_length in Hset. cbn in Hset. lia.
    + destruct Htuple as [?|?]; [done|]. cbn in *. lia.
  - apply place_tuple_inr in Hplace
        as [(-> & -> & Hne)|(t & -> & -> & _)].
    + destruct (IH sharks st1 Hidx1 Hsharks) as (r & st' & Hrun & Hr).
      exists r, st'. split; [done|].
      destruct r as [err|out]; [|done]. intros [-> _]. apply Hr. auto.
    + destruct (IH (sharks ++ [t]) st1 Hidx1) as (r & st' & Hrun & Hr).
      { apply Forall_app. split; [done|]. by constructor. }
      exists r, st'. split; [done|].
      destruct r as [err|out]; [|done]. intros [-> _]. apply Hr.
      split; [done|]. left. by destruct sharks.
Qed.
End aligned_run.

(** ** When the shuffle cannot misplace an offset *)

Lemma Forall2_of_Forall {A B} (P : A -> B -> Prop) (l : list A) (k : list B) :
  length l = length k ->
  Forall (fun a => Forall (P a) k) l -> Forall2 P l k.
Proof.
  revert k. induction l as [|a l IH]; intros [|b k] Hlen Hall;
    simplify_eq/=; constructor.
  - apply Forall_cons in Hall as [Ha _]. by apply Forall_cons in Ha as [? _].
  - apply IH; [done|]. apply Forall_cons in Hall as [_ Hall].
    eapply Forall_impl; [exact Hall|]. cbn.
    by intros a' [_ ?]%Forall_cons.
Qed.

(** If every candidate datacenter has the same offset, as when every shark
    has room, each datacenter keeps its own offset under any shuffle. *)
Lemma prepared_aligned_uniform rnd self opts sz m off dcs0 dcs offsets st0 :
  installed self -> choose_size self opts = Some sz ->
  choose_sharkMap self opts = Some m ->
  (forall dc, dc ∈ candidates self opts sz ->
              lower_bound (m !! dc) (Some sz) None None = Ret off) ->
  prepared rnd self opts dcs0 dcs offsets st0 ->
  aligned m sz dcs offsets.
Proof.
  intros Hinst Hsz Hm Huni Hprep.
  destruct (prepared_state _ _ _ _ _ _ _ Hprep) as (_ & _ & Hperm).
  destruct Hprep as (names & Hn & Hf & _ & _).
  destruct (choose_filter_installed self opts sz Hinst Hsz)
    as (m' & names' & offsets' & Hm' & Hn' & _ & Hf' & Hal & _).
  assert (m' = m) as -> by congruence.
  assert (names' = names) as -> by congruence.
  rewrite Hf in Hf'. simplify_eq.
  assert (Hoffs : Forall (fun o => o = off) offsets').
  { unfold aligned in Hal. rewrite Forall_forall. intros o Ho.
    apply list_elem_of_lookup_1 in Ho as [i Hi].
    destruct (Forall2_lookup_r _ _ _ _ _ Hal Hi) as (dc & Hdc & Hlb).
    rewrite (Huni dc) in Hlb by by eapply list_elem_of_lookup_2.
    by simplify_eq. }
  apply Forall2_of_Forall.
  - rewrite Hperm. by eapply Forall2_length.
  - apply Forall_forall. intros dc Hdc. rewrite Hperm in Hdc.
    eapply Forall_impl; [exact Hoffs|]. cbn. intros o ->. by apply Huni.
Qed.

(** What the code guarantees while the shuffle leaves each candidate
    datacenter at the index of its own offset.  Take an installed topology,
    a defined size, and at least one datacenter with a shark of that
    capacity.  Then [choose] calls back.  A result holds between one and
    three replica sets, and every member of every set is a shark of the
    topology with [availableMB >= size].  An error is a
    [NotEnoughSpaceError] (one datacenter for several replicas in
    multi-datacenter mode, not enough unseen sharks for the first set, or a
    set within one datacenter), and there is none when a single replica is
    asked for. *)
Theorem choose_picks_qualifying_nodes self opts rnd sz m :
  installed self -> -1 <= dcIndex self ->
  choose_size self opts = Some sz ->
  choose_sharkMap self opts = Some m ->
  (exists dc l x, m !! dc = Some l /\ x ∈ l /\ availableMB x >= sz) ->
  (forall dcs0 dcs offsets st0,
     prepared rnd self opts dcs0 dcs offsets st0 -> aligned m sz dcs offsets) ->
  exists r self',
    choose self opts rnd = (Ret r, self') /\
    match r with
    | CbOk sharks =>
        (1 <= length sharks <= 3)%nat /\
        forall t h, t ∈ sharks -> h ∈ t ->
          exists dc l x, m !! dc = Some l /\ x ∈ l /\ h = replica_of x /\
                         availableMB x >= sz
    | CbErr err =>
        choose_replicas opts <> 1 /\
        exists cause, err = NotEnoughSpaceError (Some sz) cause /\
          (cause = pretty (choose_replicas opts) +:+
             " copies requested, but only 1 DC(s) have sufficient space" \/
           cause = "copies requested exceeds number of available storage nodes"
           \/ cause = "insufficient number of DCs selected")
    end.
Proof.
  intros Hinst Hidx Hsz Hm (dc & l & x & Hl & Hx & Hcap) Haligned.
  destruct (choose_filter_installed self opts sz Hinst Hsz)
    as (m' & names & offsets & Hm' & Hn & Hok & Hfilter & _ & Hfound).
  assert (m' = m) as -> by congruence. clear Hm'.
  destruct Hok as (_ & Hkeys & Hsorted).
  assert (Hcand : dc ∈ candidates self opts sz).
  { unfold candidates. rewrite Hm, Hn. apply list_elem_of_filter. split.
    - unfold qualifies. rewrite Hl. apply Exists_exists. eauto.
    - apply Hkeys. by exists l. }
  destruct (not_enough_dcs (multiDC self) (choose_replicas opts)
              (candidates self opts sz)) as [cause|] eqn:Hchk.
  - exists (CbErr (NotEnoughSpaceError (Some sz) cause)), self.
    split. { unfold choose. by rewrite Hn, Hfilter, Hchk, Hsz. }
    rewrite not_enough_dcs_cases in Hchk.
    destruct (candidates self opts sz) as [|a [|b cs]];
      [by apply elem_of_nil in Hcand| |done].
    case_decide as Hc; [|done]. destruct Hc as [Hrep _]. simplify_eq.
    split; [lia|]. eexists. split; [done|]. by left.
  - destruct (shuffle_ret rnd (candidates self opts sz) (initial_state self))
      as (dcs & st0 & Hsh & Hperm & Hseen & Hidx0).
    assert (Hprep : prepared rnd self opts (candidates self opts sz) dcs
                      offsets st0) by by exists names.
    assert (Hdcs : dcs <> []).
    { intros ->. apply Permutation_nil_l in Hperm.
      rewrite <- Hperm in Hcand. by apply elem_of_nil in Hcand. }
    destruct (choose_loop_aligned rnd m sz dcs offsets (choose_replicas opts)
                (choose_size self opts) (multiDC self) Hdcs
                (Haligned _ _ _ _ Hprep) Hfound Hsorted 3 [] st0)
      as (r & st' & Hloop & Hr).
    { rewrite Hidx0. done. }
    { constructor. }
    exists r, (store_dcIndex self st'). split.
    { rewrite (choose_prepared _ _ _ _ _ _ _ Hprep). unfold loop_of.
      rewrite Hm. by rewrite Hloop. }
    destruct r as [err|sharks].
    + split.
      * intros Hone. apply Hr. split; [done|]. right. by rewrite Hseen.
      * apply choose_loop_err in Hloop. rewrite Hsz in Hloop.
        destruct Hloop as [->| ->]; eexists; (split; [done|]); auto.
    + split.
      * apply choose_loop_ok in Hloop as (new & Hout & Hlen & Hne & _).
        cbn in Hout. subst new.
        destruct sharks; [by destruct Hne; [lia|]|]. cbn in *. lia.
      * intros t h Ht Hh. rewrite Forall_forall in Hr.
        specialize (Hr t Ht). rewrite Forall_forall in Hr. exact (Hr h Hh).
Qed.

Lemma skewed_client_installed : installed skewed_client.
Proof. apply sortAndStoreDcs_installed. Qed.

Lemma choose_picks_qualifying_nodes_witness :
  installed skewed_client /\
  choose_size skewed_client (request 2 20) = Some 20 /\
  exists r self', choose skewed_client (request 2 20) ones = (Ret r, self').
Proof.
  set (m := array_sort storageZoneComparator <$> skewed_dcs).
  assert (Hsz : choose_size skewed_client (request 2 20) = Some 20)
    by (vm_compute; reflexivity).
  assert (Hm : choose_sharkMap skewed_client (request 2 20) = Some m)
    by reflexivity.
  assert (Hidx : -1 <= dcIndex skewed_client) by (vm_compute; discriminate).
  assert (Hq : exists dc l x,
             m !! dc = Some l /\ x ∈ l /\ availableMB x >= 20).
  { exists "dc1", [shark_x1; shark_x2; shark_x3], shark_x1.
    split; [vm_compute; reflexivity|]. split; [by left|].
    vm_compute. discriminate. }
  assert (Hal : forall dcs0 dcs offsets st0,
             prepared ones skewed_client (request 2 20) dcs0 dcs offsets st0 ->
             aligned m 20 dcs offsets).
  { intros dcs0 dcs offsets st0 (names & Hn & Hf & _ & Hsh).
    vm_compute in Hn. injection Hn as <-.
    vm_compute in Hf. injection Hf as <- <-.
    vm_compute in Hsh. injection Hsh as <- _.
    repeat constructor; vm_compute; reflexivity. }
  split; [exact skewed_client_installed|]. split; [exact Hsz|].
  destruct (choose_picks_qualifying_nodes skewed_client (request 2 20) ones
              20 m skewed_client_installed Hidx Hsz Hm Hq Hal)
    as (r & self' & Hrun & _).
  by exists r, self'.
Defined.

(** One datacenter with a shark that has room does not make the call
    succeed: two replicas in multi-datacenter mode need two candidate
    datacenters, and the [enoughDCs] test rejects the request. *)
Lemma choose_single_dc_counterexample :
  installed one_dc_client /\
  choose_size one_dc_client (request 2 5) = Some 5 /\
  (exists m dc l x,
     choose_sharkMap one_dc_client (request 2 5) = Some m /\
     m !! dc = Some l /\ x ∈ l /\ availableMB x >= 5) /\
  (choose one_dc_client (request 2 5) zeros).1 =
    Ret (CbErr (NotEnoughSpaceError (Some 5)
           "2 copies requested, but only 1 DC(s) have sufficient space")) /\
  ~ exists sharks,
      (choose one_dc_client (request 2 5) zeros).1 = Ret (CbOk sharks).
Proof.
  split; [exact one_dc_client_installed|].
  split; [vm_compute; reflexivity|]. split.
  { exists (array_sort storageZoneComparator <$> one_dc), "dc1", [shark_a],
      shark_a.
    split; [reflexivity|]. split; [vm_compute; reflexivity|].
    split; [by left|]. vm_compute. discriminate. }
  assert (Hrun : (choose one_dc_client (request 2 5) zeros).1 =
    Ret (CbErr (NotEnoughSpaceError (Some 5)
           "2 copies requested, but only 1 DC(s) have sufficient space")))
    by (vm_compute; reflexivity).
  split; [exact Hrun|]. rewrite Hrun. by intros [sharks ?].
Qed.

(** ** The offsets after the shuffle

    [shuffle] permutes [dcs] and leaves [offsets] alone, so a datacenter can
    be searched from the offset of another one. *)

(** C1.  The code at the failing input.  [skewed_client] has an installed
    topology with three sharks of 50, 60 and 70 MB in dc1 and three of 5, 8
    and 30 MB in dc2; the request asks for two replicas of 20 MB, so both
    datacenters hold a shark with room, at the offsets 0 and 2; every draw
    of [Math.random()] is 0.  The shuffle then swaps the two datacenter
    names and leaves the offsets where they were, [host] searches dc2 from
    the offset of dc1, and [choose] returns [y1], the shark of 5 MB: a
    member of the returned set has less room than was asked for, and the
    topology holds no shark of that id with enough. *)
Theorem choose_returns_shark_without_room :
  installed skewed_client /\
  choose_size skewed_client (request 2 20) = Some 20 /\
  (exists m dc l x,
     choose_sharkMap skewed_client (request 2 20) = Some m /\
     m !! dc = Some l /\ x ∈ l /\ availableMB x >= 20) /\
  (choose skewed_client (request 2 20) zeros).1 =
    Ret (CbOk [[replica_of shark_y1; replica_of shark_x3]]) /\
  (forall m dc l x,
     choose_sharkMap skewed_client (request 2 20) = Some m ->
     m !! dc = Some l -> x ∈ l ->
     manta_storage_id x = manta_storage_id shark_y1 ->
     availableMB x = 5 /\ availableMB x < 20).
Proof.
  split; [exact skewed_client_installed|].
  split; [vm_compute; reflexivity|]. split.
  { exists (array_sort storageZoneComparator <$> skewed_dcs), "dc1",
      [shark_x1; shark_x2; shark_x3], shark_x1.
    split; [reflexivity|]. split; [vm_compute; reflexivity|].
    split; [by left|]. vm_compute. discriminate. }
  split; [vm_compute; reflexivity|].
  intros m dc l x Hm Hl Hx Hid.
  assert (m = array_sort storageZoneComparator <$> skewed_dcs) as ->
    by (injection Hm as <-; reflexivity).
  rewrite lookup_fmap in Hl. unfold skewed_dcs in Hl.
  destruct (decide (dc = "dc1")) as [->|Hdc1].
  { rewrite lookup_insert_eq in Hl. vm_compute in Hl. injection Hl as <-.
    repeat (apply elem_of_cons in Hx as [->|Hx]; [discriminate Hid|]).
    by apply elem_of_nil in Hx. }
  rewrite lookup_insert_ne in Hl by done.
  destruct (decide (dc = "dc2")) as [->|Hdc2].
  { rewrite lookup_insert_eq in Hl. vm_compute in Hl. injection Hl as <-.
    apply elem_of_cons in Hx as [->|Hx]; [by vm_compute|].
    repeat (apply elem_of_cons in Hx as [->|Hx]; [discriminate Hid|]).
    by apply elem_of_nil in Hx. }
  by rewrite lookup_insert_ne in Hl.
Qed.

(** With a shorter dc1 the foreign offset is past its end and the call
    throws. *)
Example shuffle_misplaced_offset_throws :
  (choose short_client (request 2 20) zeros).1 = Throw TypeError.
Proof. vm_compute. reflexivity. Qed.

(** The [seen] array is the call's own: a second call returns the sharks of
    the first one again. *)
Example seen_is_reset_between_calls :
  let run1 := choose two_dc_client (request 2 5) zeros in
  let run2 := choose run1.2 (request 2 5) zeros in
  run1.1 = Ret (CbOk [[replica_of shark_b; replica_of shark_a]]) /\
  run2.1 = Ret (CbOk [[replica_of shark_b; replica_of shark_a]]).
Proof. vm_compute. split; reflexivity. Qed.

(** * Further properties of the code *)

(** ** [shuffle] and [random] *)

Lemma shuffle_loop_draws {A} rnd (m : nat) (array : list A) st r st' :
  shuffle_loop rnd m array st = (r, st') ->
  st_draws st' = (st_draws st + m)%nat.
Proof.
  revert array st. induction m as [|m IH]; intros array st.
  { intros [= <- <-]. lia. }
  cbn [shuffle_loop]. unfold bind.
  destruct (math_random_floor_ret rnd (Z.of_nat (S m)) st) as (i & Hi & _).
  rewrite Hi.
  destruct (array !! m), (js_get array i); intros Hrun%IH;
    rewrite Hrun; cbn; lia.
Qed.

(** X1.  [shuffle] returns a permutation of the array it is given; it calls
    [Math.random] once per element and touches neither [seen] nor the
    cursor. *)
Theorem shuffle_permutes {A} rnd (array : list A) (st : sel_state) :
  exists array',
    shuffle rnd array st =
      (Ret array', {| st_dcIndex := st_dcIndex st; st_seen := st_seen st;
                      st_draws := st_draws st + length array |}) /\
    array' ≡ₚ array.
Proof.
  destruct (shuffle_ret rnd array st) as (array' & st' & Hrun & Hperm & Hs & Hi).
  exists array'. split; [|done]. rewrite Hrun. f_equal.
  apply shuffle_loop_draws in Hrun. destruct st'. cbn in *. by subst.
Qed.

Lemma random_hits (min max v : Z) (st : sel_state) :
  min <= v <= max ->
  exists rnd, random rnd min max None st = (Ret v, after_draw st).
Proof.
  intros Hv. exists (fun _ => Z.to_nat (v - min)).
  unfold random, bind, math_random_floor, ret, after_draw. cbn.
  rewrite (decide_False (P := None = Some _)) by done.
  rewrite decide_True by lia. rewrite Z2Nat.id by lia.
  rewrite Z.mod_small by lia. do 2 f_equal. lia.
Qed.

(** X2.  Without [skip], [random(min, max)] with [min <= max] returns an
    integer of [min .. max], and every integer of that range is returned for
    some draw. *)
Theorem random_range_onto (min max : Z) (st : sel_state) :
  min <= max ->
  (forall rnd, exists v,
     random rnd min max None st = (Ret v, after_draw st) /\ min <= v <= max) /\
  (forall v, min <= v <= max ->
     exists rnd, random rnd min max None st = (Ret v, after_draw st)).
Proof.
  intros Hle. split.
  - intros rnd. destruct (random_no_skip rnd min max st) as (v & Hv & Hr).
    exists v. split; [done|]. by apply Hr.
  - intros v Hv. by apply random_hits.
Qed.

Lemma random_range_onto_witness :
  2 <= 4 /\
  exists rnd, random rnd 2 4 None (mkSel (-1) [] 0)
              = (Ret 3, after_draw (mkSel (-1) [] 0)).
Proof.
  assert (H : 2 <= 4) by lia. split; [exact H|].
  exact (proj2 (random_range_onto 2 4 (mkSel (-1) [] 0) H) 3 ltac:(lia)).
Defined.

(** X3.  With a [skip], [random] over [min .. max], [0 <= min <= max] and
    [2 <= max], never returns [skip], and what it returns lies in
    [0 .. max]: the replacement [(num + 1) % max] of a skipped number can
    fall below [min]. *)
Theorem random_avoids_skip rnd (min max skip : Z) (st : sel_state) :
  0 <= min <= max -> 2 <= max ->
  exists v,
    random rnd min max (Some skip) st = (Ret v, after_draw st) /\
    v <> skip /\ 0 <= v <= max /\ (min <= v \/ v = Z.rem (skip + 1) max).
Proof.
  intros Hmin Hmax.
  unfold random, bind, math_random_floor, ret, after_draw. cbn.
  rewrite !(decide_True (P := 0 < _)) by lia.
  pose proof (Z.mod_pos_bound (Z.of_nat (rnd (st_draws st))) (max - min + 1)
                ltac:(lia)) as Hd.
  set (num := Z.of_nat (rnd (st_draws st)) `mod` (max - min + 1) + min) in *.
  destruct (decide (Some skip = Some num)) as [Heq|Hne].
  - injection Heq as ->. eexists. split; [reflexivity|].
    rewrite Z.rem_mod_nonneg by lia.
    pose proof (Z.mod_pos_bound (num + 1) max ltac:(lia)).
    split; [|split; [lia|by right]].
    destruct (decide (num = max)) as [->|].
    + replace (max + 1) with (1 + 1 * max) by lia.
      rewrite Z.mod_add by lia. rewrite Z.mod_small by lia. lia.
    + destruct (decide (num + 1 = max)) as [Hm|].
      * rewrite Hm, Z.mod_same by lia. lia.
      * rewrite Z.mod_small by lia. lia.
  - exists num. split; [reflexivity|]. split; [congruence|]. lia.
Qed.

Lemma random_avoids_skip_witness :
  0 <= 3 <= 5 /\ 2 <= 5 /\
  random (fun _ => 2%nat) 3 5 (Some 5) (mkSel (-1) [] 0)
    = (Ret 1, after_draw (mkSel (-1) [] 0)).
Proof.
  assert (H1 : 0 <= 3 <= 5) by lia. assert (H2 : 2 <= 5) by lia.
  split; [exact H1|]. split; [exact H2|].
  destruct (random_avoids_skip (fun _ => 2%nat) 3 5 5 (mkSel (-1) [] 0) H1 H2)
    as (v & Hv & _).
  rewrite Hv. vm_compute in Hv. injection Hv as <-. reflexivity.
Defined.

(** ** [storageZoneComparator] and [lower_bound] *)

(** X4.  [storageZoneComparator] is a consistent comparator: it returns -1,
    0 or 1; it returns 0 exactly for equal capacities and a negative number
    exactly when the first shark has less room; swapping the arguments
    negates the result; and "not after" is transitive. *)
Theorem storageZoneComparator_consistent (a b c : shark) :
  (storageZoneComparator a b = -1 \/ storageZoneComparator a b = 0 \/
   storageZoneComparator a b = 1) /\
  (storageZoneComparator a b = 0 <-> availableMB a = availableMB b) /\
  (storageZoneComparator a b < 0 <-> availableMB a < availableMB b) /\
  storageZoneComparator b a = - storageZoneComparator a b /\
  (storageZoneComparator a b <= 0 -> storageZoneComparator b c <= 0 ->
   storageZoneComparator a c <= 0).
Proof.
  unfold storageZoneComparator. repeat case_decide; repeat split; intros; lia.
Qed.

Lemma lower_bound_loop_returns (fuel : nat) (set : list shark)
    (size low high : Z) :
  0 <= low <= high -> high <= Z.of_nat (length set) ->
  (Z.to_nat (high - low) < fuel)%nat ->
  exists r, lower_bound_loop fuel set size low high = Ret r /\ low <= r <= high.
Proof.
  revert low high.
  induction fuel as [|fuel IH]; intros low high Hlo Hhi Hfuel; [lia|].
  simpl. case_decide as Hlt; [|exists low; split; [done|lia]].
  assert (Hmid : low <= low + (high - low) / 2 < high).
  { pose proof (Z.div_pos (high - low) 2).
    pose proof (Z.div_lt_upper_bound (high - low) 2 (high - low)). lia. }
  destruct (js_get_in_range set (low + (high - low) / 2)) as [x Hx]; [lia|].
  rewrite Hx. case_decide.
  - destruct (IH low (low + (high - low) / 2)) as (r & Hr & ?); try lia.
    exists r. split; [done|lia].
  - destruct (IH (low + (high - low) / 2 + 1) high) as (r & Hr & ?); try lia.
    exists r. split; [done|lia].
Qed.

(** X5.  Whatever the order of the list, [lower_bound(set, size)] returns
    without throwing, and what it returns is [-1] or the index of a shark
    with [availableMB >= size]: the last test of the function holds the
    result to that. *)
Theorem lower_bound_any_order (set : list shark) (size : Z) :
  exists r,
    lower_bound (Some set) (Some size) None None = Ret r /\
    (r = -1 \/ exists x, js_get set r = Some x /\ availableMB x >= size).
Proof.
  unfold lower_bound. cbn [js_or].
  destruct (lower_bound_loop_returns
              (S (Z.to_nat (Z.of_nat (length set) - 0))) set size 0
              (Z.of_nat (length set))) as (r & Hr & _); try lia.
  rewrite Hr. cbn [res_bind].
  destruct (js_get set r) as [x|] eqn:Hx; [|by exists (-1); split; [|left]].
  case_decide.
  - exists (-1). split; [done|]. by left.
  - exists r. split; [done|]. right. exists x. split; [done|lia].
Qed.

(** X6.  On a sorted list the offset grows with the size: if the larger size
    has an offset, the smaller one has an offset too, and it is not
    larger. *)
Theorem lower_bound_monotone (set : list shark) (size1 size2 r1 r2 : Z) :
  sorted_by_capacity set -> size1 <= size2 ->
  lower_bound (Some set) (Some size1) None None = Ret r1 ->
  lower_bound (Some set) (Some size2) None None = Ret r2 ->
  r2 <> -1 -> 0 <= r1 <= r2.
Proof.
  intros Hs Hle H1 H2 Hne.
  destruct (lower_bound_call set size1 Hs) as (r1' & Hr1 & Hc1).
  destruct (lower_bound_call set size2 Hs) as (r2' & Hr2 & Hc2).
  rewrite H1 in Hr1. rewrite H2 in Hr2. simplify_eq.
  destruct Hc2 as [[? _]|[Hrange2 [_ Habove2]]]; [done|].
  destruct (js_get_in_range set r2' Hrange2) as [x Hx].
  pose proof (Habove2 r2' x Hx ltac:(lia)) as Hx2.
  destruct Hc1 as [[-> Hall]|[Hrange1 [Hbelow1 _]]].
  - rewrite Forall_forall in Hall.
    pose proof (Hall x (js_get_elem_of _ _ _ Hx)). lia.
  - split; [lia|]. destruct (decide (r1' <= r2')) as [|Hgt]; [done|].
    pose proof (Hbelow1 r2' x Hx ltac:(lia)). lia.
Qed.

Lemma lower_bound_monotone_witness :
  lower_bound (Some [shark_c; shark_a; shark_d]) (Some 5) None None = Ret 1 /\
  lower_bound (Some [shark_c; shark_a; shark_d]) (Some 15) None None = Ret 2 /\
  0 <= 1 <= 2.
Proof.
  assert (Hs : sorted_by_capacity [shark_c; shark_a; shark_d]) by solve_sorted.
  assert (H1 : lower_bound (Some [shark_c; shark_a; shark_d]) (Some 5)
                 None None = Ret 1) by (vm_compute; reflexivity).
  assert (H2 : lower_bound (Some [shark_c; shark_a; shark_d]) (Some 15)
                 None None = Ret 2) by (vm_compute; reflexivity).
  split; [exact H1|]. split; [exact H2|].
  exact (lower_bound_monotone _ 5 15 1 2 Hs ltac:(lia) H1 H2 ltac:(lia)).
Defined.

(** ** Every unseen shark can be picked *)

(** X7.  No shark of the qualifying sub-range is out of reach: for each
    unseen shark at an index from [offset] on there is a draw for which
    [host] picks exactly that shark and records it. *)
Theorem host_pick_reaches (dc : list shark) (offset i : Z) (x : shark)
    (st : sel_state) :
  0 <= offset <= i -> js_get dc i = Some x ->
  manta_storage_id x ∉ st_seen st ->
  exists rnd st',
    host_pick rnd dc offset st = (Ret (Some (replica_of x)), st') /\
    st_seen st' = st_seen st ++ [manta_storage_id x].
Proof.
  intros Hoff Hx Hnew. pose proof (js_get_bound _ _ _ Hx) as Hi.
  destruct (random_hits offset (Z.of_nat (length dc) - 1) i st ltac:(lia))
    as [rnd Hrnd].
  exists rnd. unfold host_pick, bind. rewrite Hrnd, Hx.
  unfold get_seen. cbn [st_seen after_draw].
  rewrite decide_False by done. unfold ret. rewrite Hx.
  unfold push_seen. cbn. eexists. split; reflexivity.
Qed.

Lemma host_pick_reaches_witness :
  exists rnd st',
    host_pick rnd [shark_b; shark_d; shark_e] 1 (mkSel 0 ["d"] 0)
      = (Ret (Some (replica_of shark_e)), st') /\
    st_seen st' = ["d"; "e"].
Proof.
  apply (host_pick_reaches [shark_b; shark_d; shark_e] 1 2 shark_e
           (mkSel 0 ["d"] 0)); [lia|reflexivity|].
  cbn. intros [?|?%elem_of_nil]%elem_of_cons; [discriminate|done].
Defined.

(** ** The views of a poll *)

Lemma push_at_ret (obj : gmap string (list shark)) (k : string) (v : shark) :
  k ∉ object_prototype_names \/ is_Some (obj !! k) ->
  exists obj',
    push_at obj k v = Ret obj' /\
    forall dc,
      obj' !! dc =
      if decide (k = dc) then Some (default [] (obj !! dc) ++ [v])
      else obj !! dc.
Proof.
  intros Hk. unfold push_at. destruct (obj !! k) as [l|] eqn:Hl.
  - eexists. split; [reflexivity|]. intros dc. case_decide as Hdc.
    + subst. by rewrite lookup_insert_eq, Hl.
    + by rewrite lookup_insert_ne.
  - destruct Hk as [Hk|[? ?]]; [|done]. rewrite decide_False by done.
    eexists. split; [reflexivity|]. intros dc. case_decide as Hdc.
    + subst. by rewrite lookup_insert_eq, Hl.
    + by rewrite lookup_insert_ne.
Qed.

Lemma push_at_inherited (obj : gmap string (list shark)) (k : string)
    (v : shark) :
  k ∈ object_prototype_names -> obj !! k = None ->
  push_at obj k v = Throw TypeError.
Proof. intros Hk Hnone. unfold push_at. by rewrite Hnone, decide_True. Qed.

(** One row with an ordinary datacenter name. *)
Lemma sortByDatacenter_ret (u : option Z)
    (acc : gmap string (list shark) * gmap string (list shark))
    (v : storage_row) :
  own_clean acc ->
  datacenter (row_shark v) ∉ object_prototype_names ->
  exists acc',
    sortByDatacenter u acc v = Ret acc' /\ own_clean acc' /\
    (forall dc,
       acc'.2 !! dc =
       if decide (datacenter (row_shark v) = dc)
       then Some (default [] (acc.2 !! dc) ++ [row_shark v])
       else acc.2 !! dc) /\
    (forall dc,
       acc'.1 !! dc =
       if decide (datacenter (row_shark v) = dc /\
                  within_utilization u v = true)
       then Some (default [] (acc.1 !! dc) ++ [row_shark v])
       else acc.1 !! dc).
Proof.
  intros Hclean Hk. unfold sortByDatacenter.
  destruct (push_at_ret acc.2 (datacenter (row_shark v)) (row_shark v))
    as (op' & -> & Hop); [by left|]. cbn [res_bind].
  destruct (within_utilization u v) eqn:Hu.
  - destruct (push_at_ret acc.1 (datacenter (row_shark v)) (row_shark v))
      as (d' & -> & Hd); [by left|]. cbn [res_bind].
    exists (d', op'). split; [done|]. cbn [fst snd]. split; [|split].
    + intros k Hin. rewrite Hd, Hop.
      rewrite !decide_False by (intros Heq; apply Hk; by rewrite Heq).
      by apply Hclean.
    + done.
    + intros dc. rewrite Hd. by repeat case_decide; try tauto.
  - exists (acc.1, op'). split; [done|]. cbn [fst snd]. split; [|split].
    + intros k Hin. rewrite Hop.
      rewrite decide_False by (intros Heq; apply Hk; by rewrite Heq).
      by apply Hclean.
    + done.
    + intros dc. rewrite decide_False; [done|]. intros [_ ?]. congruence.
Qed.

(** One row with an inherited datacenter name. *)
Lemma sortByDatacenter_inherited (u : option Z)
    (acc : gmap string (list shark) * gmap string (list shark))
    (v : storage_row) :
  own_clean acc ->
  datacenter (row_shark v) ∈ object_prototype_names ->
  sortByDatacenter u acc v = Throw TypeError.
Proof.
  intros Hclean Hk. unfold sortByDatacenter.
  by rewrite push_at_inherited; [|done|apply Hclean].
Qed.

(** The lists after the [forEach] over rows with ordinary names. *)
Lemma forEach_sortByDatacenter_ret (u : option Z) (rows : list storage_row) :
  Forall (fun v => datacenter (row_shark v) ∉ object_prototype_names) rows ->
  forall acc : gmap string (list shark) * gmap string (list shark),
    own_clean acc ->
    exists views,
      forEach_sortByDatacenter u rows acc = Ret views /\
      forall dc,
        views.2 !! dc =
          (if decide (rows_of dc rows = []) then acc.2 !! dc
           else Some (default [] (acc.2 !! dc) ++ rows_of dc rows)) /\
        views.1 !! dc =
          (if decide (rows_within u dc rows = []) then acc.1 !! dc
           else Some (default [] (acc.1 !! dc) ++ rows_within u dc rows)).
Proof.
  induction 1 as [|v rows Hv _ IH]; intros acc Hclean.
  { exists acc. split; [done|]. intros dc.
    unfold rows_of, rows_within. cbn. split; by case_decide. }
  cbn [forEach_sortByDatacenter].
  destruct (sortByDatacenter_ret u acc v Hclean Hv)
    as (acc' & -> & Hclean' & Hop & Hd).
  cbn [res_bind]. destruct (IH acc' Hclean') as (views & -> & Hviews).
  exists views. split; [done|]. intros dc.
  destruct (Hviews dc) as [-> ->]. rewrite Hop, Hd.
  clear IH Hviews Hop Hd Hclean Hclean'.
  unfold rows_of, rows_within. split.
  - destruct (decide (datacenter (row_shark v) = dc)) as [Hdc|Hdc].
    + rewrite (filter_cons_True _ v) by done. cbn [fmap list_fmap].
      rewrite (decide_False (P := _ :: _ = [])) by done.
      case_decide as Hnil.
      * by rewrite Hnil.
      * cbn. by rewrite <- app_assoc.
    + by rewrite (filter_cons_False _ v) by done.
  - destruct (decide (datacenter (row_shark v) = dc /\
                      within_utilization u v = true)) as [Hdc|Hdc].
    + rewrite (filter_cons_True _ v) by done. cbn [fmap list_fmap].
      rewrite (decide_False (P := _ :: _ = [])) by done.
      case_decide as Hnil.
      * by rewrite Hnil.
      * cbn. by rewrite <- app_assoc.
    + by rewrite (filter_cons_False _ v) by done.
Qed.

(** A row with an inherited name ends the loop with a [TypeError]. *)
Lemma forEach_sortByDatacenter_inherited (u : option Z)
    (rows : list storage_row) :
  Exists (fun v => datacenter (row_shark v) ∈ object_prototype_names) rows ->
  forall acc : gmap string (list shark) * gmap string (list shark),
    own_clean acc ->
    forEach_sortByDatacenter u rows acc = Throw TypeError.
Proof.
  induction rows as [|v rows IH]; intros Hex acc Hclean.
  { by apply Exists_nil in Hex. }
  cbn [forEach_sortByDatacenter].
  destruct (decide (datacenter (row_shark v) ∈ object_prototype_names))
    as [Hv|Hv].
  { by rewrite sortByDatacenter_inherited. }
  destruct (sortByDatacenter_ret u acc v Hclean Hv)
    as (acc' & -> & Hclean' & _).
  cbn [res_bind]. apply IH; [|done].
  by apply Exists_cons in Hex as [?|?].
Qed.

Lemma poll_views_lookup (u : option Z) (rows : list storage_row) :
  Forall (fun v => datacenter (row_shark v) ∉ object_prototype_names) rows ->
  exists views,
    poll_views u rows = Ret views /\
    forall dc,
      views.2 !! dc =
        (if decide (rows_of dc rows = []) then None
         else Some (rows_of dc rows)) /\
      views.1 !! dc =
        (if decide (rows_within u dc rows = []) then None
         else Some (rows_within u dc rows)).
Proof.
  intros Hrows. unfold poll_views.
  destruct (forEach_sortByDatacenter_ret u rows Hrows (∅, ∅))
    as (views & Hrun & Hviews).
  { intros k _. cbn. by rewrite lookup_empty. }
  exists views. split; [done|]. intros dc.
  destruct (Hviews dc) as [-> ->]. cbn [fst snd]. by rewrite lookup_empty.
Qed.

Lemma poll_views_inherited (u : option Z) (rows : list storage_row) :
  Exists (fun v => datacenter (row_shark v) ∈ object_prototype_names) rows ->
  poll_views u rows = Throw TypeError.
Proof.
  intros Hex. apply forEach_sortByDatacenter_inherited; [done|].
  intros k _. cbn. by rewrite lookup_empty.
Qed.

(** X8.  The views the callback of [doPoll] builds.  When no row of the
    answer carries a datacenter name that a plain object inherits from
    [Object.prototype], the loop ends normally, and under a datacenter name
    the operator view holds exactly the sharks of the answer that carry this
    name, in the order of the answer, and the normal view those of them
    whose [percentUsed] is within the limit; no list of a view is empty.
    When a row carries such a name, the loop throws a [TypeError] and there
    are no views. *)
Theorem poll_views_group (u : option Z) (rows : list storage_row) :
  (Forall (fun v => datacenter (row_shark v) ∉ object_prototype_names) rows ->
   exists views,
     poll_views u rows = Ret views /\
     forall dc l,
       (views.2 !! dc = Some l <-> l = rows_of dc rows /\ l <> []) /\
       (views.1 !! dc = Some l <-> l = rows_within u dc rows /\ l <> [])) /\
  (Exists (fun v => datacenter (row_shark v) ∈ object_prototype_names) rows ->
   poll_views u rows = Throw TypeError).
Proof.
  split; [|apply poll_views_inherited].
  intros (views & Hrun & Hviews)%(poll_views_lookup u).
  exists views. split; [done|]. intros dc l.
  destruct (Hviews dc) as [-> ->].
  split; case_decide as Hnil; split.
  - done.
  - intros [-> ?]. done.
  - intros [= <-]. done.
  - by intros [-> _].
  - done.
  - intros [-> ?]. done.
  - intros [= <-]. done.
  - by intros [-> _].
Qed.

Lemma poll_views_group_witness :
  (exists views, poll_views (Some 90) poll_rows = Ret views) /\
  poll_views (Some 90) [mkRow (mkShark "p1" "constructor" 100) 10]
    = Throw TypeError.
Proof.
  destruct (poll_views_group (Some 90) poll_rows) as [Hok _].
  destruct (poll_views_group (Some 90)
              [mkRow (mkShark "p1" "constructor" 100) 10]) as [_ Hthrow].
  split.
  - destruct Hok as (views & Hrun & _).
    + unfold poll_rows. repeat constructor; cbn; by apply (bool_decide_unpack _).
    + by exists views.
  - apply Hthrow. apply Exists_cons_hd. cbn. by apply (bool_decide_unpack _).
Defined.



Lemma array_sort_keyed (m : gmap string (list shark)) :
  keyed m -> keyed (array_sort storageZoneComparator <$> m).
Proof.
  intros Hk dc l x. rewrite lookup_fmap.
  destruct (m !! dc) as [l0|] eqn:Hl0; [|done]. intros [= <-] Hx.
  apply (Hk dc l0 x Hl0).
  by rewrite <- (array_sort_perm storageZoneComparator l0).
Qed.

(** What [doPoll_install] installs, by the rows of the answer. *)
Lemma doPoll_install_ret (self : client) (rows : list storage_row) :
  Forall (fun v => datacenter (row_shark v) ∉ object_prototype_names) rows ->
  exists views,
    poll_views (utilization self) rows = Ret views /\
    doPoll_install self rows = Ret (sortAndStoreDcs self views.1 views.2) /\
    forall dc,
      views.2 !! dc =
        (if decide (rows_of dc rows = []) then None
         else Some (rows_of dc rows)) /\
      views.1 !! dc =
        (if decide (rows_within (utilization self) dc rows = []) then None
         else Some (rows_within (utilization self) dc rows)).
Proof.
  intros (views & Hrun & Hviews)%(poll_views_lookup (utilization self)).
  exists views. split; [done|]. split; [|done].
  unfold doPoll_install. by rewrite Hrun.
Qed.

(** A client installed by [doPoll_install] comes from the views of the
    rows. *)
Lemma doPoll_install_inv (self self1 : client) (rows : list storage_row) :
  doPoll_install self rows = Ret self1 ->
  exists views,
    self1 = sortAndStoreDcs self views.1 views.2 /\
    forall dc,
      views.2 !! dc =
        (if decide (rows_of dc rows = []) then None
         else Some (rows_of dc rows)) /\
      views.1 !! dc =
        (if decide (rows_within (utilization self) dc rows = []) then None
         else Some (rows_within (utilization self) dc rows)).
Proof.
  intros Hrun.
  destruct (decide (Forall (fun v => datacenter (row_shark v)
                                     ∉ object_prototype_names) rows))
    as [Hrows|Hrows].
  - destruct (doPoll_install_ret self rows Hrows)
      as (views & _ & Hinst & Hviews).
    exists views. split; [congruence|done].
  - apply not_Forall_Exists in Hrows; [|apply _].
    unfold doPoll_install in Hrun.
    rewrite poll_views_inherited in Hrun; [done|].
    eapply Exists_impl; [exact Hrows|]. cbn. intros v Hv.
    by destruct (decide (datacenter (row_shark v) ∈ object_prototype_names)).
Qed.



(** ** What [choose] does to the client *)

Section cursor.
Variable rnd : nat -> nat.
Variable sharkMap : option (gmap string (list shark)).
Variable dcs : list string.
Variable offsets : list Z.
Variable replicas : Z.
Variable size : option Z.
Variable multi : bool.

(** Whatever its outcome, [host] moves the cursor one step, around the end
    of [dcs]. *)
Lemma host_cursor st r st' :
  host rnd sharkMap dcs offsets st = (r, st') ->
  st_dcIndex st' =
    if decide (st_dcIndex st + 1 >= Z.of_nat (length dcs)) then 0
    else st_dcIndex st + 1.
Proof.
  unfold host, bind, next_dcIndex, throw.
  destruct sharkMap as [m|]; [|by intros; simplify_eq/=].
  destruct (js_get dcs _) as [name|]; [|by intros; simplify_eq/=].
  destruct (js_get offsets _) as [offset|]; [|by intros; simplify_eq/=].
  destruct (m !! name) as [dc|]; [|by intros; simplify_eq/=].
  by intros [-> _]%host_pick_cases.
Qed.

Lemma host_moved st r st' :
  host rnd sharkMap dcs offsets st = (r, st') ->
  dcs <> [] -> -1 <= st_dcIndex st ->
  0 <= st_dcIndex st' < Z.of_nat (length dcs).
Proof.
  intros ->%host_cursor Hne Hidx.
  destruct dcs; [done|]. cbn [length]. case_decide; lia.
Qed.

Lemma moved_trans (i1 i2 i3 : Z) :
  moved (Z.of_nat (length dcs)) i1 i2 -> moved (Z.of_nat (length dcs)) i2 i3 ->
  moved (Z.of_nat (length dcs)) i1 i3.
Proof. unfold moved. intros [->|?] [->|?]; auto. Qed.

Lemma set_loop_moved (n : nat) s st r st' :
  set_loop rnd sharkMap dcs offsets n s st = (r, st') ->
  dcs <> [] -> -1 <= st_dcIndex st ->
  -1 <= st_dcIndex st' /\
  moved (Z.of_nat (length dcs)) (st_dcIndex st) (st_dcIndex st').
Proof.
  intros Hrun Hne. revert s st Hrun.
  induction n as [|n IH]; intros s st; cbn [set_loop].
  { intros [= <- <-] ?. split; [done|]. by left. }
  unfold bind.
  destruct (host rnd sharkMap dcs offsets st) as [rh st1] eqn:Hhost.
  intros Hrun Hidx. pose proof (host_moved _ _ _ Hhost Hne Hidx) as H1.
  assert (Hm1 : moved (Z.of_nat (length dcs)) (st_dcIndex st) (st_dcIndex st1))
    by by right.
  destruct rh as [[h|]| |].
  - destruct (IH _ _ Hrun ltac:(lia)) as [? Hm2]. split; [done|].
    by eapply moved_trans.
  - unfold ret in Hrun. simplify_eq. split; [lia|done].
  - simplify_eq. split; [lia|done].
  - simplify_eq. split; [lia|done].
Qed.

Lemma choose_loop_moved (n : nat) sharks st r st' :
  choose_loop rnd sharkMap dcs offsets replicas size multi n sharks st
    = (r, st') ->
  dcs <> [] -> -1 <= st_dcIndex st ->
  -1 <= st_dcIndex st' /\
  moved (Z.of_nat (length dcs)) (st_dcIndex st) (st_dcIndex st').
Proof.
  intros Hrun Hne. revert sharks st Hrun.
  induction n as [|n IH]; intros sharks st.
  { intros [= <- <-] ?. split; [done|]. by left. }
  rewrite choose_loop_step.
  destruct (set rnd sharkMap dcs offsets replicas st) as [rt st1] eqn:Hset.
  intros Hrun Hidx.
  destruct (set_loop_moved _ _ _ _ _ Hset Hne Hidx) as [Hidx1 Hm1].
  destruct rt as [tuple| |].
  - destruct (place_tuple replicas size multi sharks tuple).
    + unfold ret in Hrun. by simplify_eq.
    + destruct (IH _ _ Hrun Hidx1) as [? Hm2]. split; [done|].
      by eapply moved_trans.
  - by simplify_eq.
  - by simplify_eq.
Qed.
End cursor.

(** The names [forEach] collects are names of the array it walks, in its
    order, and each comes with one offset. *)
Lemma forEach_filter_sub sharkMap size (names : list string) acc d o :
  forEach_filter sharkMap size names acc = Ret (d, o) ->
  exists d' o', d = acc.1 ++ d' /\ o = acc.2 ++ o' /\
                sublist d' names /\ length d' = length o'.
Proof.
  revert acc. induction names as [|dc names IH]; intros acc; cbn.
  { intros [= ->]. exists [], []. by rewrite !app_nil_r. }
  unfold filterDatacenters. destruct sharkMap as [m|]; [|done].
  destruct (lower_bound (m !! dc) size None None) as [l| |]; try done.
  cbn [res_bind]. case_decide; cbn [res_bind].
  - intros (d' & o' & -> & -> & Hsub & Hlen)%IH. cbn [fst snd].
    exists (dc :: d'), (l :: o'). rewrite <- !app_assoc.
    split; [done|]. split; [done|]. split; [by apply sublist_skip|].
    cbn. by rewrite Hlen.
  - intros (d' & o' & -> & -> & Hsub & Hlen)%IH.
    exists d', o'. split; [done|]. split; [done|].
    split; [by apply sublist_cons|done].
Qed.

Lemma not_enough_dcs_None (multi : bool) (replicas : Z) (dcs : list string) :
  not_enough_dcs multi replicas dcs = None ->
  dcs <> [] /\ (replicas > 1 -> multi = true -> (2 <= length dcs)%nat).
Proof.
  rewrite not_enough_dcs_cases. destruct dcs as [|a [|b dcs]]; [done| |].
  - case_decide as Hc; [done|]. intros _. split; [done|]. tauto.
  - intros _. split; [done|]. cbn. lia.
Qed.

(** What a prepared call knows about its arrays. *)
Lemma prepared_arrays rnd self opts dcs0 dcs offsets st0 names :
  prepared rnd self opts dcs0 dcs offsets st0 ->
  choose_datacenters self opts = Some names ->
  dcs <> [] /\ length dcs = length offsets /\
  (length dcs <= length names)%nat /\ (NoDup names -> NoDup dcs) /\
  (forall dc, dc ∈ dcs -> dc ∈ names) /\
  (choose_replicas opts > 1 -> multiDC self = true -> (2 <= length dcs)%nat).
Proof.
  intros Hprep Hn.
  destruct (prepared_state _ _ _ _ _ _ _ Hprep) as (_ & _ & Hperm).
  destruct Hprep as (names' & Hn' & Hf & Hchk & _).
  assert (names' = names) as -> by congruence.
  apply forEach_filter_sub in Hf as (d' & o' & -> & -> & Hsub & Hlen).
  cbn in *. apply not_enough_dcs_None in Hchk as [Hne Htwo].
  split. { intros ->. by apply Permutation_nil_l in Hperm. }
  split. { by rewrite Hperm. }
  split. { rewrite Hperm. by apply sublist_length. }
  split. { intros Hnd. rewrite Hperm. by eapply sublist_NoDup. }
  split. { intros dc Hdc. rewrite Hperm in Hdc. by eapply elem_of_sublist. }
  intros ? ?. rewrite Hperm. auto.
Qed.

Lemma store_dcIndex_cursor self st :
  store_dcIndex self st = store_dcIndex self (mkSel (st_dcIndex st) [] 0).
Proof. reflexivity. Qed.

Lemma store_dcIndex_same self :
  self = store_dcIndex self (mkSel (dcIndex self) [] 0).
Proof. by destruct self. Qed.

Lemma choose_keeps_fields self opts rnd :
  exists st, (choose self opts rnd).2 = store_dcIndex self st.
Proof.
  destruct (choose self opts rnd) as [r self'] eqn:Hrun. cbn [snd].
  apply choose_inv in Hrun
      as [[-> _]|(dcs0 & dcs & offsets & st0 & Hprep & Hfin)].
  - eexists. apply store_dcIndex_same.
  - unfold finish in Hfin. cbn in Hfin. simplify_eq. by eexists.
Qed.

Lemma choose_cursor_moved self opts rnd :
  -1 <= dcIndex self ->
  -1 <= dcIndex (choose self opts rnd).2 /\
  moved (Z.of_nat (length (default [] (choose_datacenters self opts))))
    (dcIndex self) (dcIndex (choose self opts rnd).2).
Proof.
  intros Hidx.
  destruct (choose self opts rnd) as [r self'] eqn:Hrun. cbn [snd].
  apply choose_inv in Hrun
      as [[-> _]|(dcs0 & dcs & offsets & st0 & Hprep & Hfin)].
  { split; [done|]. by left. }
  destruct (loop_of rnd self opts dcs offsets 3 [] st0) as [r' st'] eqn:Hl.
  unfold finish in Hfin. cbn in Hfin. simplify_eq. cbn [dcIndex store_dcIndex].
  destruct (prepared_state _ _ _ _ _ _ _ Hprep) as (_ & Hidx0 & _).
  pose proof Hprep as (names & Hn & _).
  destruct (prepared_arrays _ _ _ _ _ _ _ _ Hprep Hn)
    as (Hne & _ & Hlen & _).
  destruct (choose_loop_moved _ _ _ _ _ _ _ _ _ _ _ _ Hl Hne
              ltac:(by rewrite Hidx0)) as [Hge Hm].
  split; [done|]. rewrite Hn. cbn. rewrite Hidx0 in Hm.
  destruct Hm as [->|?]; [by left|right; lia].
Qed.

(** X10.  [choose] changes nothing of the client but the cursor, whatever
    its outcome; and a cursor that is -1 or an index stays where it is or
    becomes an index into the datacenter names of the view. *)
Theorem choose_moves_only_cursor self opts rnd :
  (exists st, (choose self opts rnd).2 = store_dcIndex self st) /\
  (-1 <= dcIndex self ->
   -1 <= dcIndex (choose self opts rnd).2 /\
   (dcIndex (choose self opts rnd).2 = dcIndex self \/
    0 <= dcIndex (choose self opts rnd).2
      < Z.of_nat (length (default [] (choose_datacenters self opts))))).
Proof.
  split; [apply choose_keeps_fields|].
  intros Hidx. destruct (choose_cursor_moved self opts rnd Hidx) as [? Hm].
  split; [done|exact Hm].
Qed.

Lemma choose_moves_only_cursor_witness :
  -1 <= dcIndex two_dc_client /\
  -1 <= dcIndex (choose two_dc_client (request 2 5) zeros).2.
Proof.
  assert (H : -1 <= dcIndex two_dc_client) by (vm_compute; discriminate).
  split; [exact H|].
  exact (proj1 (proj2 (choose_moves_only_cursor two_dc_client (request 2 5)
                         zeros) H)).
Defined.

Lemma choose_installed self opts rnd :
  installed self -> installed (choose self opts rnd).2.
Proof.
  destruct (choose_keeps_fields self opts rnd) as (st & ->).
  by intros (m & om & ds & ods & ? & ? & ? & ? & ? & ?); exists m, om, ds, ods.
Qed.

(** X11.  On every client the code can produce (built, installed into,
    chosen from, in any order) the cursor is -1 or above; the topology is
    either installed in both views or absent in both; and a standalone
    client has no default size. *)
Theorem reachable_client_invariant (self : client) :
  reachable self ->
  -1 <= dcIndex self /\
  (installed self \/
   (dcSharkMap self = None /\ operatorDcSharkMap self = None /\
    datacenters self = None /\ operatorDatacenters self = None)) /\
  (standalone self = true -> defMaxSizeMB self = None).
Proof.
  induction 1 as [copts|self dcObj opDcObj _ IH|self opts rnd _ IH].
  - split; [cbn; lia|]. split; [by right|].
    unfold StorinfoClient. cbn. intros ->. by destruct (o_pollInterval copts).
  - destruct IH as (Hidx & _ & Hst). split; [done|].
    split; [left; apply sortAndStoreDcs_installed|done].
  - destruct IH as (Hidx & Htopo & Hst).
    split; [by apply choose_cursor_moved|].
    destruct (choose_keeps_fields self opts rnd) as (st & Heq).
    split; [|by rewrite Heq].
    destruct Htopo as [Hinst|Hnone]; [left; by apply choose_installed|].
    right. by rewrite Heq.
Qed.

Lemma reachable_client_invariant_witness :
  reachable (choose two_dc_client (request 2 5) zeros).2 /\
  -1 <= dcIndex (choose two_dc_client (request 2 5) zeros).2.
Proof.
  assert (H : reachable (choose two_dc_client (request 2 5) zeros).2).
  { apply reach_choose, reach_install, reach_new. }
  split; [exact H|]. exact (proj1 (reachable_client_invariant _ H)).
Defined.

(** ** Where the replicas come from *)

Section source.
Variable rnd : nat -> nat.
Variable m : gmap string (list shark).
Variable dcs : list string.
Variable offsets : list Z.
Variable replicas : Z.
Variable size : option Z.
Variable multi : bool.

(** A shark [host] returns is one of the list of the datacenter the cursor
    stands at, whatever the offset. *)
Lemma host_source st h st' :
  host rnd (Some m) dcs offsets st = (Ret (Some h), st') ->
  exists name l x,
    js_get dcs (st_dcIndex st') = Some name /\ m !! name = Some l /\
    x ∈ l /\ h = replica_of x.
Proof.
  intros Hhost. pose proof (host_cursor _ _ _ _ _ _ _ Hhost) as Hidx.
  revert Hhost. unfold host, bind, next_dcIndex, throw. rewrite <- Hidx.
  destruct (js_get dcs (st_dcIndex st')) as [name|] eqn:Hname; [|done].
  destruct (js_get offsets _) as [offset|]; [|done].
  destruct (m !! name) as [l|] eqn:Hl; [|done].
  intros [_ (i & x & Hx & -> & _)]%host_pick_cases.
  exists name, l, x. split; [done|]. split; [done|].
  split; [by eapply js_get_elem_of|done].
Qed.

Lemma set_loop_source (n : nat) s st t st' :
  set_loop rnd (Some m) dcs offsets n s st = (Ret (Some t), st') ->
  exists new, t = s ++ new /\ Forall (drawn_from m dcs) new.
Proof.
  revert s st. induction n as [|n IH]; intros s st; cbn [set_loop].
  { intros [= <- <-]. exists []. by rewrite app_nil_r. }
  unfold bind.
  destruct (host rnd (Some m) dcs offsets st) as [[[h|]| |] st1] eqn:Hhost;
    try done.
  intros (new & -> & Hall)%IH. exists (h :: new).
  rewrite <- app_assoc. split; [done|]. constructor; [|done].
  destruct (host_source _ _ _ Hhost) as (name & l & x & Hn & Hl & Hx & ->).
  exists name, l, x. split; [by eapply js_get_elem_of|done].
Qed.

Lemma choose_loop_source (n : nat) sharks st out st' :
  choose_loop rnd (Some m) dcs offsets replicas size multi n sharks st
    = (Ret (CbOk out), st') ->
  Forall (Forall (drawn_from m dcs)) sharks ->
  Forall (Forall (drawn_from m dcs)) out.
Proof.
  revert sharks st. induction n as [|n IH]; intros sharks st.
  { by intros [= <- <-]. }
  rewrite choose_loop_step.
  destruct (set rnd (Some m) dcs offsets replicas st)
    as [[tuple| |] st1] eqn:Hset; try done.
  destruct (place_tuple replicas size multi sharks tuple)
    as [err|sharks'] eqn:Hplace; [done|].
  intros Hrun Hsharks. apply (IH _ _ Hrun).
  apply place_tuple_inr in Hplace as [(-> & -> & _)|(t & -> & -> & _)];
    [done|].
  apply Forall_app. split; [done|]. constructor; [|done].
  apply set_loop_source in Hset as (new & -> & Hall). done.
Qed.
End source.

(** X12.  Every replica of a result stands for a shark of the view [choose]
    reads, filed under a candidate datacenter, that is under a datacenter
    with at least one shark of the requested size.  This holds whatever the
    shuffle does to the offsets. *)
Theorem choose_draws_from_candidates self opts rnd sz m sharks self' :
  installed self -> choose_size self opts = Some sz ->
  choose_sharkMap self opts = Some m ->
  choose self opts rnd = (Ret (CbOk sharks), self') ->
  forall t h, t ∈ sharks -> h ∈ t ->
    exists dc l x,
      dc ∈ candidates self opts sz /\ m !! dc = Some l /\ x ∈ l /\
      h = replica_of x.
Proof.
  intros Hinst Hsz Hm
    (dcs0 & dcs & offsets & st0 & st' & Hprep & Hloop & _)%choose_ok_inv t h
    Ht Hh.
  destruct (prepared_state _ _ _ _ _ _ _ Hprep) as (_ & _ & Hperm).
  destruct (choose_filter_installed self opts sz Hinst Hsz)
    as (m' & names & offs & Hm' & Hn & _ & Hf & _).
  destruct Hprep as (names' & Hn' & Hf' & _).
  assert (names' = names) as -> by congruence.
  rewrite Hf in Hf'. simplify_eq.
  unfold loop_of in Hloop. rewrite Hm in Hloop.
  apply choose_loop_source in Hloop; [|constructor].
  rewrite Forall_forall in Hloop. specialize (Hloop t Ht).
  rewrite Forall_forall in Hloop.
  destruct (Hloop h Hh) as (dc & l & x & Hdc & Hl & Hx & ->).
  exists dc, l, x. by rewrite <- Hperm.
Qed.

Lemma choose_draws_from_candidates_witness :
  installed skewed_client /\
  exists sharks,
    (choose skewed_client (request 2 20) zeros).1 = Ret (CbOk sharks) /\
    forall t h, t ∈ sharks -> h ∈ t ->
      exists dc l x,
        dc ∈ candidates skewed_client (request 2 20) 20 /\
        (array_sort storageZoneComparator <$> skewed_dcs) !! dc = Some l /\
        x ∈ l /\ h = replica_of x.
Proof.
  split; [exact skewed_client_installed|].
  destruct (choose skewed_client (request 2 20) zeros) as [r self'] eqn:Hrun.
  assert (Hres : r = Ret (CbOk [[replica_of shark_y1; replica_of shark_x3]])).
  { apply (f_equal fst) in Hrun. vm_compute in Hrun. by symmetry. }
  subst r. eexists. split; [reflexivity|].
  apply (choose_draws_from_candidates skewed_client (request 2 20) zeros 20
           _ _ self' skewed_client_installed);
    [vm_compute; reflexivity|reflexivity|exact Hrun].
Defined.

(** ** The spread check on a keyed topology *)

Section keyed_run.
Variable rnd : nat -> nat.
Variable m : gmap string (list shark).
Variable dcs : list string.
Variable offsets : list Z.
Variable replicas : Z.
Variable size : option Z.
Variable multi : bool.
Hypothesis m_keyed : keyed m.
Hypothesis dcs_NoDup : NoDup dcs.
Hypothesis dcs_two : (2 <= length dcs)%nat.
Hypothesis replicas_two : replicas > 1.

Lemma set_loop_prefix (n : nat) s st t st' :
  set_loop rnd (Some m) dcs offsets n s st = (Ret (Some t), st') ->
  exists new, t = s ++ new.
Proof.
  intros (new & -> & _)%set_loop_source. by exists new.
Qed.

(** Two hosts in a row come from two datacenters, so a set of two or more
    replicas spans two. *)
Lemma set_spans_two st t st' :
  set rnd (Some m) dcs offsets replicas st = (Ret (Some t), st') ->
  -1 <= st_dcIndex st -> spans_two t.
Proof.
  unfold set. destruct (Z.to_nat replicas) as [|[|n]] eqn:Hn; [lia..|].
  cbn [set_loop]. unfold bind. intros Hrun Hidx.
  destruct (host rnd (Some m) dcs offsets st) as [[[h1|]| |] st1] eqn:Hh1;
    try done.
  destruct (host rnd (Some m) dcs offsets st1) as [[[h2|]| |] st2] eqn:Hh2;
    try done.
  apply set_loop_prefix in Hrun as (new & ->).
  assert (Hne : dcs <> []) by (intros Hnil; rewrite Hnil in dcs_two; cbn in *; lia).
  pose proof (host_moved _ _ _ _ _ _ _ Hh1 Hne Hidx) as Hi1.
  pose proof (host_cursor _ _ _ _ _ _ _ Hh2) as Hi2.
  destruct (host_source _ _ _ _ _ _ _ Hh1)
    as (name1 & l1 & x1 & Hn1 & Hl1 & Hx1 & ->).
  destruct (host_source _ _ _ _ _ _ _ Hh2)
    as (name2 & l2 & x2 & Hn2 & Hl2 & Hx2 & ->).
  exists (replica_of x1), (replica_of x2).
  split. { rewrite !elem_of_app, !list_elem_of_singleton. auto. }
  split. { rewrite !elem_of_app, !list_elem_of_singleton. auto. }
  cbn. rewrite (m_keyed _ _ _ Hl1 Hx1), (m_keyed _ _ _ Hl2 Hx2).
  intros <-. apply js_get_Some in Hn1 as [? Hn1], Hn2 as [? Hn2].
  pose proof (NoDup_lookup _ _ _ _ dcs_NoDup Hn1 Hn2) as Heq.
  assert (st_dcIndex st1 = st_dcIndex st2) as Heq' by lia.
  rewrite Hi2 in Heq'. case_decide; lia.
Qed.

(** On such a topology the only error of the loop is the one of a first set
    that cannot be built. *)
Lemma choose_loop_err_keyed (n : nat) sharks st err st' :
  choose_loop rnd (Some m) dcs offsets replicas size multi n sharks st
    = (Ret (CbErr err), st') ->
  -1 <= st_dcIndex st ->
  err = NotEnoughSpaceError size cause_exceeds.
Proof.
  revert sharks st. induction n as [|n IH]; intros sharks st; [done|].
  rewrite choose_loop_step.
  destruct (set rnd (Some m) dcs offsets replicas st)
    as [[tuple| |] st1] eqn:Hset; try done.
  assert (Hne : dcs <> []) by (intros Hnil; rewrite Hnil in dcs_two; cbn in *; lia).
  intros Hrun Hidx.
  destruct (set_loop_moved _ _ _ _ _ _ _ _ _ Hset Hne Hidx) as [Hidx1 _].
  destruct (place_tuple replicas size multi sharks tuple)
    as [e|sharks'] eqn:Hplace; [|by eapply IH].
  simplify_eq.
  apply place_tuple_inl in Hplace
      as [(_ & -> & _)|(t & -> & _ & _ & Hlt & _)]; [done|].
  apply set_spans_two in Hset; [|done].
  apply spans_two_length in Hset. lia.
Qed.
End keyed_run.

(** X13.  When every shark of the view is filed under its own datacenter,
    as in a topology built from a poll, the spread check cannot fail: an
    error of [choose] in multi-datacenter mode with several replicas is one
    of the three others. *)
Theorem choose_spread_holds_when_keyed self opts rnd m err self' :
  installed self -> -1 <= dcIndex self ->
  choose_sharkMap self opts = Some m -> keyed m ->
  multiDC self = true -> choose_replicas opts > 1 ->
  choose self opts rnd = (Ret (CbErr err), self') ->
  exists cause,
    err = NotEnoughSpaceError (choose_size self opts) cause /\
    (cause = "no DC with sufficient space" \/
     cause = pretty (choose_replicas opts) +:+
       " copies requested, but only 1 DC(s) have sufficient space" \/
     cause = "copies requested exceeds number of available storage nodes").
Proof.
  intros Hinst Hidx Hm Hk Hmulti Hrep Hrun.
  destruct (installed_view self opts Hinst)
    as (m' & names & Hm' & Hn & Hnd & _).
  assert (m' = m) as -> by congruence.
  apply choose_inv in Hrun
      as [[_ [[? _]|(names' & Hn' & Hf)]]
         |(dcs0 & dcs & offsets & st0 & Hprep & Hfin)].
  - congruence.
  - destruct (forEach_filter _ _ _ _) as [[dcs0 offs]| |]; try done.
    destruct Hf as (cause & Hc & Herr). simplify_eq.
    eexists. split; [done|]. rewrite not_enough_dcs_cases in Hc.
    destruct dcs0 as [|a [|b l]].
    + simplify_eq. by left.
    + case_decide; simplify_eq. right. by left.
    + simplify_eq.
  - destruct (prepared_state _ _ _ _ _ _ _ Hprep) as (_ & Hidx0 & _).
    destruct (prepared_arrays _ _ _ _ _ _ _ _ Hprep Hn)
      as (_ & _ & _ & Hnd' & _ & Htwo).
    unfold finish in Hfin.
    destruct (loop_of rnd self opts dcs offsets 3 [] st0) as [r st'] eqn:Hl.
    cbn in Hfin. simplify_eq. unfold loop_of in Hl. rewrite Hm in Hl.
    apply choose_loop_err_keyed in Hl; auto; [|by rewrite Hidx0].
    eexists. split; [done|]. right. by right.
Qed.

Lemma two_dcs_keyed : keyed (array_sort storageZoneComparator <$> two_dcs).
Proof.
  apply array_sort_keyed. intros dc l x Hl Hx. unfold two_dcs in Hl.
  destruct (decide (dc = "dc1")) as [->|].
  { rewrite lookup_insert_eq in Hl. simplify_eq.
    by apply list_elem_of_singleton in Hx as ->. }
  rewrite lookup_insert_ne in Hl by done.
  destruct (decide (dc = "dc2")) as [->|].
  { rewrite lookup_insert_eq in Hl. simplify_eq.
    by apply list_elem_of_singleton in Hx as ->. }
  by rewrite lookup_insert_ne in Hl.
Qed.

Lemma choose_spread_holds_when_keyed_witness :
  installed two_dc_client /\
  keyed (array_sort storageZoneComparator <$> two_dcs) /\
  (choose two_dc_client (request 3 5) zeros).1 =
    Ret (CbErr (NotEnoughSpaceError (Some 5)
           "copies requested exceeds number of available storage nodes")).
Proof.
  split; [exact two_dc_client_installed|]. split; [exact two_dcs_keyed|].
  destruct (choose two_dc_client (request 3 5) zeros) as [r self'] eqn:Hrun.
  assert (Hres : exists err, r = Ret (CbErr err)).
  { apply (f_equal fst) in Hrun. vm_compute in Hrun. subst r. by eexists. }
  destruct Hres as [err ->].
  destruct (choose_spread_holds_when_keyed two_dc_client (request 3 5) zeros
              (array_sort storageZoneComparator <$> two_dcs) err self'
              two_dc_client_installed ltac:(vm_compute; discriminate)
              eq_refl two_dcs_keyed eq_refl ltac:(vm_compute; reflexivity)
              Hrun) as (cause & -> & _).
  apply (f_equal fst) in Hrun. vm_compute in Hrun. cbn. by rewrite Hrun.
Defined.

(** ** One replica *)

Lemma place_tuple_one (size : option Z) (multi multi' : bool) sharks tuple :
  place_tuple 1 size multi sharks tuple = place_tuple 1 size multi' sharks tuple.
Proof.
  unfold place_tuple. rewrite (bool_decide_false (1 > 1)) by lia.
  by rewrite !andb_false_r.
Qed.

Lemma choose_loop_one rnd sharkMap dcs offsets size (multi multi' : bool)
    (n : nat) sharks st :
  choose_loop rnd sharkMap dcs offsets 1 size multi n sharks st =
  choose_loop rnd sharkMap dcs offsets 1 size multi' n sharks st.
Proof.
  revert sharks st. induction n as [|n IH]; intros sharks st; [done|].
  rewrite !choose_loop_step.
  destruct (set rnd sharkMap dcs offsets 1 st) as [[tuple| |] st1]; try done.
  rewrite (place_tuple_one size multi multi').
  by destruct (place_tuple 1 size multi' sharks tuple).
Qed.

(** X14.  With one replica the [multiDC] flag has no say: the same call on
    the client with the flag set either way hands the same outcome to the
    callback and leaves the cursor at the same place. *)
Theorem choose_one_replica_ignores_multiDC self opts rnd (b : bool) :
  choose_replicas opts = 1 ->
  (choose (with_multiDC self b) opts rnd).1 = (choose self opts rnd).1 /\
  dcIndex (choose (with_multiDC self b) opts rnd).2
    = dcIndex (choose self opts rnd).2.
Proof.
  intros Hone. unfold choose.
  change (choose_datacenters (with_multiDC self b) opts)
    with (choose_datacenters self opts).
  change (choose_sharkMap (with_multiDC self b) opts)
    with (choose_sharkMap self opts).
  change (choose_size (with_multiDC self b) opts) with (choose_size self opts).
  change (initial_state (with_multiDC self b)) with (initial_state self).
  destruct (choose_datacenters self opts) as [names|]; [|done].
  destruct (forEach_filter _ _ names _) as [[dcs offsets]| |]; try done.
  rewrite Hone. cbn [multiDC with_multiDC].
  assert (Hchk : not_enough_dcs b 1 dcs = not_enough_dcs (multiDC self) 1 dcs).
  { rewrite !not_enough_dcs_cases. by destruct dcs as [|a [|c l]]. }
  rewrite Hchk.
  destruct (not_enough_dcs (multiDC self) 1 dcs); [done|].
  unfold choose_select, bind.
  change (choose_sharkMap (with_multiDC self b) opts)
    with (choose_sharkMap self opts).
  change (choose_size (with_multiDC self b) opts) with (choose_size self opts).
  destruct (shuffle rnd dcs (initial_state self)) as [[dcs'| |] st0];
    try done.
  rewrite Hone. cbn [multiDC with_multiDC].
  rewrite (choose_loop_one _ _ _ _ _ b (multiDC self)).
  by destruct (choose_loop _ _ _ _ _ _ _ _ _ _).
Qed.

Lemma choose_one_replica_ignores_multiDC_witness :
  choose_replicas (request 1 5) = 1 /\
  (choose (with_multiDC one_dc_client false) (request 1 5) zeros).1 =
  (choose one_dc_client (request 1 5) zeros).1.
Proof.
  assert (H : choose_replicas (request 1 5) = 1) by reflexivity.
  split; [exact H|].
  exact (proj1 (choose_one_replica_ignores_multiDC one_dc_client (request 1 5)
                  zeros false H)).
Defined.

(** ** The [after_id] of a link header *)

Lemma js_split_nonempty (sep : Ascii.ascii) (s : string) : js_split sep s <> [].
Proof.
  destruct s as [|c s]; cbn; [done|].
  case_decide; [done|]. by destruct (js_split sep s).
Qed.

Lemma js_split_no_sep (sep : Ascii.ascii) (s : string) :
  ~ occurs sep s -> js_split sep s = [s].
Proof.
  induction s as [|c s IH]; cbn; [done|]. intros Hno.
  rewrite decide_False by tauto. rewrite IH by tauto. done.
Qed.

Lemma js_split_app (sep : Ascii.ascii) (a b : string) :
  ~ occurs sep a ->
  js_split sep (a +:+ b) =
  match js_split sep b with
  | p :: ps => (a +:+ p) :: ps
  | [] => []
  end.
Proof.
  induction a as [|c a IH]; intros Hno.
  { change ("" +:+ b) with b. destruct (js_split sep b); reflexivity. }
  change (String c a +:+ b) with (String c (a +:+ b)).
  cbn [js_split]. cbn in Hno.
  rewrite decide_False by tauto. rewrite IH by tauto.
  pose proof (js_split_nonempty sep b).
  destruct (js_split sep b); [done|reflexivity].
Qed.

Lemma append_empty_r (s : string) : s +:+ "" = s.
Proof.
  induction s as [|c s IH]; [done|].
  change (String c s +:+ "") with (String c (s +:+ "")). by f_equal.
Qed.

Lemma js_split_at_sep (sep : Ascii.ascii) (s : string) :
  js_split sep (String sep s) = "" :: js_split sep s.
Proof. cbn [js_split]. by rewrite decide_True. Qed.

Lemma js_split_head (sep : Ascii.ascii) (a b : string) :
  ~ occurs sep a ->
  js_split sep (a +:+ String sep b) = a :: js_split sep b.
Proof.
  intros Hno. rewrite js_split_app by done.
  rewrite js_split_at_sep. by rewrite append_empty_r.
Qed.

(** X15.  The [after_id] taken from a link header: for a link of the
    documented form, with an id free of "=" and "&" between the first "="
    and the next "&", the id comes back; when no "&" follows, everything up
    to the next "=" is taken; and a link without "=" makes the extraction
    throw. *)
Theorem after_id_of_link_extracts (pre id rest : string) :
  ~ occurs "=" pre -> ~ occurs "=" id -> ~ occurs "&" id ->
  after_id_of_link (pre +:+ String "=" (id +:+ String "&" rest)) = Ret id /\
  after_id_of_link (pre +:+ String "=" (id +:+ String "=" rest)) = Ret id /\
  after_id_of_link (pre +:+ String "=" id) = Ret id /\
  after_id_of_link pre = Throw TypeError.
Proof.
  intros Hpre Hid1 Hid2. unfold after_id_of_link.
  assert (Hhead : forall tail,
            js_split "=" (pre +:+ String "=" tail) = pre :: js_split "=" tail).
  { intros tail. by apply js_split_head. }
  assert (Hamp : forall tail,
            js_split "&" (id +:+ String "&" tail) = id :: js_split "&" tail).
  { intros tail. by apply js_split_head. }
  split; [|split; [|split]].
  - rewrite Hhead, js_split_app by done.
    cbn [js_split]. rewrite decide_False by done.
    pose proof (js_split_nonempty "=" rest).
    destruct (js_split "=" rest) as [|p ps]; [done|].
    by rewrite Hamp.
  - rewrite Hhead, js_split_app, js_split_at_sep, append_empty_r by done.
    by rewrite js_split_no_sep.
  - rewrite Hhead, js_split_no_sep by done. by rewrite js_split_no_sep.
  - by rewrite js_split_no_sep.
Qed.

Lemma after_id_of_link_extracts_witness :
  after_id_of_link "</poll?after_id=3.stor.example.com&limit=100>; rel=next"
  = Ret "3.stor.example.com".
Proof.
  apply (after_id_of_link_extracts "</poll?after_id" "3.stor.example.com"
           "limit=100>; rel=next");
    cbn; intros H; repeat (destruct H as [H|H]; [discriminate H|]); exact H.
Defined.

(** ** Enough room: the call succeeds with three sets *)

Section live_run.
Variable rnd : nat -> nat.
Variable m : gmap string (list shark).
Variable sz : Z.
Variable dcs : list string.
Variable offsets : list Z.
Variable replicas : Z.
Variable size : option Z.
Variable multi : bool.
Variable K : nat.
Hypothesis dcs_nonempty : dcs <> [].
Hypothesis dcs_aligned : aligned m sz dcs offsets.
Hypothesis offsets_found : Forall (fun off => off <> -1) offsets.
Hypothesis lists_sorted : forall dc l, m !! dc = Some l -> sorted_by_capacity l.
Hypothesis dcs_roomy :
  forall dc l, dc ∈ dcs -> m !! dc = Some l -> roomy l sz K.
Hypothesis spread_ok :
  multi = true -> replicas > 1 ->
  keyed m /\ NoDup dcs /\ (2 <= length dcs)%nat.

(** With fewer than [K] ids seen, [host] finds a shark. *)
Lemma host_live st :
  -1 <= st_dcIndex st -> (length (st_seen st) < K)%nat ->
  exists h st',
    host rnd (Some m) dcs offsets st = (Ret (Some h), st') /\
    -1 <= st_dcIndex st' /\
    length (st_seen st') = S (length (st_seen st)).
Proof.
  intros Hidx Hlen. unfold host, bind, next_dcIndex.
  set (ndx := if decide (st_dcIndex st + 1 >= Z.of_nat (length dcs))
              then 0 else st_dcIndex st + 1).
  assert (Hndx : 0 <= ndx < Z.of_nat (length dcs)).
  { subst ndx. destruct dcs; [done|]. cbn [length]. case_decide; lia. }
  destruct (aligned_lookup m sz dcs offsets dcs_aligned offsets_found
              lists_sorted ndx Hndx)
    as (name & off & l & Hname & Hoff & Hl & Hrange & [Hbelow _]).
  cbn [st_dcIndex]. rewrite Hname, Hoff, Hl.
  set (st1 := {| st_dcIndex := ndx; st_seen := st_seen st;
                 st_draws := st_draws st |}).
  destruct (random_no_skip rnd off (Z.of_nat (length l) - 1) st1)
    as (start & Hs & Hstart).
  specialize (Hstart ltac:(lia)).
  destruct (host_pick_from rnd l off start st1 Hs ltac:(lia) ltac:(lia))
    as (r & st' & Hpick & Hr).
  pose proof (host_pick_cases _ _ _ _ _ _ Hpick) as [Hidx' _].
  destruct r as [h|].
  - exists h, st'. split; [done|]. split; [rewrite Hidx'; cbn; lia|].
    destruct Hr as (i & x & _ & _ & _ & _ & -> & _). cbn.
    rewrite length_app. cbn. lia.
  - exfalso. destruct Hr as [Hall _]. cbn in Hall.
    destruct (dcs_roomy name l (js_get_elem_of _ _ _ Hname) Hl)
      as (ids & Hnd & Hk & Hids).
    assert (Hsub : ids ⊆+ st_seen st).
    { apply NoDup_submseteq; [done|]. intros id Hid.
      destruct (Hids id Hid) as (x & Hx & <- & Hcap).
      apply list_elem_of_lookup_1 in Hx as [i Hi].
      rewrite <- js_get_nat in Hi.
      apply (Hall (Z.of_nat i) x); [|done]. split.
      - destruct (decide (Z.of_nat i < off)) as [Hlt|]; [|lia].
        specialize (Hbelow _ _ Hi Hlt). lia.
      - apply js_get_Some in Hi as [_ Hi]. apply lookup_lt_Some in Hi. lia. }
    apply submseteq_length in Hsub. lia.
Qed.

Lemma set_loop_live (n : nat) (s : list replica) st :
  -1 <= st_dcIndex st -> (length (st_seen st) + n <= K)%nat ->
  exists t st',
    set_loop rnd (Some m) dcs offsets n s st = (Ret (Some t), st') /\
    -1 <= st_dcIndex st' /\
    length (st_seen st') = (length (st_seen st) + n)%nat.
Proof.
  revert s st. induction n as [|n IH]; intros s st Hidx Hlen.
  { exists s, st. split; [done|]. split; [done|]. lia. }
  cbn [set_loop]. unfold bind.
  destruct (host_live st Hidx ltac:(lia)) as (h & st1 & Hhost & Hidx1 & Hl1).
  rewrite Hhost.
  destruct (IH (s ++ [h]) st1 Hidx1 ltac:(lia)) as (t & st' & Hrun & ? & Hl').
  exists t, st'. split; [done|]. split; [done|]. lia.
Qed.

(** With room for [n] more sets, the loop adds [n] full sets. *)
Lemma choose_loop_live (n : nat) sharks st :
  -1 <= st_dcIndex st ->
  (length (st_seen st) + n * Z.to_nat replicas <= K)%nat ->
  exists new st',
    choose_loop rnd (Some m) dcs offsets replicas size multi n sharks st
      = (Ret (CbOk (sharks ++ new)), st') /\
    length new = n /\
    Forall (fun t => length t = Z.to_nat replicas) new.
Proof.
  revert sharks st. induction n as [|n IH]; intros sharks st Hidx Hlen.
  { exists [], st. by rewrite app_nil_r. }
  rewrite choose_loop_step.
  destruct (set_loop_live (Z.to_nat replicas) [] st Hidx ltac:(lia))
    as (t & st1 & Hset & Hidx1 & Hl1).
  change (set_loop rnd (Some m) dcs offsets (Z.to_nat replicas) [])
    with (set rnd (Some m) dcs offsets replicas) in Hset.
  rewrite Hset.
  pose proof (set_length _ _ _ _ _ _ _ _ Hset) as Ht.
  destruct (place_tuple replicas size multi sharks (Some t))
    as [err|sharks'] eqn:Hplace.
  { exfalso.
    apply place_tuple_inl in Hplace
        as [(_ & _ & Hshort)|(t' & Ht' & Hm & Hr & Hlt & _)]; [lia|].
    injection Ht' as <-. destruct (spread_ok Hm Hr) as (Hk & Hnd & Htwo).
    pose proof (set_spans_two rnd m dcs offsets replicas Hk Hnd Htwo Hr
                  _ _ _ Hset Hidx) as Hsp.
    apply spans_two_length in Hsp. lia. }
  apply place_tuple_inr in Hplace as [(? & _)|(t' & Ht' & -> & _)]; [done|].
  injection Ht' as <-.
  destruct (IH (sharks ++ [t]) st1 Hidx1 ltac:(lia))
    as (new & st' & Hrun & Hn & Hall).
  exists (t :: new), st'. rewrite <- app_assoc in Hrun.
  split; [done|]. split; [cbn; lia|]. by constructor.
Qed.
End live_run.

(** X16.  Enough room makes the call succeed in full.  Take an installed
    topology whose sharks are filed under their own datacenter, a defined
    size, at least one candidate datacenter (two for several replicas in
    multi-datacenter mode), and in every candidate datacenter three times
    [replicas] sharks with room and pairwise distinct ids; let the shuffle
    leave each candidate at the index of its own offset.  Then [choose]
    calls back with exactly three sets of [replicas] sharks each. *)
Theorem choose_succeeds_with_room self opts rnd sz m :
  installed self -> -1 <= dcIndex self ->
  choose_size self opts = Some sz ->
  choose_sharkMap self opts = Some m -> keyed m ->
  candidates self opts sz <> [] ->
  (multiDC self = true -> choose_replicas opts > 1 ->
   (2 <= length (candidates self opts sz))%nat) ->
  (forall dc l, dc ∈ candidates self opts sz -> m !! dc = Some l ->
     roomy l sz (3 * Z.to_nat (choose_replicas opts))) ->
  (forall dcs0 dcs offsets st0,
     prepared rnd self opts dcs0 dcs offsets st0 -> aligned m sz dcs offsets) ->
  exists sharks self',
    choose self opts rnd = (Ret (CbOk sharks), self') /\
    length sharks = 3%nat /\
    Forall (fun t => length t = Z.to_nat (choose_replicas opts)) sharks.
Proof.
  intros Hinst Hidx Hsz Hm Hk Hcand Hcand2 Hroom Haligned.
  assert (Hchk : not_enough_dcs (multiDC self) (choose_replicas opts)
                   (candidates self opts sz) = None).
  { rewrite not_enough_dcs_cases.
    destruct (candidates self opts sz) as [|a [|b cs]]; [done| |done].
    case_decide as Hc; [|done]. destruct Hc as [Hr Hmu].
    specialize (Hcand2 Hmu Hr). cbn in Hcand2. lia. }
  destruct (choose_filter_installed self opts sz Hinst Hsz)
    as (m' & names & offsets & Hm' & Hn & Hok & Hfilter & _ & Hfound).
  assert (m' = m) as -> by congruence. clear Hm'.
  destruct Hok as (Hnd & Hkeys & Hsorted).
  destruct (shuffle_ret rnd (candidates self opts sz) (initial_state self))
    as (dcs & st0 & Hsh & Hperm & Hseen & Hidx0).
  assert (Hprep : prepared rnd self opts (candidates self opts sz) dcs
                    offsets st0) by by exists names.
  destruct (prepared_arrays _ _ _ _ _ _ _ _ Hprep Hn)
    as (Hdcs & _ & _ & Hnd' & _ & Htwo).
  destruct (choose_loop_live rnd m sz dcs offsets (choose_replicas opts)
              (choose_size self opts) (multiDC self)
              (3 * Z.to_nat (choose_replicas opts)) Hdcs
              (Haligned _ _ _ _ Hprep) Hfound Hsorted) with (n := 3%nat)
              (sharks := @nil (list replica)) (st := st0)
    as (new & st' & Hloop & Hlen & Hall).
  - intros dc l Hdc. apply Hroom. by rewrite <- Hperm.
  - intros Hmulti Hrep. split; [done|]. split; [by apply Hnd'|by apply Htwo].
  - by rewrite Hidx0.
  - rewrite Hseen. cbn. lia.
  - exists new, (store_dcIndex self st'). split; [|done].
    rewrite (choose_prepared _ _ _ _ _ _ _ Hprep). unfold loop_of.
    rewrite Hm. by rewrite Hloop.
Qed.

Lemma roomy_filter (l : list shark) (sz : Z) :
  NoDup (manta_storage_id <$> filter (fun x => availableMB x >= sz) l) ->
  roomy l sz (length (filter (fun x => availableMB x >= sz) l)).
Proof.
  intros Hnd.
  exists (manta_storage_id <$> filter (fun x => availableMB x >= sz) l).
  split; [done|]. split; [by rewrite length_fmap|].
  intros id (x & -> & [Hcap Hx]%list_elem_of_filter)%list_elem_of_fmap.
  by exists x.
Qed.

Lemma wide_client_installed : installed wide_client.
Proof. apply sortAndStoreDcs_installed. Qed.

Lemma wide_dcs_keyed : keyed (array_sort storageZoneComparator <$> wide_dcs).
Proof.
  apply array_sort_keyed. intros dc l x Hl Hx. unfold wide_dcs in Hl.
  destruct (decide (dc = "dc1")) as [->|].
  { rewrite lookup_insert_eq in Hl. injection Hl as <-.
    unfold wide_dc1 in Hx.
    repeat (apply elem_of_cons in Hx as [->|Hx]; [done|]).
    by apply elem_of_nil in Hx. }
  rewrite lookup_insert_ne in Hl by done.
  destruct (decide (dc = "dc2")) as [->|].
  { rewrite lookup_insert_eq in Hl. injection Hl as <-.
    unfold wide_dc2 in Hx.
    repeat (apply elem_of_cons in Hx as [->|Hx]; [done|]).
    by apply elem_of_nil in Hx. }
  by rewrite lookup_insert_ne in Hl.
Qed.

Lemma choose_succeeds_with_room_witness :
  installed wide_client /\
  exists sharks self',
    choose wide_client (request 2 20) ones = (Ret (CbOk sharks), self') /\
    length sharks = 3%nat.
Proof.
  set (m := array_sort storageZoneComparator <$> wide_dcs).
  assert (Hsz : choose_size wide_client (request 2 20) = Some 20)
    by (vm_compute; reflexivity).
  assert (Hm : choose_sharkMap wide_client (request 2 20) = Some m)
    by reflexivity.
  assert (Hidx : -1 <= dcIndex wide_client) by (vm_compute; discriminate).
  assert (Hc : candidates wide_client (request 2 20) 20 = ["dc1"; "dc2"])
    by (vm_compute; reflexivity).
  assert (Hal : forall dcs0 dcs offsets st0,
             prepared ones wide_client (request 2 20) dcs0 dcs offsets st0 ->
             aligned m 20 dcs offsets).
  { intros dcs0 dcs offsets st0 (names & Hn & Hf & _ & Hsh).
    vm_compute in Hn. injection Hn as <-.
    vm_compute in Hf. injection Hf as <- <-.
    vm_compute in Hsh. injection Hsh as <- _.
    repeat constructor; vm_compute; reflexivity. }
  assert (Hroom : forall dc l,
             dc ∈ candidates wide_client (request 2 20) 20 ->
             m !! dc = Some l ->
             roomy l 20 (3 * Z.to_nat (choose_replicas (request 2 20)))).
  { intros dc l Hdc Hl. rewrite Hc in Hdc.
    apply elem_of_cons in Hdc as [->|Hdc];
      [|apply list_elem_of_singleton in Hdc as ->];
      vm_compute in Hl; injection Hl as <-;
      change (3 * Z.to_nat (choose_replicas (request 2 20)))%nat with 6%nat;
      match goal with
      | |- roomy ?l _ _ =>
          assert (Hlen : length (filter (fun x => availableMB x >= 20) l)
                         = 6%nat) by (vm_compute; reflexivity);
          rewrite <- Hlen; apply roomy_filter;
          apply (bool_decide_unpack _); vm_compute; exact I
      end. }
  split; [exact wide_client_installed|].
  assert (Hne : candidates wide_client (request 2 20) 20 <> [])
    by (rewrite Hc; discriminate).
  assert (Htwo : multiDC wide_client = true ->
                 choose_replicas (request 2 20) > 1 ->
                 (2 <= length (candidates wide_client (request 2 20) 20))%nat)
    by (intros _ _; rewrite Hc; cbn; lia).
  pose proof wide_dcs_keyed as Hk. fold m in Hk.
  destruct (choose_succeeds_with_room wide_client (request 2 20) ones 20 m
              wide_client_installed Hidx Hsz Hm Hk Hne Htwo Hroom Hal)
    as (sharks & self' & Hrun & Hlen & _).
  exists sharks, self'. split; [exact Hrun|exact Hlen].
Defined.

(** ** From a poll to a choice *)

(** X17.  A poll followed by a choice.  When the callback of [doPoll]
    installs the topology of the answer [rows] (it does unless a row carries
    a datacenter name inherited from [Object.prototype]), every replica
    [choose] then returns stands for a row of that answer; for a caller that
    is no operator the row is within the utilization limit of the client. *)
Theorem choose_after_poll_within_limit self self1 rows opts rnd sharks self' :
  doPoll_install self rows = Ret self1 ->
  choose self1 opts rnd = (Ret (CbOk sharks), self') ->
  forall t h, t ∈ sharks -> h ∈ t ->
    exists v,
      v ∈ rows /\ h = replica_of (row_shark v) /\
      (choose_isOperator opts = false ->
       within_utilization (utilization self) v = true).
Proof.
  intros (views & -> & Hviews)%doPoll_install_inv
    (dcs0 & dcs & offsets & st0 & st' & Hprep & Hloop & _)%choose_ok_inv
    t h Ht Hh.
  set (u := utilization self) in *.
  unfold loop_of in Hloop.
  destruct (choose_isOperator opts) eqn:Hop.
  - assert (Hm : choose_sharkMap (sortAndStoreDcs self views.1 views.2) opts
                 = Some (array_sort storageZoneComparator <$> views.2)).
    { unfold choose_sharkMap. by rewrite Hop. }
    rewrite Hm in Hloop. apply choose_loop_source in Hloop; [|constructor].
    rewrite Forall_forall in Hloop. specialize (Hloop t Ht).
    rewrite Forall_forall in Hloop.
    destruct (Hloop h Hh) as (dc & l & x & _ & Hl & Hx & ->).
    rewrite lookup_fmap in Hl.
    destruct (Hviews dc) as [Hview _]. rewrite Hview in Hl.
    case_decide; [done|]. cbn in Hl. injection Hl as <-.
    rewrite array_sort_perm in Hx. unfold rows_of in Hx.
    apply list_elem_of_fmap in Hx as (v & -> & [_ Hv]%list_elem_of_filter).
    exists v. split; [done|]. split; [done|]. done.
  - assert (Hm : choose_sharkMap (sortAndStoreDcs self views.1 views.2) opts
                 = Some (array_sort storageZoneComparator <$> views.1)).
    { unfold choose_sharkMap. by rewrite Hop. }
    rewrite Hm in Hloop. apply choose_loop_source in Hloop; [|constructor].
    rewrite Forall_forall in Hloop. specialize (Hloop t Ht).
    rewrite Forall_forall in Hloop.
    destruct (Hloop h Hh) as (dc & l & x & _ & Hl & Hx & ->).
    rewrite lookup_fmap in Hl.
    destruct (Hviews dc) as [_ Hview]. rewrite Hview in Hl.
    case_decide; [done|]. cbn in Hl. injection Hl as <-.
    rewrite array_sort_perm in Hx. unfold rows_within in Hx.
    apply list_elem_of_fmap in Hx as (v & -> & [[_ Hw] Hv]%list_elem_of_filter).
    exists v. split; [done|]. split; [done|]. done.
Qed.

Lemma choose_after_poll_within_limit_witness :
  exists self1 sharks,
    doPoll_install (StorinfoClient polling_opts) poll_rows = Ret self1 /\
    (choose self1 (request 2 50) zeros).1 = Ret (CbOk sharks) /\
    forall t h, t ∈ sharks -> h ∈ t ->
      exists v,
        v ∈ poll_rows /\ h = replica_of (row_shark v) /\
        (choose_isOperator (request 2 50) = false ->
         within_utilization (utilization (StorinfoClient polling_opts)) v
           = true).
Proof.
  destruct (doPoll_install (StorinfoClient polling_opts) poll_rows)
    as [self1| |] eqn:Hinst; [|by vm_compute in Hinst..].
  destruct (choose self1 (request 2 50) zeros) as [r self'] eqn:Hrun.
  assert (Hres : exists sharks, r = Ret (CbOk sharks)).
  { assert (Hself : Ret self1 = doPoll_install (StorinfoClient polling_opts)
                                  poll_rows) by done.
    vm_compute in Hself. injection Hself as ->.
    apply (f_equal fst) in Hrun. vm_compute in Hrun. subst r. by eexists. }
  destruct Hres as [sharks ->]. exists self1, sharks.
  split; [reflexivity|]. split; [by rewrite Hrun|].
  exact (choose_after_poll_within_limit _ _ _ _ _ _ _ Hinst Hrun).
Defined.

(** ** Polling the service *)

Lemma pages_upto_S (pages : nat -> list storage_row) (n : nat) :
  pages_upto pages (S n) = pages 0%nat ++ pages_upto (fun j => pages (S j)) n.
Proof.
  unfold pages_upto.
  change (seq 0 (S (S n))) with (0%nat :: seq 1 (S n)).
  rewrite <- (fmap_S_seq 0%nat (S n)). rewrite fmap_cons. cbn [concat]. f_equal.
  rewrite <- list_fmap_compose. reflexivity.
Qed.

Lemma report_relays : relays report.
Proof. intros r e args. by exists r. Qed.

Lemma relay_relays (callback : poll_callback) :
  relays callback -> relays (relay callback).
Proof.
  intros Hc r e args. unfold relay.
  destruct (Hc (args_res args) e args) as (r' & Hcall & Hr').
  exists r'. split; [done|]. intros ->. by apply Hr'.
Qed.

Lemma init_res_args (p : option uri_params)
    (rows0 : option (list storage_row)) :
  init_res (mkArgs p rows0) = mkArgs p (Some (default [] rows0)).
Proof. by destruct rows0. Qed.

Lemma push_rows_args (p : option uri_params) (l obj : list storage_row) :
  push_rows (mkArgs p (Some l)) (Some obj) = mkArgs p (Some (l ++ obj)).
Proof. reflexivity. Qed.

Section poll_facts.
Variable buildQuery : option uri_params -> string.
Variable http_get : nat -> string -> http_answer.
Variable self : client.

(** The pages of a service that answers without error are all collected and
    handed to the callback in one call. *)
Lemma poll_pages_from (n : nat) :
  standalone self = false ->
  forall (pages : nat -> list storage_row) (k fuel : nat) (p : uri_params)
         (rows0 : option (list storage_row)) (callback : poll_callback),
    (n < fuel)%nat ->
    (forall j q, (j < n)%nat ->
       exists link id,
         http_get (k + j)%nat q
           = mkAnswer None (Some (Some link)) (Some (pages j)) /\
         after_id_of_link link = Ret id) ->
    (forall q, http_get (k + n)%nat q
               = mkAnswer None (Some None) (Some (pages n))) ->
    exists args',
      poll buildQuery http_get fuel self k (mkArgs (Some p) rows0) callback
        = (callback (Some (default [] rows0 ++ pages_upto pages n)) None args',
           Ret args') /\
      args_res args' = Some (default [] rows0 ++ pages_upto pages n).
Proof.
  intros Hnet. induction n as [|n IH];
    intros pages k fuel p rows0 callback Hfuel Hmid Hlast.
  - destruct fuel as [|fuel]; [lia|]. cbn [poll]. rewrite Hnet.
    rewrite Nat.add_0_r in Hlast. rewrite Hlast.
    rewrite (init_res_args (Some p) rows0).
    cbn [ans_err ans_headers ans_obj]. rewrite push_rows_args.
    cbn [args_res app fmap option_fmap option_map].
    unfold pages_upto. cbn [seq fmap list_fmap concat]. rewrite app_nil_r.
    eexists. split; reflexivity.
  - destruct fuel as [|fuel]; [lia|]. cbn [poll]. rewrite Hnet.
    destruct (Hmid 0%nat ("/poll?" +:+ buildQuery (Some p)) ltac:(lia))
      as (link & id & Hans & Hid).
    rewrite Nat.add_0_r in Hans. cbn [uriParams]. rewrite Hans.
    rewrite (init_res_args (Some p) rows0).
    cbn [ans_err ans_headers ans_obj]. rewrite push_rows_args.
    cbn [uriParams app]. rewrite Hid.
    destruct (IH (fun j => pages (S j)) (S k) fuel
                {| after_id := Some id; limit := limit p |}
                (Some (default [] rows0 ++ pages 0%nat)) (relay callback)
                ltac:(lia))
      as (args' & Hrun & Hres).
    { intros j q Hj. destruct (Hmid (S j) q ltac:(lia)) as (l & i & Ha & Hi).
      exists l, i. split; [|done]. rewrite <- Ha. f_equal. lia. }
    { intros q. rewrite <- (Hlast q). f_equal. lia. }
    unfold set_after_id. cbn [args_res].
    rewrite Hrun. cbn [fst snd app]. rewrite pages_upto_S, app_assoc.
    exists args'. split; [|done]. unfold relay. by rewrite Hres.
Qed.

(** What the caller's callback sees in any run. *)
Lemma poll_calls_relayed (fuel : nat) :
  forall (k : nat) (args : poll_args) (callback : poll_callback) calls out,
    relays callback ->
    poll buildQuery http_get fuel self k args callback = (calls, out) ->
    match out with
    | Ret args' =>
        standalone self = false /\
        exists early e rows,
          calls = early ++ [mkCall (Some rows) e] /\
          args_res args' = Some rows /\
          Forall (fun c => call_err c <> None) early
    | _ => Forall (fun c => call_err c <> None) calls
    end.
Proof.
  induction fuel as [|fuel IH]; intros k args callback calls out Hc.
  { cbn. intros [= <- <-]. constructor. }
  cbn [poll]. destruct (standalone self) eqn:Hnet.
  { destruct (Hc None (Some (ClientError StandaloneModeError)) args)
      as (r' & -> & _).
    intros [= <- <-]. by repeat constructor. }
  set (a := http_get k ("/poll?" +:+ buildQuery (uriParams args))).
  set (args1 := init_res args).
  set (early := match ans_err a with
                | Some e => callback None (Some (HttpError e)) args1
                | None => []
                end).
  assert (Hearly : Forall (fun c => call_err c <> None) early).
  { subst early. destruct (ans_err a) as [e|]; [|constructor].
    destruct (Hc None (Some (HttpError e)) args1) as (r' & -> & _).
    by repeat constructor. }
  destruct (ans_headers a) as [[link|]|].
  - destruct (uriParams (push_rows args1 (ans_obj a))) as [p|];
      [|by intros [= <- <-]].
    destruct (after_id_of_link link) as [id| |]; try by intros [= <- <-].
    destruct (poll buildQuery http_get fuel self (S k)
                (set_after_id p (push_rows args1 (ans_obj a)) id)
                (relay callback)) as [calls' out'] eqn:Hrun.
    cbn [fst snd]. intros [= <- <-].
    pose proof (IH _ _ _ _ _ (relay_relays _ Hc) Hrun) as Hinner.
    destruct out' as [args'| |].
    + destruct Hinner as (_ & early' & e & rows & -> & Hres & Hall).
      split; [done|]. exists (early ++ early'), e, rows.
      rewrite app_assoc. split; [done|]. split; [done|].
      by apply Forall_app.
    + by apply Forall_app.
    + by apply Forall_app.
  - intros [= <- <-]. split; [done|].
    set (rows := default [] (args_res args1) ++ default [] (ans_obj a)).
    destruct (Hc (Some rows) (HttpError <$> ans_err a)
                (push_rows args1 (ans_obj a)))
      as (r' & Hcall & Hr').
    rewrite Hcall, (Hr' eq_refl).
    by exists early, (HttpError <$> ans_err a), rows.
  - by intros [= <- <-].
Qed.
End poll_facts.

(** X18.  Pagination.  On a client that is not standalone, with
    [args.uriParams] defined, let the service answer the requests
    [0 .. n-1] without error, each with a page and a link header from which
    an [after_id] can be taken, and the request [n] with a page and no link.
    Then, whatever the paths asked for, [poll] calls the callback exactly
    once, without error and with the rows [args.res] held before followed by
    those of the pages [0 .. n] in order; [args.res] holds the same rows at
    the end.  [n + 1] requests are enough. *)
Theorem poll_collects_pages buildQuery http_get self
    (pages : nat -> list storage_row) (n fuel : nat) (p : uri_params)
    (rows0 : option (list storage_row)) :
  standalone self = false -> (n < fuel)%nat ->
  (forall j q, (j < n)%nat ->
     exists link id,
       http_get j q = mkAnswer None (Some (Some link)) (Some (pages j)) /\
       after_id_of_link link = Ret id) ->
  (forall q, http_get n q = mkAnswer None (Some None) (Some (pages n))) ->
  exists args',
    poll buildQuery http_get fuel self 0 (mkArgs (Some p) rows0) report
      = ([mkCall (Some (default [] rows0 ++ pages_upto pages n)) None],
         Ret args') /\
    args_res args' = Some (default [] rows0 ++ pages_upto pages n).
Proof.
  intros Hnet Hfuel Hmid Hlast.
  destruct (poll_pages_from buildQuery http_get self n Hnet pages 0 fuel p
              rows0 report Hfuel Hmid Hlast) as (args' & Hrun & Hres).
  by exists args'.
Qed.

Lemma poll_collects_pages_witness :
  exists args',
    poll (fun _ => "limit=2") two_pages 2 (StorinfoClient polling_opts) 0
      (mkArgs (Some (mkParams None (Some 2))) None) report
      = ([mkCall (Some poll_rows) None], Ret args').
Proof.
  destruct (poll_collects_pages (fun _ => "limit=2") two_pages
              (StorinfoClient polling_opts)
              (fun j => match j with
                        | O => take 2 poll_rows
                        | _ => drop 2 poll_rows
                        end)
              1 2 (mkParams None (Some 2)) None)
    as (args' & Hrun & _).
  - reflexivity.
  - lia.
  - intros j q Hj. assert (j = 0%nat) as -> by lia.
    exists "</poll?after_id=p2&limit=2>; rel=next", "p2".
    split; reflexivity.
  - intros q. reflexivity.
  - exists args'. exact Hrun.
Defined.

(** X19.  The [args] of [doPoll] cannot follow a link.  [doPoll] calls
    [poll] with [{}]; when the first answer carries a link header, setting
    [args.uriParams.after_id] throws a [TypeError]: no second request is
    made, and the callback never receives rows. *)
Theorem poll_from_doPoll_stops_at_link buildQuery http_get self fuel link
    (callback : poll_callback) :
  standalone self = false ->
  ans_headers (http_get 0%nat ("/poll?" +:+ buildQuery None))
    = Some (Some link) ->
  (poll buildQuery http_get (S fuel) self 0 doPoll_args callback).2
    = Throw TypeError /\
  Forall (fun c => call_res c = None /\ call_err c <> None)
    (poll buildQuery http_get (S fuel) self 0 doPoll_args report).1.
Proof.
  intros Hnet Hlink. cbn [poll]. rewrite Hnet. cbn [doPoll_args uriParams].
  rewrite Hlink. cbn. split; [done|].
  destruct (ans_err _); by repeat constructor.
Qed.

Lemma poll_from_doPoll_stops_at_link_witness :
  (poll (fun _ => "") two_pages 2 (StorinfoClient polling_opts) 0
     doPoll_args report) = ([], Throw TypeError).
Proof.
  pose proof (poll_from_doPoll_stops_at_link (fun _ => "") two_pages
                (StorinfoClient polling_opts) 1
                "</poll?after_id=p2&limit=2>; rel=next" report
                eq_refl eq_refl) as [Hout Hcalls].
  destruct (poll (fun _ => "") two_pages 2 (StorinfoClient polling_opts) 0
              doPoll_args report) as [calls out] eqn:Hrun.
  cbn [snd] in Hout. subst out. f_equal.
  apply (f_equal fst) in Hrun. vm_compute in Hrun. by symmetry.
Defined.

(** X20.  What the callback of [poll] sees, for any service, client and
    [args].  A poll that ends normally, which takes a client that is not
    standalone, ends with a call that carries all of [args.res]; every call
    before it carries an error, and so does every call of a poll that ends
    in an exception.  So a call without error comes at most once, and last.
    A call with an error may carry rows as well. *)
Theorem poll_callback_calls buildQuery http_get self fuel k args calls out :
  poll buildQuery http_get fuel self k args report = (calls, out) ->
  match out with
  | Ret args' =>
      standalone self = false /\
      exists early e rows,
        calls = early ++ [mkCall (Some rows) e] /\
        args_res args' = Some rows /\
        Forall (fun c => call_err c <> None) early
  | _ => Forall (fun c => call_err c <> None) calls
  end.
Proof.
  apply poll_calls_relayed, report_relays.
Qed.

Lemma poll_callback_calls_witness :
  exists early e rows args',
    poll (fun _ => "") two_pages 2 (StorinfoClient polling_opts) 0
      (mkArgs (Some (mkParams None None)) None) report
      = (early ++ [mkCall (Some rows) e], Ret args') /\
    args_res args' = Some rows /\
    Forall (fun c => call_err c <> None) early.
Proof.
  destruct (poll (fun _ => "") two_pages 2 (StorinfoClient polling_opts) 0
              (mkArgs (Some (mkParams None None)) None) report)
    as [calls out] eqn:Hrun.
  pose proof (poll_callback_calls _ _ _ _ _ _ _ _ Hrun) as Hshape.
  assert (Hout : exists args', out = Ret args').
  { apply (f_equal snd) in Hrun. vm_compute in Hrun. subst out. by eexists. }
  destruct Hout as [args' ->].
  destruct Hshape as (_ & early & e & rows & -> & Hres & Hall).
  by exists early, e, rows, args'.
Defined.

(** An error in a later page reaches the caller twice, each time with the
    rows collected so far: once relayed from the handler's first
    [callback(null, err)], once from its last [callback(args.res, err)]. *)
Example poll_relays_error_with_rows :
  (poll (fun _ => "") page_then_error 2 (StorinfoClient polling_opts) 0
     (mkArgs (Some (mkParams None None)) None) report).1
  = [mkCall (Some (take 2 poll_rows)) (Some (HttpError "InternalError"));
     mkCall (Some (take 2 poll_rows)) (Some (HttpError "InternalError"))].
Proof. vm_compute. reflexivity. Qed.
